(** * ASML command interpreter: label table, parser and interpreter

    A shallow embedding of [src/ci/label_map.c], [src/ci/parser.c] and
    [src/ci/interpreter.c].

    Conventions of the embedding:
    - [int64_t] and [uint64_t] values are integers in [Z]; every conversion
      between the two and every wrap-around is written out ([to_int64],
      [to_uint64]).
    - a C string is a [string] (the bytes before the terminating NUL).
    - a [Command *] is an index into the store of allocated commands
      ([list Command.t]); [NULL] is [None].
    - undefined behaviour of the C program (an array access outside the
      array, a NULL dereference, a division by zero, the overflow of a
      signed addition or of a signed left shift) is an explicit result,
      [Undef], tagged with its cause. *)

From Stdlib Require Import ZArith Lia Ascii String List Bool.
From Stdlib Require Import DecimalString HexadecimalString.
From Stdlib Require Import DecimalZ DecimalPos HexadecimalN HexadecimalPos.
From stdpp Require Import base tactics option list numbers strings.
From Equations Require Import Equations.
Import ListNotations.

Local Open Scope string_scope.
Local Open Scope list_scope.
Local Open Scope Z_scope.

(** ** Machine integers *)

(** [(uint64_t) z] *)
Definition to_uint64 (z : Z) : Z := z mod 2 ^ 64.

(** [(int64_t) z] (two's complement) *)
Definition to_int64 (z : Z) : Z := (z + 2 ^ 63) mod 2 ^ 64 - 2 ^ 63.

Definition INT64_MIN : Z := - 2 ^ 63.
Definition INT64_MAX : Z := 2 ^ 63 - 1.

Definition in_int64 (z : Z) : Prop := INT64_MIN <= z <= INT64_MAX.

(** A [char] holding the byte [c]; [char] is signed on the platforms the
    program is built for. *)
Definition char_val (c : ascii) : Z :=
  let n := Z.of_nat (nat_of_ascii c) in
  if n <? 128 then n else n - 256.

(** ** Results of C code that may leave defined behaviour *)

Inductive ub : Type :=
| RegRead        (* read of [variables[i]] with [i] outside the array *)
| RegWrite       (* write of [variables[i]] with [i] outside the array *)
| NullDeref      (* a NULL [char *] handed to a string function *)
| BadCommand     (* a [Command *] that is not an allocated command *)
| BadBucket      (* [% 0], or a bucket index outside [entries] *)
| IntOverflow    (* overflow of a signed addition *)
| ShiftOverflow. (* [<<] of a negative signed value, or one whose result
                    the signed type cannot hold *)

Inductive outcome (A : Type) : Type :=
| Ret (a : A)
| Undef (why : ub).
Arguments Ret {A} a.
Arguments Undef {A} why.

Definition bind {A B : Type} (x : outcome A) (f : A -> outcome B) : outcome B :=
  match x with
  | Ret a => f a
  | Undef why => Undef why
  end.

Notation "x <- e ;; k" := (bind e (fun x => k))
  (at level 90, e at next level, right associativity).

(** ** Commands ([command_type.h], reconstructed from its uses) *)

(** Modelled from the spec: the register file has 32 registers
    ([NUM_VARIABLES], a macro of [interpreter.h]). *)
Definition NUM_VARIABLES : Z := 32.

Inductive CommandType : Type :=
| CMD_MOV | CMD_ADD | CMD_SUB | CMD_CMP | CMD_CMP_U | CMD_PRINT
| CMD_AND | CMD_EOR | CMD_ORR | CMD_LSL | CMD_LSR | CMD_ASR
| CMD_LOAD | CMD_STORE | CMD_PUT | CMD_BRANCH | CMD_CALL | CMD_RET
| CMD_other (n : Z).   (* any value the [switch] has no case for *)

Inductive BranchCondition : Type :=
| BRANCH_NONE | BRANCH_ALWAYS | BRANCH_EQUAL | BRANCH_NOT_EQUAL
| BRANCH_GREATER | BRANCH_LESS | BRANCH_GREATER_EQUAL | BRANCH_LESS_EQUAL.

#[global] Instance CommandType_eq_dec : EqDecision CommandType.
Proof. solve_decision. Defined.
#[global] Instance BranchCondition_eq_dec : EqDecision BranchCondition.
Proof. solve_decision. Defined.

(** The [Operand] union has the members [num_val], [str_val] and [base].
    The parser writes, and the interpreter reads, one member per operand
    role; the members are kept apart here, so a read of a member other than
    the one written sees the zero of [calloc]. *)
Module Operand.
Record t : Type := mk {
  num_val : Z;
  str_val : option string;   (* [None] is the NULL pointer *)
  base    : ascii;
}.
Definition zero : t := mk 0 None zero.
Definition set_num_val (n : Z) (o : t) : t := mk n (str_val o) (base o).
Definition set_str_val (s : option string) (o : t) : t := mk (num_val o) s (base o).
Definition set_base (c : ascii) (o : t) : t := mk (num_val o) (str_val o) c.
End Operand.

Module Command.
Record t : Type := mk {
  type             : CommandType;
  next             : option nat;
  is_a_immediate   : bool;
  is_a_string      : bool;
  is_b_immediate   : bool;
  is_b_string      : bool;
  branch_condition : BranchCondition;
  destination      : Operand.t;
  val_a            : Operand.t;
  val_b            : Operand.t;
}.
Definition set_next (n : option nat) (c : t) : t :=
  mk (type c) n (is_a_immediate c) (is_a_string c) (is_b_immediate c)
     (is_b_string c) (branch_condition c) (destination c) (val_a c) (val_b c).
Definition set_is_a_immediate (b : bool) (c : t) : t :=
  mk (type c) (next c) b (is_a_string c) (is_b_immediate c)
     (is_b_string c) (branch_condition c) (destination c) (val_a c) (val_b c).
Definition set_is_a_string (b : bool) (c : t) : t :=
  mk (type c) (next c) (is_a_immediate c) b (is_b_immediate c)
     (is_b_string c) (branch_condition c) (destination c) (val_a c) (val_b c).
Definition set_is_b_immediate (b : bool) (c : t) : t :=
  mk (type c) (next c) (is_a_immediate c) (is_a_string c) b
     (is_b_string c) (branch_condition c) (destination c) (val_a c) (val_b c).
Definition set_branch_condition (bc : BranchCondition) (c : t) : t :=
  mk (type c) (next c) (is_a_immediate c) (is_a_string c) (is_b_immediate c)
     (is_b_string c) bc (destination c) (val_a c) (val_b c).
Definition set_destination (o : Operand.t) (c : t) : t :=
  mk (type c) (next c) (is_a_immediate c) (is_a_string c) (is_b_immediate c)
     (is_b_string c) (branch_condition c) o (val_a c) (val_b c).
Definition set_val_a (o : Operand.t) (c : t) : t :=
  mk (type c) (next c) (is_a_immediate c) (is_a_string c) (is_b_immediate c)
     (is_b_string c) (branch_condition c) (destination c) o (val_b c).
Definition set_val_b (o : Operand.t) (c : t) : t :=
  mk (type c) (next c) (is_a_immediate c) (is_a_string c) (is_b_immediate c)
     (is_b_string c) (branch_condition c) (destination c) (val_a c) o.
End Command.

(** The store of allocated commands; a [Command *] is an index into it. *)
Abbreviation store := (list Command.t).

(** ** The label table ([label_map.c]) *)

Module Entry.
(** [next] of the C struct is the tail of the bucket's chain. *)
Record t : Type := mk {
  id      : string;
  command : nat;
}.
End Entry.

Module LabelMap.
Record t : Type := mk {
  entries  : list (list Entry.t);
  capacity : Z;
}.
End LabelMap.

(** [label_map_init]: [calloc] gives [capacity] empty buckets. *)
Definition label_map_init (capacity : Z) : LabelMap.t :=
  LabelMap.mk (repeat [] (Z.to_nat capacity)) capacity.

(** [hash_function]: the sum of the characters, in [unsigned long]. *)
Fixpoint hash_from (i : Z) (s : string) : Z :=
  match s with
  | EmptyString => i
  | String c s' => hash_from (to_uint64 (i + char_val c)) s'
  end.

Definition hash_function (s : string) : Z := hash_from 0 s.

(** [hash_function(id) % map->capacity], then [map->entries[hash]]. *)
Definition bucket_of (map : LabelMap.t) (id : string) : outcome (nat * list Entry.t) :=
  let cap := to_uint64 (LabelMap.capacity map) in
  if cap =? 0 then Undef BadBucket
  else
    let hash := Z.to_nat (hash_function id mod cap) in
    match LabelMap.entries map !! hash with
    | Some chain => Ret (hash, chain)
    | None => Undef BadBucket
    end.

(** The [while (current)] walk shared by [put_label] and [get_label]:
    the first entry of the chain whose id is [id]. *)
Fixpoint find_entry (chain : list Entry.t) (id : string) : option Entry.t :=
  match chain with
  | [] => None
  | e :: rest =>
      if String.eqb (Entry.id e) id then Some e else find_entry rest id
  end.

(** [put_label]; allocation is taken to succeed. *)
Definition put_label (map : LabelMap.t) (id : string) (command : nat)
  : outcome (bool * LabelMap.t) :=
  b <- bucket_of map id ;;
  let '(hash, chain) := b in
  match find_entry chain id with
  | Some _ => Ret (false, map)
  | None =>
      let new_entry := Entry.mk id command in
      Ret (true,
           LabelMap.mk (<[hash := new_entry :: chain]> (LabelMap.entries map))
                       (LabelMap.capacity map))
  end.

Definition get_label (map : LabelMap.t) (id : string) : outcome (option Entry.t) :=
  b <- bucket_of map id ;;
  Ret (find_entry (snd b) id).

(** ** The memory store ([mem.h]) *)

(** Modelled from the spec: the memory store is an external collaborator,
    a byte array of fixed capacity [MEM_CAPACITY] behind
    [mem_load (dst, offset, byte_count)] and
    [mem_store (src, offset, byte_count)], both reporting failure on an
    access outside the array.  [mem_load] gives the bytes it copies into
    [dst]; [mem_store] is handed the bytes at [src].  Offsets and counts
    are [size_t]. *)
Class MemStore : Type := {
  mem_t : Type;
  MEM_CAPACITY : Z;
  mem_load : mem_t -> Z -> Z -> option (list Z);
  mem_store : mem_t -> list Z -> Z -> Z -> option mem_t;
}.

(** ** The interpreter ([interpreter.c]) *)

Module StackEntry.
(** [next] of the C struct is the tail of the call stack. *)
Record t : Type := mk {
  variables : list Z;
  command   : option nat;
}.
End StackEntry.

Module Interpreter.
Record t : Type := mk {
  had_error  : bool;
  label_map  : LabelMap.t;
  is_greater : bool;
  is_equal   : bool;
  is_less    : bool;
  the_stack  : list StackEntry.t;
  variables  : list Z;
}.
Definition set_had_error (b : bool) (i : t) : t :=
  mk b (label_map i) (is_greater i) (is_equal i) (is_less i) (the_stack i) (variables i).
Definition set_flags (g e l : bool) (i : t) : t :=
  mk (had_error i) (label_map i) g e l (the_stack i) (variables i).
Definition set_the_stack (s : list StackEntry.t) (i : t) : t :=
  mk (had_error i) (label_map i) (is_greater i) (is_equal i) (is_less i) s (variables i).
Definition set_variables (v : list Z) (i : t) : t :=
  mk (had_error i) (label_map i) (is_greater i) (is_equal i) (is_less i) (the_stack i) v.
End Interpreter.

(** What a run can change: the interpreter, the memory store and the text
    written to standard output. *)
Module Machine.
Record t `{MemStore} : Type := mk {
  intr   : Interpreter.t;
  mem    : mem_t;
  stdout : string;
}.
Definition set_intr `{MemStore} (i : Interpreter.t) (m : t) : t := mk _ i (mem m) (stdout m).
Definition set_mem `{MemStore} (x : mem_t) (m : t) : t := mk _ (intr m) x (stdout m).
Definition printf `{MemStore} (s : string) (m : t) : t := mk _ (intr m) (mem m) (stdout m +:+ s).
End Machine.

Definition interpreter_init (map : LabelMap.t) : Interpreter.t :=
  Interpreter.mk false map false false false [] (repeat 0 (Z.to_nat NUM_VARIABLES)).

(** [variables[i]], read and written. *)
Definition read_var (variables : list Z) (i : Z) : outcome Z :=
  if (0 <=? i) && (i <? NUM_VARIABLES) then Ret (nth (Z.to_nat i) variables 0)
  else Undef RegRead.

Definition write_var (variables : list Z) (i : Z) (v : Z) : outcome (list Z) :=
  if (0 <=? i) && (i <? NUM_VARIABLES) then Ret (<[Z.to_nat i := v]> variables)
  else Undef RegWrite.

Definition fetch_number_value (intr : Interpreter.t) (op : Operand.t) (is_im : bool)
  : outcome (Interpreter.t * Z) :=
  if is_im then
    Ret (intr, Operand.num_val op)
  else
    let var_num := Operand.num_val op in
    if (var_num <? 0) || (var_num >=? NUM_VARIABLES) then
      Ret (Interpreter.set_had_error true intr, 0)
    else
      v <- read_var (Interpreter.variables intr) var_num ;;
      Ret (intr, v).

Definition cond_holds (intr : Interpreter.t) (cond : BranchCondition) : bool :=
  match cond with
  | BRANCH_ALWAYS => true
  | BRANCH_EQUAL => Interpreter.is_equal intr
  | BRANCH_NOT_EQUAL => negb (Interpreter.is_equal intr)
  | BRANCH_GREATER => Interpreter.is_greater intr
  | BRANCH_LESS => Interpreter.is_less intr
  | BRANCH_GREATER_EQUAL => Interpreter.is_greater intr || Interpreter.is_equal intr
  | BRANCH_LESS_EQUAL => Interpreter.is_less intr || Interpreter.is_equal intr
  | BRANCH_NONE => false
  end.

(** *** Printing *)

(** [printf ("%" PRId64, value)] *)
Definition format_PRId64 (value : Z) : string :=
  DecimalString.NilZero.string_of_int (Z.to_int value).

(** [printf ("%" PRIx64, value)], for [value] a [uint64_t] *)
Definition format_PRIx64 (value : Z) : string :=
  HexadecimalString.NilZero.string_of_uint (N.to_hex_uint (Z.to_N value)).

(** [num & (1ULL << i)], as a truth value *)
Definition bit_set (num : Z) (i : nat) : bool :=
  negb (Z.land num (Z.shiftl 1 (Z.of_nat i)) =? 0).

(** The [while] loop of [to_binary_string]; [n] is [highest_bit + 1], and
    so is the result (0 when [highest_bit] ends at -1). *)
Fixpoint highest_bit_loop (num : Z) (n : nat) : nat :=
  match n with
  | O => O
  | S h => if bit_set num h then n else highest_bit_loop num h
  end.

(** [bit_string_size - 1], a [size_t]: it wraps to [SIZE_MAX] when the
    size is 0. *)
Definition size_minus_one (bit_string_size : nat) : Z :=
  if (bit_string_size =? 0)%nat then 2 ^ 64 - 1 else Z.of_nat bit_string_size - 1.

(** The [for] loop of [to_binary_string]; [n] is [i + 1], [bit_string]
    holds the [index] characters written so far.  The result is the
    buffer up to its terminating NUL. *)
Fixpoint emit_bits (num : Z) (n : nat) (bit_string : list ascii)
    (bit_string_size : nat) : list ascii :=
  match n with
  | O => bit_string
  | S i =>
      if size_minus_one bit_string_size <=? Z.of_nat (length bit_string) then
        firstn (Z.to_nat (size_minus_one bit_string_size)) bit_string
      else
        emit_bits num i
          (bit_string ++ [if bit_set num i then "1"%char else "0"%char])
          bit_string_size
  end.

Definition to_binary_string (num : Z) (bit_string_size : nat) : string :=
  let prefix := ["0"%char; "b"%char] in
  if num =? 0 then
    string_of_list_ascii (prefix ++ ["0"%char])
  else
    let n := highest_bit_loop num 64 in
    string_of_list_ascii (emit_bits num n prefix bit_string_size).

(** [print_base]'s string case: the [for] loop filling [str]; [n] counts
    the iterations left ([MEM_CAPACITY - 1] at the start), [i] is the loop
    index.  [None] when a [mem_load] fails. *)
Fixpoint load_string `{MemStore} (mem : mem_t) (offset : Z) (i : Z) (n : nat)
  : option (list ascii) :=
  match n with
  | O => Some []
  | S n' =>
      match mem_load mem (to_uint64 (offset + i)) 1 with
      | Some (b :: _) =>
          if b mod 256 =? 0 then Some []
          else
            match load_string mem offset (i + 1) n' with
            | Some rest => Some (ascii_of_nat (Z.to_nat (b mod 256)) :: rest)
            | None => None
            end
      | _ => None
      end
  end.

Definition newline : string := String (ascii_of_nat 10) EmptyString.

(** [print_base]: the success flag, with the interpreter and the output. *)
Definition print_base `{MemStore} (m : Machine.t) (cmd : Command.t)
  : outcome (bool * Machine.t) :=
  r <- fetch_number_value (Machine.intr m) (Command.val_a cmd) (Command.is_a_immediate cmd) ;;
  let '(intr1, value) := r in
  let m1 := Machine.set_intr intr1 m in
  if Interpreter.had_error intr1 then Ret (false, m1)
  else
    let base := Operand.base (Command.val_b cmd) in
    if Ascii.eqb base "d" then
      Ret (true, Machine.printf (format_PRId64 value +:+ newline) m1)
    else if Ascii.eqb base "b" then
      Ret (true, Machine.printf (to_binary_string (to_uint64 value) 67 +:+ newline) m1)
    else if Ascii.eqb base "x" then
      Ret (true, Machine.printf ("0x" +:+ format_PRIx64 (to_uint64 value) +:+ newline) m1)
    else if Ascii.eqb base "s" then
      r2 <- fetch_number_value intr1 (Command.val_a cmd) (Command.is_a_immediate cmd) ;;
      let '(intr2, offset) := r2 in
      let m2 := Machine.set_intr intr2 m1 in
      if Interpreter.had_error intr2 then Ret (false, m2)
      else
        match load_string (Machine.mem m2) offset 0 (Z.to_nat (MEM_CAPACITY - 1)) with
        | None => Ret (false, Machine.set_intr (Interpreter.set_had_error true intr2) m2)
        | Some str => Ret (true, Machine.printf (string_of_list_ascii str +:+ newline) m2)
        end
    else
      Ret (false, Machine.set_intr (Interpreter.set_had_error true intr1) m1).

(** *** The register file as bytes, for [CMD_LOAD] *)

(** The [n] low bytes of [v], least significant first. *)
Fixpoint le_bytes (n : nat) (v : Z) : list Z :=
  match n with
  | O => []
  | S n' => Z.land v 255 :: le_bytes n' (Z.shiftr v 8)
  end.

Fixpoint le_value (bs : list Z) : Z :=
  match bs with
  | [] => 0
  | b :: rest => b mod 256 + 256 * le_value rest
  end.

Definition regs_bytes (variables : list Z) : list Z :=
  flat_map (fun v => le_bytes 8 (to_uint64 v)) variables.

Fixpoint bytes_regs (n : nat) (bs : list Z) : list Z :=
  match n with
  | O => []
  | S n' => to_int64 (le_value (firstn 8 bs)) :: bytes_regs n' (skipn 8 bs)
  end.

(** The bytes [bs] copied to [(uint8_t * ) &variables[i]]. *)
Definition write_var_bytes (variables : list Z) (i : Z) (bs : list Z) : outcome (list Z) :=
  if (0 <=? i) && (8 * i + Z.of_nat (length bs) <=? 8 * NUM_VARIABLES) then
    let all := regs_bytes variables in
    let off := Z.to_nat (8 * i) in
    Ret (bytes_regs (length variables)
           (firstn off all ++ bs ++ skipn (off + length bs) all))
  else Undef RegWrite.

(** [CMD_PUT]'s loop: the bytes [bs] stored one by one from address
    [offset + i] on; the flag is false when a [mem_store] failed. *)
Fixpoint store_string `{MemStore} (mem : mem_t) (bs : list Z) (offset : Z) (i : Z)
  : mem_t * bool :=
  match bs with
  | [] => (mem, true)
  | b :: rest =>
      match mem_store mem [b] (to_uint64 (offset + i)) 1 with
      | None => (mem, false)
      | Some mem' => store_string mem' rest offset (i + 1)
      end
  end.

Definition string_bytes (s : string) : list Z :=
  map (fun c => Z.of_nat (nat_of_ascii c)) (list_ascii_of_string s).

(** *** One iteration of the loop of [interpret] *)

(** What a [case] leaves in the locals [current] and [jumped]. *)
Inductive jump : Type :=
| Fallthrough                      (* [jumped] is false, [current] as before *)
| JumpTo (target : option nat).    (* [jumped] is true, [current = target] *)

Definition exec_mov (intr : Interpreter.t) (current : Command.t)
  : outcome (Interpreter.t * jump) :=
  r <- fetch_number_value intr (Command.val_a current) (Command.is_a_immediate current) ;;
  let '(intr1, value) := r in
  if Interpreter.had_error intr1 then Ret (intr1, Fallthrough)
  else
    vars <- write_var (Interpreter.variables intr1)
              (Operand.num_val (Command.destination current)) value ;;
    Ret (Interpreter.set_variables vars intr1, Fallthrough).

Definition exec_add_sub (intr : Interpreter.t) (current : Command.t)
  : outcome (Interpreter.t * jump) :=
  ra <- fetch_number_value intr (Command.val_a current) false ;;
  let '(intr1, va) := ra in
  let a := to_uint64 va in
  rb <- fetch_number_value intr1 (Command.val_b current) (Command.is_b_immediate current) ;;
  let '(intr2, vb) := rb in
  let b := to_uint64 vb in
  if Interpreter.had_error intr2 then Ret (intr2, Fallthrough)
  else
    let result :=
      if decide (Command.type current = CMD_ADD) then to_uint64 (a + b)
      else to_uint64 (a - b) in
    let dest_index := Operand.num_val (Command.destination current) in
    if (dest_index <? 0) || (dest_index >=? NUM_VARIABLES) then
      Ret (Interpreter.set_had_error true intr2, Fallthrough)
    else
      vars <- write_var (Interpreter.variables intr2) dest_index (to_int64 result) ;;
      Ret (Interpreter.set_variables vars intr2, Fallthrough).

Definition exec_cmp (intr : Interpreter.t) (current : Command.t)
  : outcome (Interpreter.t * jump) :=
  ra <- fetch_number_value intr (Command.val_a current) false ;;
  let '(intr1, a) := ra in
  rb <- fetch_number_value intr1 (Command.val_b current) (Command.is_b_immediate current) ;;
  let '(intr2, b) := rb in
  if Interpreter.had_error intr2 then Ret (intr2, Fallthrough)
  else
    let is_greater :=
      if decide (Command.type current = CMD_CMP) then a >? b
      else to_uint64 a >? to_uint64 b in
    let is_equal := a =? b in
    let is_less := negb (is_greater || is_equal) in
    Ret (Interpreter.set_flags is_greater is_equal is_less intr2, Fallthrough).

Definition exec_bitwise (intr : Interpreter.t) (current : Command.t)
  : outcome (Interpreter.t * jump) :=
  ra <- fetch_number_value intr (Command.val_a current) false ;;
  let '(intr1, a) := ra in
  rb <- fetch_number_value intr1 (Command.val_b current) false ;;
  let '(intr2, b) := rb in
  if Interpreter.had_error intr2 then Ret (intr2, Fallthrough)
  else
    let result :=
      if decide (Command.type current = CMD_AND) then Z.land a b
      else if decide (Command.type current = CMD_EOR) then Z.lxor a b
      else Z.lor a b in
    vars <- write_var (Interpreter.variables intr2)
              (Operand.num_val (Command.destination current)) result ;;
    Ret (Interpreter.set_variables vars intr2, Fallthrough).

(** [a << b] on [int64_t] is defined only when [a] is not negative and
    [a * 2^b] is an [int64_t]; anything else leaves defined behaviour.
    [(uint64_t)a >> b] fills with zeros.  [a >> b] on a negative [a] is
    implementation-defined, and an arithmetic shift on the compilers the
    program is built with: it shifts in copies of the sign bit. *)
Definition exec_shift (intr : Interpreter.t) (current : Command.t)
  : outcome (Interpreter.t * jump) :=
  ra <- fetch_number_value intr (Command.val_a current) false ;;
  let '(intr1, a) := ra in
  rb <- fetch_number_value intr1 (Command.val_b current) (Command.is_b_immediate current) ;;
  let '(intr2, b) := rb in
  if Interpreter.had_error intr2 then Ret (intr2, Fallthrough)
  else if (b <? 0) || (b >? 63) then
    Ret (Interpreter.set_had_error true intr2, Fallthrough)
  else
    result <-
      (if decide (Command.type current = CMD_LSL) then
         if (a <? 0) || (Z.shiftl a b >? INT64_MAX) then Undef ShiftOverflow
         else Ret (Z.shiftl a b)
       else if decide (Command.type current = CMD_LSR) then
         Ret (to_int64 (Z.shiftr (to_uint64 a) b))
       else Ret (Z.shiftr a b)) ;;
    vars <- write_var (Interpreter.variables intr2)
              (Operand.num_val (Command.destination current)) result ;;
    Ret (Interpreter.set_variables vars intr2, Fallthrough).

Definition exec_load `{MemStore} (m : Machine.t) (current : Command.t)
  : outcome (Machine.t * jump) :=
  let dest_index := Operand.num_val (Command.destination current) in
  rb <- fetch_number_value (Machine.intr m) (Command.val_b current)
          (Command.is_b_immediate current) ;;
  let '(intr1, vb) := rb in
  let offset := to_uint64 vb in
  ra <- fetch_number_value intr1 (Command.val_a current) (Command.is_a_immediate current) ;;
  let '(intr2, va) := ra in
  let bytes := to_uint64 va in
  vars <- write_var (Interpreter.variables intr2) dest_index 0 ;;
  let intr3 := Interpreter.set_variables vars intr2 in
  match mem_load (Machine.mem m) offset bytes with
  | None =>
      Ret (Machine.set_intr (Interpreter.set_had_error true intr3) m, Fallthrough)
  | Some bs =>
      vars' <- write_var_bytes vars dest_index bs ;;
      Ret (Machine.set_intr (Interpreter.set_variables vars' intr3) m, Fallthrough)
  end.

Definition exec_store `{MemStore} (m : Machine.t) (current : Command.t)
  : outcome (Machine.t * jump) :=
  let src_index := Operand.num_val (Command.destination current) in
  ra <- fetch_number_value (Machine.intr m) (Command.val_a current)
          (Command.is_a_immediate current) ;;
  let '(intr1, bytes) := ra in
  rb <- fetch_number_value intr1 (Command.val_b current) (Command.is_b_immediate current) ;;
  let '(intr2, offset) := rb in
  let m2 := Machine.set_intr intr2 m in
  if negb ((bytes =? 1) || (bytes =? 2) || (bytes =? 4) || (bytes =? 8)) then
    Ret (Machine.set_intr (Interpreter.set_had_error true intr2) m2, Fallthrough)
  else if offset + bytes >? INT64_MAX then Undef IntOverflow
  else if offset + bytes >? MEM_CAPACITY then
    Ret (Machine.set_intr (Interpreter.set_had_error true intr2) m2, Fallthrough)
  else
    value <- read_var (Interpreter.variables intr2) src_index ;;
    let buffer :=
      map (fun i => Z.land (Z.shiftr value (Z.of_nat i * 8)) 255) (seq 0 (Z.to_nat bytes))
      ++ repeat 0 (8 - Z.to_nat bytes) in
    match mem_store (Machine.mem m2) buffer (to_uint64 offset) (to_uint64 bytes) with
    | None =>
        Ret (Machine.set_intr (Interpreter.set_had_error true intr2) m2, Fallthrough)
    | Some mem' => Ret (Machine.set_mem mem' m2, Fallthrough)
    end.

Definition exec_put `{MemStore} (m : Machine.t) (current : Command.t)
  : outcome (Machine.t * jump) :=
  rb <- fetch_number_value (Machine.intr m) (Command.val_b current)
          (Command.is_b_immediate current) ;;
  let '(intr1, offset) := rb in
  let m1 := Machine.set_intr intr1 m in
  match Interpreter.had_error intr1, Operand.str_val (Command.val_a current) with
  | false, Some str =>
      let '(mem', ok) := store_string (Machine.mem m1) (string_bytes str ++ [0]) offset 0 in
      let m2 := Machine.set_mem mem' m1 in
      if ok then Ret (m2, Fallthrough)
      else Ret (Machine.set_intr (Interpreter.set_had_error true intr1) m2, Fallthrough)
  | _, _ =>
      Ret (Machine.set_intr (Interpreter.set_had_error true intr1) m1, Fallthrough)
  end.

Definition exec_branch `{MemStore} (m : Machine.t) (current : Command.t)
  : outcome (Machine.t * jump) :=
  let intr := Machine.intr m in
  if cond_holds intr (Command.branch_condition current) then
    match Operand.str_val (Command.val_a current) with
    | None => Undef NullDeref
    | Some label =>
        entry <- get_label (Interpreter.label_map intr) label ;;
        match entry with
        | None =>
            if String.prefix ".L" label then Ret (m, JumpTo None)
            else
              Ret (Machine.printf ("Label not found: " +:+ label +:+ newline)
                     (Machine.set_intr (Interpreter.set_had_error true intr) m),
                   Fallthrough)
        | Some e => Ret (m, JumpTo (Some (Entry.command e)))
        end
    end
  else Ret (m, JumpTo (Command.next current)).

Definition exec_call `{MemStore} (m : Machine.t) (current : Command.t)
  : outcome (Machine.t * jump) :=
  let intr := Machine.intr m in
  match Operand.str_val (Command.val_a current) with
  | None => Undef NullDeref
  | Some label =>
      target <- get_label (Interpreter.label_map intr) label ;;
      match target with
      | None =>
          Ret (Machine.printf ("Label not found: " +:+ label +:+ newline)
                 (Machine.set_intr (Interpreter.set_had_error true intr) m),
               Fallthrough)
      | Some e =>
          let stack_entry :=
            StackEntry.mk (Interpreter.variables intr) (Command.next current) in
          Ret (Machine.set_intr
                 (Interpreter.set_the_stack (stack_entry :: Interpreter.the_stack intr) intr) m,
               JumpTo (Some (Entry.command e)))
      end
  end.

(** [memcpy (&variables[1], &stack_entry->variables[1], ...)] keeps
    [variables[0]]. *)
Definition restore_variables (variables saved : list Z) : list Z :=
  firstn 1 variables ++ skipn 1 saved.

Definition exec_ret (intr : Interpreter.t) : outcome (Interpreter.t * jump) :=
  match Interpreter.the_stack intr with
  | [] => Ret (intr, JumpTo None)
  | stack_entry :: rest =>
      let intr1 := Interpreter.set_the_stack rest intr in
      let intr2 :=
        Interpreter.set_variables
          (restore_variables (Interpreter.variables intr1)
             (StackEntry.variables stack_entry)) intr1 in
      Ret (intr2, JumpTo (StackEntry.command stack_entry))
  end.

(** The [switch]. *)
Definition exec `{MemStore} (m : Machine.t) (current : Command.t)
  : outcome (Machine.t * jump) :=
  let on_intr (r : outcome (Interpreter.t * jump)) :=
    x <- r ;; Ret (Machine.set_intr (fst x) m, snd x) in
  match Command.type current with
  | CMD_MOV => on_intr (exec_mov (Machine.intr m) current)
  | CMD_ADD | CMD_SUB => on_intr (exec_add_sub (Machine.intr m) current)
  | CMD_CMP | CMD_CMP_U => on_intr (exec_cmp (Machine.intr m) current)
  | CMD_PRINT =>
      r <- print_base m current ;;
      let '(ok, m1) := r in
      if ok then Ret (m1, Fallthrough)
      else Ret (Machine.set_intr (Interpreter.set_had_error true (Machine.intr m1)) m1,
                Fallthrough)
  | CMD_AND | CMD_EOR | CMD_ORR => on_intr (exec_bitwise (Machine.intr m) current)
  | CMD_LSL | CMD_LSR | CMD_ASR => on_intr (exec_shift (Machine.intr m) current)
  | CMD_LOAD => exec_load m current
  | CMD_STORE => exec_store m current
  | CMD_PUT => exec_put m current
  | CMD_BRANCH => exec_branch m current
  | CMD_CALL => exec_call m current
  | CMD_RET => on_intr (exec_ret (Machine.intr m))
  | CMD_other _ =>
      Ret (Machine.set_intr (Interpreter.set_had_error true (Machine.intr m)) m, Fallthrough)
  end.

(** The body of the [while] loop: the [switch], then
    [if (!intr->had_error && !jumped) current = current->next]. *)
Definition step `{MemStore} (prog : store) (m : Machine.t) (current : nat)
  : outcome (Machine.t * option nat) :=
  match prog !! current with
  | None => Undef BadCommand
  | Some cmd =>
      r <- exec m cmd ;;
      let '(m', j) := r in
      match j with
      | JumpTo target => Ret (m', target)
      | Fallthrough =>
          if Interpreter.had_error (Machine.intr m') then Ret (m', Some current)
          else Ret (m', Command.next cmd)
      end
  end.

(** The loop of [interpret] has no bound of its own; [fuel] bounds the
    number of iterations here. *)
Inductive run_result `{MemStore} : Type :=
| Finished (m : Machine.t) (current : option nat)   (* the loop was left *)
| Crashed (why : ub)
| OutOfFuel.

Fixpoint interpret_loop `{MemStore} (fuel : nat) (prog : store) (m : Machine.t)
    (current : option nat) : run_result :=
  match current with
  | None => Finished m None
  | Some c =>
      if Interpreter.had_error (Machine.intr m) then Finished m current
      else
        match fuel with
        | O => OutOfFuel
        | S fuel' =>
            match step prog m c with
            | Ret (m', current') => interpret_loop fuel' prog m' current'
            | Undef why => Crashed why
            end
        end
  end.

(** [interpret]: the loop, then the call stack is freed. *)
Definition interpret `{MemStore} (fuel : nat) (prog : store) (m : Machine.t)
    (commands : option nat) : run_result :=
  match commands with
  | None => Finished m None
  | Some _ =>
      match interpret_loop fuel prog m commands with
      | Finished m' current =>
          Finished (Machine.set_intr (Interpreter.set_the_stack [] (Machine.intr m')) m')
                   current
      | r => r
      end
  end.

(** A memory store as the spec describes it: [capacity] bytes, an access
    is refused when it does not lie inside them. *)
Definition flat_load (capacity : Z) (mem : list Z) (offset bytes : Z) : option (list Z) :=
  if offset + bytes <=? capacity then
    Some (firstn (Z.to_nat bytes) (skipn (Z.to_nat offset) mem))
  else None.

Definition flat_store (capacity : Z) (mem : list Z) (src : list Z) (offset bytes : Z)
  : option (list Z) :=
  if offset + bytes <=? capacity then
    Some (firstn (Z.to_nat offset) mem ++ firstn (Z.to_nat bytes) src
          ++ skipn (Z.to_nat (offset + bytes)) mem)
  else None.

Definition flat_mem (capacity : Z) : MemStore :=
  {| mem_t := list Z;
     MEM_CAPACITY := capacity;
     mem_load := flat_load capacity;
     mem_store := flat_store capacity |}.

(** ** The parser ([parser.c]) *)

(** *** Tokens ([token_type.h] and the lexer, reconstructed from their uses) *)

Inductive TokenType : Type :=
| TOK_IDENT | TOK_NUM | TOK_STR | TOK_NL | TOK_EOF | TOK_COLON
| TOK_MOV | TOK_ADD | TOK_SUB | TOK_CMP | TOK_CMP_U | TOK_PRINT
| TOK_AND | TOK_EOR | TOK_ORR | TOK_LSL | TOK_LSR | TOK_ASR
| TOK_LOAD | TOK_STORE | TOK_PUT
| TOK_BRANCH | TOK_BRANCH_EQ | TOK_BRANCH_GE | TOK_BRANCH_GT
| TOK_BRANCH_LE | TOK_BRANCH_LT | TOK_BRANCH_NEQ
| TOK_CALL | TOK_RET
| TOK_other (n : Z).   (* any kind the parser has no case for *)

#[global] Instance TokenType_eq_dec : EqDecision TokenType.
Proof. solve_decision. Defined.

Module Token.
(** [lexeme] points into the source text: it is the text from the first
    character of the token to the end of the source; [length] is the
    number of characters of the token. *)
Record t : Type := mk {
  type   : TokenType;
  lexeme : string;
  length : nat;
}.
End Token.

Definition eof_token : Token.t := Token.mk TOK_EOF EmptyString 0.

(** Modelled from the spec: the token source hands out the tokens of the
    source text one by one, and the end-of-input token from then on.  A
    lexer is the list of the tokens it has yet to hand out. *)
Definition Lexer : Type := list Token.t.

Definition lexer_next_token (lexer : Lexer) : Token.t * Lexer :=
  match lexer with
  | [] => (eof_token, [])
  | tok :: rest => (tok, rest)
  end.

(** *** [strtol] and [strtoll] *)

Definition isspace (c : ascii) : bool :=
  let n := nat_of_ascii c in
  (n =? 32)%nat || ((9 <=? n)%nat && (n <=? 13)%nat).

Definition digit_value (c : ascii) : option Z :=
  let n := Z.of_nat (nat_of_ascii c) in
  if (48 <=? n) && (n <=? 57) then Some (n - 48)
  else if (97 <=? n) && (n <=? 122) then Some (n - 87)
  else if (65 <=? n) && (n <=? 90) then Some (n - 55)
  else None.

Definition is_digit (base : Z) (c : ascii) : bool :=
  match digit_value c with
  | Some d => d <? base
  | None => false
  end.

Fixpoint skip_space (s : string) : nat * string :=
  match s with
  | String c rest =>
      if isspace c then let '(n, s') := skip_space rest in (S n, s') else (O, s)
  | EmptyString => (O, s)
  end.

(** The digits of [s] in [base], from the value [acc] on: the value and
    the number of digits read. *)
Fixpoint read_digits (base : Z) (s : string) (acc : Z) : Z * nat :=
  match s with
  | String c rest =>
      match digit_value c with
      | Some d =>
          if d <? base then
            let '(v, n) := read_digits base rest (acc * base + d) in (v, S n)
          else (acc, O)
      | None => (acc, O)
      end
  | EmptyString => (acc, O)
  end.

(** [strtoll (nptr, &endptr, base)] for a base from 2 to 36, after the C
    standard: white space, an optional sign, for base 16 an optional [0x],
    then the digits; the result is clamped to the range of [long long].
    The second component is [endptr - nptr]; it is 0 when there is no
    digit to convert.  [strtol] is the same function, [long] having 64
    bits. *)
Definition strtoll (nptr : string) (base : Z) : Z * nat :=
  let '(n_space, s1) := skip_space nptr in
  let '(negative, n_sign, s2) :=
    match s1 with
    | String "-" rest => (true, 1%nat, rest)
    | String "+" rest => (false, 1%nat, rest)
    | _ => (false, O, s1)
    end in
  let '(n_prefix, s3) :=
    match s2 with
    | String "0" (String x (String h rest)) =>
        if (base =? 16) && (Ascii.eqb x "x" || Ascii.eqb x "X") && is_digit 16 h
        then (2%nat, String h rest) else (O, s2)
    | _ => (O, s2)
    end in
  let '(v, n_digits) := read_digits base s3 0 in
  match n_digits with
  | O => (0, O)
  | _ =>
      let v' := if negative : bool then - v else v in
      (Z.max INT64_MIN (Z.min INT64_MAX v'), (n_space + n_sign + n_prefix + n_digits)%nat)
  end.

Definition strtol : string -> Z -> Z * nat := strtoll.

(** [s + n], for a pointer [s] into a string; it stays at the terminating
    NUL when the string is shorter than [n]. *)
Fixpoint advance_ptr (s : string) (n : nat) {struct n} : string :=
  match n, s with
  | S n', String _ s' => advance_ptr s' n'
  | _, _ => s
  end.

(** [s[0]]; the terminating NUL when [s] is empty *)
Definition first_char (s : string) : ascii :=
  match s with
  | String c _ => c
  | EmptyString => zero
  end.

(** [strndup (s, n)] *)
Definition strndup (s : string) (n : nat) : string := String.substring 0 n s.

(** *** The parser state *)

Module Parser.
(** [heap] is not a member of the C struct: it is the store of the
    commands allocated so far, which [create_command] extends. *)
Record t : Type := mk {
  lexer     : Lexer;
  had_error : bool;
  label_map : LabelMap.t;
  current   : Token.t;
  next      : Token.t;
  heap      : store;
}.
Definition set_had_error (b : bool) (p : t) : t :=
  mk (lexer p) b (label_map p) (current p) (next p) (heap p).
Definition set_label_map (m : LabelMap.t) (p : t) : t :=
  mk (lexer p) (had_error p) m (current p) (next p) (heap p).
Definition set_heap (h : store) (p : t) : t :=
  mk (lexer p) (had_error p) (label_map p) (current p) (next p) h.
End Parser.

Definition parser_init (lexer : Lexer) (map : LabelMap.t) : Parser.t :=
  let '(current, lexer1) := lexer_next_token lexer in
  let '(next, lexer2) := lexer_next_token lexer1 in
  Parser.mk lexer2 false map current next [].

Definition is_at_end (parser : Parser.t) : bool :=
  bool_decide (Token.type (Parser.current parser) = TOK_EOF).

(** [advance]; the token it returns is [Parser.current] of its argument. *)
Definition advance (parser : Parser.t) : Parser.t :=
  if is_at_end parser then parser
  else
    let '(tok, lexer') := lexer_next_token (Parser.lexer parser) in
    Parser.mk lexer' (Parser.had_error parser) (Parser.label_map parser)
      (Parser.next parser) tok (Parser.heap parser).

Definition consume (parser : Parser.t) (type : TokenType) : bool * Parser.t :=
  if decide (Token.type (Parser.current parser) = type) then (true, advance parser)
  else (false, parser).

(** [create_command]: [calloc] gives a zeroed command at a fresh address;
    allocation is taken to succeed. *)
Definition create_command (type : CommandType) (parser : Parser.t) : nat * Parser.t :=
  let cmd :=
    Command.mk type None false false false false BRANCH_NONE
      Operand.zero Operand.zero Operand.zero in
  (length (Parser.heap parser),
   Parser.set_heap (Parser.heap parser ++ [cmd]) parser).

(** Modelled from the spec: [free_command] (declared outside [parser.c])
    releases a discarded command.  The cell stays in the store; no pointer
    to it is kept. *)
Definition free_command (cmd : option nat) (parser : Parser.t) : Parser.t := parser.

(** [*cmd], and an assignment to a member of [*cmd] *)
Definition deref (parser : Parser.t) (cmd : nat) : Command.t :=
  nth cmd (Parser.heap parser)
    (Command.mk (CMD_other 0) None false false false false BRANCH_NONE
       Operand.zero Operand.zero Operand.zero).

Definition assign (cmd : nat) (f : Command.t -> Command.t) (parser : Parser.t) : Parser.t :=
  Parser.set_heap (alter f cmd (Parser.heap parser)) parser.

(** *** Operands *)

Definition is_variable (token : Token.t) : bool :=
  (2 <=? Token.length token)%nat && Ascii.eqb (first_char (Token.lexeme token)) "x".

Definition is_base (token : Token.t) : bool :=
  (Token.length token =? 1)%nat &&
  (let c := first_char (Token.lexeme token) in
   Ascii.eqb c "d" || Ascii.eqb c "x" || Ascii.eqb c "s" || Ascii.eqb c "b").

(** The operand parsers return [None] for [false]; they change neither the
    operand nor the parser in that case. *)
Definition parse_base (parser : Parser.t) (op : Operand.t) : option (Operand.t * Parser.t) :=
  if negb (is_base (Parser.current parser)) then None
  else
    Some (Operand.set_base (first_char (Token.lexeme (Parser.current parser))) op,
          advance parser).

Definition parse_variable (token : Token.t) : option Z :=
  let '(tempnum, consumed) := strtol (advance_ptr (Token.lexeme token) 1) 10 in
  if negb (Token.length token =? 1 + consumed)%nat || (tempnum <? 0) || (tempnum >? 31)
  then None
  else Some tempnum.

Definition parse_number (token : Token.t) : option Z :=
  let '(skip, base) :=
    if (2 <? Token.length token)%nat && Ascii.eqb (first_char (Token.lexeme token)) "0" then
      let c1 := first_char (advance_ptr (Token.lexeme token) 1) in
      if Ascii.eqb c1 "x" then (2%nat, 16)
      else if Ascii.eqb c1 "b" then (2%nat, 2)
      else (O, 10)
    else (O, 10) in
  let '(result, consumed) := strtoll (advance_ptr (Token.lexeme token) skip) base in
  if (Token.length token =? skip + consumed)%nat then Some result else None.

(** [parse_im] does not advance. *)
Definition parse_im (parser : Parser.t) (op : Operand.t) : option Operand.t :=
  if negb (bool_decide (Token.type (Parser.current parser) = TOK_NUM)) then None
  else
    match parse_number (Parser.current parser) with
    | None => None
    | Some result => Some (Operand.set_num_val result op)
    end.

Definition parse_variable_operand (parser : Parser.t) (op : Operand.t)
  : option (Operand.t * Parser.t) :=
  if negb (bool_decide (Token.type (Parser.current parser) = TOK_IDENT))
     || negb (is_variable (Parser.current parser)) then None
  else
    match parse_variable (Parser.current parser) with
    | None => None
    | Some var_num => Some (Operand.set_num_val var_num op, advance parser)
    end.

(** The operand, [*is_immediate] and the parser *)
Definition parse_var_or_imm (parser : Parser.t) (op : Operand.t)
  : option (Operand.t * bool * Parser.t) :=
  if bool_decide (Token.type (Parser.current parser) = TOK_IDENT)
     && is_variable (Parser.current parser) then
    match parse_variable_operand parser op with
    | None => None
    | Some (op', parser') => Some (op', false, parser')
    end
  else if bool_decide (Token.type (Parser.current parser) = TOK_NUM) then
    match parse_im parser op with
    | None => None
    | Some op' => Some (op', true, advance parser)
    end
  else None.

(** The number of tokens the parser can still advance over. *)
Definition tokens_left (parser : Parser.t) : nat :=
  (length (Parser.lexer parser)
   + (if decide (Token.type (Parser.next parser) = TOK_EOF) then 0 else 1)
   + (if decide (Token.type (Parser.current parser) = TOK_EOF) then 0 else 1))%nat.

(** *** Termination of the loops over the token stream *)

Lemma tokens_left_advance (parser : Parser.t) :
  is_at_end parser = false ->
  (tokens_left (advance parser) < tokens_left parser)%nat.
Proof.
  unfold advance, tokens_left, is_at_end; intros Hend; rewrite Hend.
  apply bool_decide_eq_false in Hend.
  destruct (Parser.lexer parser) as [|tok rest]; simpl;
    repeat case_decide; simpl; try lia; try congruence.
Qed.

Lemma tokens_left_advance_le (parser : Parser.t) :
  (tokens_left (advance parser) <= tokens_left parser)%nat.
Proof.
  destruct (is_at_end parser) eqn:Hend.
  - unfold advance; rewrite Hend; lia.
  - apply tokens_left_advance in Hend; lia.
Qed.

Lemma tokens_left_consume (parser parser' : Parser.t) (type : TokenType) :
  type <> TOK_EOF ->
  consume parser type = (true, parser') ->
  (tokens_left parser' < tokens_left parser)%nat.
Proof.
  unfold consume; intros Hty Hc; case_decide as Hcur; [|discriminate].
  injection Hc as <-; apply tokens_left_advance.
  unfold is_at_end; apply bool_decide_eq_false; congruence.
Qed.

(** [skip_nls]: [while (consume (parser, TOK_NL));] *)
Equations? skip_nls (parser : Parser.t) : Parser.t by wf (tokens_left parser) lt :=
skip_nls parser with Logic.inspect (consume parser TOK_NL) := {
  | exist _ (true, parser') Hconsume => skip_nls parser'
  | exist _ (false, parser') Hconsume => parser' }.
Proof. eapply tokens_left_consume; [|eassumption]; discriminate. Qed.

Definition consume_newline (parser : Parser.t) : bool * Parser.t :=
  let '(ok, parser') := consume parser TOK_NL in
  if ok then (true, parser') else consume parser' TOK_EOF.

(** *** [parse_cmd] *)

(** How a [case] of the [switch] of [parse_cmd] ends: by [return], or by
    [break] with the local [cmd]. *)
Inductive switch_end : Type :=
| Return (result : option nat) (parser : Parser.t)
| Break (cmd : option nat) (parser : Parser.t).

(** [parser->had_error = true; free_command (cmd); return NULL;] *)
Definition bail_out (cmd : nat) (parser : Parser.t) : switch_end :=
  Return None (free_command (Some cmd) (Parser.set_had_error true parser)).

(** A call [parse_variable_operand (parser, &cmd->field)] and its like,
    followed by [bail_out] on failure and by [k] otherwise. *)
Definition variable_into (get : Command.t -> Operand.t)
    (set : Operand.t -> Command.t -> Command.t)
    (cmd : nat) (parser : Parser.t) (k : Parser.t -> switch_end) : switch_end :=
  match parse_variable_operand parser (get (deref parser cmd)) with
  | None => bail_out cmd parser
  | Some (op, parser') => k (assign cmd (set op) parser')
  end.

Definition var_or_imm_into (get : Command.t -> Operand.t)
    (set : Operand.t -> Command.t -> Command.t)
    (set_flag : bool -> Command.t -> Command.t)
    (cmd : nat) (parser : Parser.t) (k : Parser.t -> switch_end) : switch_end :=
  match parse_var_or_imm parser (get (deref parser cmd)) with
  | None => bail_out cmd parser
  | Some (op, is_immediate, parser') =>
      k (assign cmd (set_flag is_immediate) (assign cmd (set op) parser'))
  end.

(** [parse_im (parser, &cmd->val_a)], then [cmd->is_a_immediate = true]
    and [advance (parser)]. *)
Definition im_into_val_a (cmd : nat) (parser : Parser.t) (k : Parser.t -> switch_end)
  : switch_end :=
  match parse_im parser (Command.val_a (deref parser cmd)) with
  | None => bail_out cmd parser
  | Some op =>
      k (advance (assign cmd (Command.set_is_a_immediate true)
                    (assign cmd (Command.set_val_a op) parser)))
  end.

Definition parse_mov (parser : Parser.t) : switch_end :=
  let '(cmd, parser) := create_command CMD_MOV parser in
  let parser := advance parser in
  variable_into Command.destination Command.set_destination cmd parser (fun parser =>
  let parser := skip_nls parser in
  im_into_val_a cmd parser (fun parser =>
  Break (Some cmd) parser)).

(** [CMD_ADD], [CMD_SUB], [CMD_LSL], [CMD_LSR] and [CMD_ASR] *)
Definition parse_dest_var_operand (type : CommandType) (parser : Parser.t) : switch_end :=
  let '(cmd, parser) := create_command type parser in
  let parser := advance parser in
  variable_into Command.destination Command.set_destination cmd parser (fun parser =>
  variable_into Command.val_a Command.set_val_a cmd parser (fun parser =>
  var_or_imm_into Command.val_b Command.set_val_b Command.set_is_b_immediate
    cmd parser (fun parser =>
  Break (Some cmd) parser))).

Definition parse_cmp (type : CommandType) (parser : Parser.t) : switch_end :=
  let '(cmd, parser) := create_command type parser in
  let parser := advance parser in
  variable_into Command.val_a Command.set_val_a cmd parser (fun parser =>
  var_or_imm_into Command.val_b Command.set_val_b Command.set_is_b_immediate
    cmd parser (fun parser =>
  Break (Some cmd) parser)).

Definition parse_print (parser : Parser.t) : switch_end :=
  let '(cmd, parser) := create_command CMD_PRINT parser in
  let parser := advance parser in
  var_or_imm_into Command.val_a Command.set_val_a Command.set_is_a_immediate
    cmd parser (fun parser =>
  match parse_base parser (Command.val_b (deref parser cmd)) with
  | None => bail_out cmd parser
  | Some (op, parser) => Break (Some cmd) (assign cmd (Command.set_val_b op) parser)
  end).

Definition parse_bitwise (type : CommandType) (parser : Parser.t) : switch_end :=
  let '(cmd, parser) := create_command type parser in
  let parser := advance parser in
  variable_into Command.destination Command.set_destination cmd parser (fun parser =>
  variable_into Command.val_a Command.set_val_a cmd parser (fun parser =>
  variable_into Command.val_b Command.set_val_b cmd parser (fun parser =>
  Break (Some cmd)
    (assign cmd (Command.set_is_b_immediate false)
       (assign cmd (Command.set_is_a_immediate false) parser))))).

Definition parse_load (parser : Parser.t) : switch_end :=
  let '(cmd, parser) := create_command CMD_LOAD parser in
  let parser := advance parser in
  variable_into Command.destination Command.set_destination cmd parser (fun parser =>
  im_into_val_a cmd parser (fun parser =>
  var_or_imm_into Command.val_b Command.set_val_b Command.set_is_b_immediate
    cmd parser (fun parser =>
  Break (Some cmd) parser))).

Definition parse_store (parser : Parser.t) : switch_end :=
  let '(cmd, parser) := create_command CMD_STORE parser in
  let parser := advance parser in
  variable_into Command.destination Command.set_destination cmd parser (fun parser =>
  var_or_imm_into Command.val_b Command.set_val_b Command.set_is_b_immediate
    cmd parser (fun parser =>
  im_into_val_a cmd parser (fun parser =>
  Break (Some cmd) parser))).

Definition parse_put (parser : Parser.t) : switch_end :=
  let '(cmd, parser) := create_command CMD_PUT parser in
  let parser := advance parser in
  if negb (bool_decide (Token.type (Parser.current parser) = TOK_STR)) then
    bail_out cmd parser
  else
    let str :=
      String.substring 0 (Token.length (Parser.current parser))
        (Token.lexeme (Parser.current parser)) in
    let parser :=
      assign cmd (fun c => Command.set_val_a (Operand.set_str_val (Some str) (Command.val_a c)) c)
        parser in
    let parser := assign cmd (Command.set_is_a_string true) parser in
    let parser := advance parser in
    var_or_imm_into Command.val_b Command.set_val_b Command.set_is_b_immediate
      cmd parser (fun parser =>
    Break (Some cmd) parser).

(** The label operand of [CMD_BRANCH] and [CMD_CALL] *)
Definition parse_label_operand (cmd : nat) (parser : Parser.t) : switch_end :=
  let parser := advance parser in
  if negb (bool_decide (Token.type (Parser.current parser) = TOK_IDENT)) then
    bail_out cmd parser
  else
    let str :=
      strndup (Token.lexeme (Parser.current parser))
        (Token.length (Parser.current parser)) in
    let parser :=
      assign cmd (fun c => Command.set_val_a (Operand.set_str_val (Some str) (Command.val_a c)) c)
        parser in
    let parser := assign cmd (Command.set_is_a_string true) parser in
    Break (Some cmd) (advance parser).

Definition parse_branch (cond : BranchCondition) (parser : Parser.t) : switch_end :=
  let '(cmd, parser) := create_command CMD_BRANCH parser in
  let parser := assign cmd (Command.set_branch_condition cond) parser in
  parse_label_operand cmd parser.

Definition parse_call (parser : Parser.t) : switch_end :=
  let '(cmd, parser) := create_command CMD_CALL parser in
  parse_label_operand cmd parser.

Definition parse_ret (parser : Parser.t) : switch_end :=
  let '(cmd, parser) := create_command CMD_RET parser in
  Break (Some cmd) (advance parser).

(** The [switch] of [parse_cmd] over the kind of the current token. *)
Definition parse_switch (parser : Parser.t) : switch_end :=
  match Token.type (Parser.current parser) with
  | TOK_MOV => parse_mov parser
  | TOK_ADD => parse_dest_var_operand CMD_ADD parser
  | TOK_SUB => parse_dest_var_operand CMD_SUB parser
  | TOK_CMP => parse_cmp CMD_CMP parser
  | TOK_CMP_U => parse_cmp CMD_CMP_U parser
  | TOK_PRINT => parse_print parser
  | TOK_AND => parse_bitwise CMD_AND parser
  | TOK_EOR => parse_bitwise CMD_EOR parser
  | TOK_ORR => parse_bitwise CMD_ORR parser
  | TOK_LSL => parse_dest_var_operand CMD_LSL parser
  | TOK_LSR => parse_dest_var_operand CMD_LSR parser
  | TOK_ASR => parse_dest_var_operand CMD_ASR parser
  | TOK_LOAD => parse_load parser
  | TOK_STORE => parse_store parser
  | TOK_PUT => parse_put parser
  | TOK_BRANCH => parse_branch BRANCH_ALWAYS parser
  | TOK_BRANCH_EQ => parse_branch BRANCH_EQUAL parser
  | TOK_BRANCH_GE => parse_branch BRANCH_GREATER_EQUAL parser
  | TOK_BRANCH_GT => parse_branch BRANCH_GREATER parser
  | TOK_BRANCH_LE => parse_branch BRANCH_LESS_EQUAL parser
  | TOK_BRANCH_LT => parse_branch BRANCH_LESS parser
  | TOK_BRANCH_NEQ => parse_branch BRANCH_NOT_EQUAL parser
  | TOK_CALL => parse_call parser
  | TOK_RET => parse_ret parser
  | _ => Break None (Parser.set_had_error true parser)
  end.

(** [parse_cmd] from [if (token.type == TOK_EOF)] on: the [switch], then
    the terminator. *)
Definition parse_instruction (parser : Parser.t) : option nat * Parser.t :=
  let token := Parser.current parser in
  if decide (Token.type token = TOK_EOF) then (None, parser)
  else
    match parse_switch parser with
    | Return result parser' => (result, parser')
    | Break cmd parser' =>
        let '(ok, parser'') := consume_newline parser' in
        if ok then (cmd, parser'')
        else (None, free_command cmd (Parser.set_had_error true parser''))
    end.

(** Whether the parser is at a label prefix, [IDENT ':']. *)
Definition at_label (parser : Parser.t) : bool :=
  bool_decide (Token.type (Parser.current parser) = TOK_IDENT)
  && bool_decide (Token.type (Parser.next parser) = TOK_COLON).

Lemma tokens_left_skip_nls (parser : Parser.t) :
  (tokens_left (skip_nls parser) <= tokens_left parser)%nat.
Proof.
  funelim (skip_nls parser).
  - enough (tokens_left parser' < tokens_left parser)%nat by lia.
    eapply tokens_left_consume; [|eassumption]; discriminate.
  - clear - Hconsume; unfold consume in Hconsume.
    destruct (decide _); [discriminate|].
    assert (parser' = parser) as -> by congruence; lia.
Qed.

Lemma tokens_left_label (parser : Parser.t) :
  at_label (skip_nls parser) = true ->
  (tokens_left (advance (advance (skip_nls parser))) < tokens_left parser)%nat.
Proof.
  intros Hlabel; apply andb_prop in Hlabel as [Hcur _].
  apply bool_decide_eq_true in Hcur.
  pose proof (tokens_left_skip_nls parser).
  pose proof (tokens_left_advance_le (advance (skip_nls parser))).
  enough (tokens_left (advance (skip_nls parser)) < tokens_left (skip_nls parser))%nat by lia.
  apply tokens_left_advance; unfold is_at_end.
  apply bool_decide_eq_false; congruence.
Qed.

(** The label prefix of [parse_cmd] after the recursive call: the label is
    registered when a command came back. *)
Definition register_label (label_token : Token.t) (r : option nat * Parser.t)
  : outcome (option nat * Parser.t) :=
  match r with
  | (Some labeled_cmd, parser) =>
      let label := strndup (Token.lexeme label_token) (Token.length label_token) in
      put <- put_label (Parser.label_map parser) label labeled_cmd ;;
      let '(ok, map) := put in
      let parser' := Parser.set_label_map map parser in
      Ret (Some labeled_cmd, if ok then parser' else Parser.set_had_error true parser')
  | (None, parser) => Ret (None, parser)
  end.

(** [parse_cmd]: the result is the command, or [None] for NULL. *)
Equations? (noind) parse_cmd (parser : Parser.t) : outcome (option nat * Parser.t)
  by wf (tokens_left parser) lt :=
parse_cmd parser with Logic.inspect (at_label (skip_nls parser)) := {
  | exist _ true Hlabel =>
      r <- parse_cmd (advance (advance (skip_nls parser))) ;;
      register_label (Parser.current (skip_nls parser)) r
  | exist _ false Hlabel => Ret (parse_instruction (skip_nls parser)) }.
Proof. apply tokens_left_label; assumption. Qed.

(** [parse_cmd] consumes a token whenever it returns a command; this is
    what makes the loop of [parse_commands] terminate. *)
Definition consumed_to (bound : nat) (e : switch_end) : Prop :=
  match e with
  | Return (Some _) parser' | Break (Some _) parser' => (tokens_left parser' <= bound)%nat
  | _ => True
  end.

Lemma tokens_left_assign (cmd : nat) (f : Command.t -> Command.t) (parser : Parser.t) :
  tokens_left (assign cmd f parser) = tokens_left parser.
Proof. reflexivity. Qed.

Lemma tokens_left_variable_operand parser op op' parser' :
  parse_variable_operand parser op = Some (op', parser') ->
  (tokens_left parser' <= tokens_left parser)%nat.
Proof.
  unfold parse_variable_operand; intros Hp.
  destruct (_ || _); [discriminate|].
  destruct (parse_variable _); [|discriminate].
  injection Hp as _ <-; apply tokens_left_advance_le.
Qed.

Lemma tokens_left_var_or_imm parser op op' flag parser' :
  parse_var_or_imm parser op = Some (op', flag, parser') ->
  (tokens_left parser' <= tokens_left parser)%nat.
Proof.
  unfold parse_var_or_imm; intros Hp.
  destruct (_ && _).
  - destruct (parse_variable_operand parser op) as [[o q]|] eqn:Hv; [|discriminate].
    injection Hp as _ _ <-; eapply tokens_left_variable_operand; eassumption.
  - destruct (bool_decide _); [|discriminate].
    destruct (parse_im parser op); [|discriminate].
    injection Hp as _ _ <-; apply tokens_left_advance_le.
Qed.

Lemma consumed_variable_into get set cmd parser k bound :
  (forall parser', (tokens_left parser' <= tokens_left parser)%nat ->
                   consumed_to bound (k parser')) ->
  consumed_to bound (variable_into get set cmd parser k).
Proof.
  intros Hk; unfold variable_into.
  destruct (parse_variable_operand _ _) as [[op parser']|] eqn:Hv; [|exact I].
  apply Hk; rewrite tokens_left_assign.
  eapply tokens_left_variable_operand; eassumption.
Qed.

Lemma consumed_var_or_imm_into get set set_flag cmd parser k bound :
  (forall parser', (tokens_left parser' <= tokens_left parser)%nat ->
                   consumed_to bound (k parser')) ->
  consumed_to bound (var_or_imm_into get set set_flag cmd parser k).
Proof.
  intros Hk; unfold var_or_imm_into.
  destruct (parse_var_or_imm _ _) as [[[op flag] parser']|] eqn:Hv; [|exact I].
  apply Hk; rewrite !tokens_left_assign.
  eapply tokens_left_var_or_imm; eassumption.
Qed.

Lemma consumed_im_into_val_a cmd parser k bound :
  (forall parser', (tokens_left parser' <= tokens_left parser)%nat ->
                   consumed_to bound (k parser')) ->
  consumed_to bound (im_into_val_a cmd parser k).
Proof.
  intros Hk; unfold im_into_val_a.
  destruct (parse_im _ _); [|exact I].
  apply Hk.
  etransitivity; [apply tokens_left_advance_le|]; rewrite !tokens_left_assign; lia.
Qed.

Ltac consumed_steps :=
  repeat first
    [ apply consumed_variable_into; intros ? ?
    | apply consumed_var_or_imm_into; intros ? ?
    | apply consumed_im_into_val_a; intros ? ? ];
  simpl; rewrite ?tokens_left_assign; try lia.

Lemma advance_set_heap (h : store) (parser : Parser.t) :
  advance (Parser.set_heap h parser) = Parser.set_heap h (advance parser).
Proof.
  unfold advance, is_at_end; simpl.
  destruct (bool_decide _); [reflexivity|].
  destruct (lexer_next_token _); reflexivity.
Qed.

Lemma consumed_label_operand cmd h parser :
  consumed_to (tokens_left (advance parser))
    (parse_label_operand cmd (Parser.set_heap h parser)).
Proof.
  unfold parse_label_operand.
  destruct (negb _); [exact I|]; simpl.
  etransitivity; [apply tokens_left_advance_le|].
  rewrite !tokens_left_assign, advance_set_heap; reflexivity.
Qed.

Lemma tokens_left_advance_heap (h : store) (parser : Parser.t) :
  tokens_left (advance (Parser.set_heap h parser)) = tokens_left (advance parser).
Proof. rewrite advance_set_heap; reflexivity. Qed.

Ltac consumed_case :=
  intros; cbv beta delta [create_command] iota zeta;
  consumed_steps; rewrite ?tokens_left_advance_heap in *; try lia.

Lemma consumed_mov parser :
  consumed_to (tokens_left (advance parser)) (parse_mov parser).
Proof.
  unfold parse_mov; consumed_case.
  match goal with H : context [skip_nls ?p] |- _ => pose proof (tokens_left_skip_nls p) end.
  lia.
Qed.

Lemma consumed_dest_var_operand type parser :
  consumed_to (tokens_left (advance parser)) (parse_dest_var_operand type parser).
Proof. unfold parse_dest_var_operand; consumed_case. Qed.

Lemma consumed_cmp type parser :
  consumed_to (tokens_left (advance parser)) (parse_cmp type parser).
Proof. unfold parse_cmp; consumed_case. Qed.

Lemma consumed_print parser :
  consumed_to (tokens_left (advance parser)) (parse_print parser).
Proof.
  unfold parse_print; consumed_case.
  unfold parse_base; destruct (negb _); [exact I|]; simpl.
  rewrite tokens_left_assign.
  etransitivity; [apply tokens_left_advance_le|]; lia.
Qed.

Lemma consumed_bitwise type parser :
  consumed_to (tokens_left (advance parser)) (parse_bitwise type parser).
Proof. unfold parse_bitwise; consumed_case. Qed.

Lemma consumed_load parser :
  consumed_to (tokens_left (advance parser)) (parse_load parser).
Proof. unfold parse_load; consumed_case. Qed.

Lemma consumed_store parser :
  consumed_to (tokens_left (advance parser)) (parse_store parser).
Proof. unfold parse_store; consumed_case. Qed.

Lemma consumed_put parser :
  consumed_to (tokens_left (advance parser)) (parse_put parser).
Proof.
  unfold parse_put; cbv beta delta [create_command] iota zeta.
  destruct (negb _); [exact I|].
  consumed_steps.
  etransitivity; [eassumption|].
  etransitivity; [apply tokens_left_advance_le|].
  rewrite !tokens_left_assign, tokens_left_advance_heap; reflexivity.
Qed.

Lemma consumed_branch cond parser :
  consumed_to (tokens_left (advance parser)) (parse_branch cond parser).
Proof. exact (consumed_label_operand _ (alter _ _ (_ ++ _)) parser). Qed.

Lemma consumed_call parser :
  consumed_to (tokens_left (advance parser)) (parse_call parser).
Proof. exact (consumed_label_operand _ (_ ++ _) parser). Qed.

Lemma consumed_ret parser :
  consumed_to (tokens_left (advance parser)) (parse_ret parser).
Proof.
  unfold parse_ret, create_command; simpl.
  rewrite tokens_left_advance_heap; reflexivity.
Qed.

Lemma consumed_switch (parser : Parser.t) :
  consumed_to (tokens_left (advance parser)) (parse_switch parser).
Proof.
  unfold parse_switch.
  destruct (Token.type (Parser.current parser));
    [ exact I | exact I | exact I | exact I | exact I | exact I
    | exact (consumed_mov _)
    | exact (consumed_dest_var_operand _ _) | exact (consumed_dest_var_operand _ _)
    | exact (consumed_cmp _ _) | exact (consumed_cmp _ _)
    | exact (consumed_print _)
    | exact (consumed_bitwise _ _) | exact (consumed_bitwise _ _)
    | exact (consumed_bitwise _ _)
    | exact (consumed_dest_var_operand _ _) | exact (consumed_dest_var_operand _ _)
    | exact (consumed_dest_var_operand _ _)
    | exact (consumed_load _) | exact (consumed_store _) | exact (consumed_put _)
    | exact (consumed_branch _ _) | exact (consumed_branch _ _)
    | exact (consumed_branch _ _) | exact (consumed_branch _ _)
    | exact (consumed_branch _ _) | exact (consumed_branch _ _)
    | exact (consumed_branch _ _)
    | exact (consumed_call _) | exact (consumed_ret _)
    | exact I ].
Qed.

Lemma tokens_left_consume_newline (parser parser' : Parser.t) (ok : bool) :
  consume_newline parser = (ok, parser') ->
  (tokens_left parser' <= tokens_left parser)%nat.
Proof.
  unfold consume_newline, consume; intros Hc.
  pose proof (tokens_left_advance_le parser).
  repeat (destruct (decide _)); inversion Hc; subst; lia.
Qed.

Lemma parse_instruction_progress (parser parser' : Parser.t) (cmd : nat) :
  parse_instruction parser = (Some cmd, parser') ->
  (tokens_left parser' < tokens_left parser)%nat.
Proof.
  unfold parse_instruction; intros Hp.
  destruct (decide _) as [|Hcur]; [discriminate|].
  assert (tokens_left (advance parser) < tokens_left parser)%nat as Hadv.
  { apply tokens_left_advance, bool_decide_eq_false; assumption. }
  pose proof (consumed_switch parser) as Hsw.
  destruct (parse_switch parser) as [result q|c q].
  - injection Hp as -> ->; simpl in Hsw; lia.
  - destruct (consume_newline q) as [ok q'] eqn:Hnl.
    apply tokens_left_consume_newline in Hnl.
    destruct ok; [|discriminate].
    injection Hp as -> ->; simpl in Hsw; lia.
Qed.

(** How [parse_cmd] unfolds. *)
Lemma parse_cmd_eq (parser : Parser.t) :
  parse_cmd parser =
  if at_label (skip_nls parser) then
    r <- parse_cmd (advance (advance (skip_nls parser))) ;;
    register_label (Parser.current (skip_nls parser)) r
  else Ret (parse_instruction (skip_nls parser)).
Proof.
  rewrite parse_cmd_equation_1.
  destruct (Logic.inspect (at_label (skip_nls parser))) as [[] Hlabel];
    simp parse_cmd; rewrite Hlabel; reflexivity.
Qed.

Lemma parse_cmd_progress (parser parser' : Parser.t) (cmd : nat) :
  parse_cmd parser = Ret (Some cmd, parser') ->
  (tokens_left parser' < tokens_left parser)%nat.
Proof.
  remember (tokens_left parser) as n eqn:Hn.
  revert parser Hn parser' cmd.
  induction n as [n IH] using lt_wf_ind; intros parser -> q c Hp.
  rewrite parse_cmd_eq in Hp.
  destruct (at_label (skip_nls parser)) eqn:Hlabel.
  - pose proof (tokens_left_label parser Hlabel) as Hlt.
    destruct (parse_cmd (advance (advance (skip_nls parser)))) as [[[l|] p2]|] eqn:Hrec;
      simpl in Hp; try discriminate.
    specialize (IH _ Hlt _ eq_refl _ _ Hrec).
    destruct (put_label _ _ _) as [[ok map]|]; simpl in Hp; [|discriminate].
    injection Hp as _ <-.
    destruct ok; simpl; unfold tokens_left in *; simpl; lia.
  - injection Hp as Hp.
    apply parse_instruction_progress in Hp.
    pose proof (tokens_left_skip_nls parser); lia.
Qed.

(** *** [parse_commands] *)

(** The loop of [parse_commands].  [head_cmd] is the local [head]; [tail_cmd] is
    the command whose [next] member [tail_ptr] points to, [None] while
    [tail_ptr] is [&head]. *)
Equations? parse_commands_loop (parser : Parser.t) (head_cmd tail_cmd : option nat)
  : outcome (option nat * Parser.t) by wf (tokens_left parser) lt :=
parse_commands_loop parser head_cmd tail_cmd
  with Logic.inspect (negb (Parser.had_error parser) && negb (is_at_end parser)) := {
  | exist _ false _ => Ret (head_cmd, parser)
  | exist _ true _ with Logic.inspect (parse_cmd parser) := {
    | exist _ (Undef why) _ => Undef why
    | exist _ (Ret (None, parser')) _ => Ret (head_cmd, parser')
    | exist _ (Ret (Some cmd, parser')) Hcmd =>
        parse_commands_loop
          (match tail_cmd with
           | None => parser'
           | Some t => assign t (Command.set_next (Some cmd)) parser'
           end)
          (match tail_cmd with
           | None => Some cmd
           | Some _ => head_cmd
           end)
          (Some cmd) } }.
Proof.
  apply parse_cmd_progress in Hcmd.
  destruct tail_cmd; rewrite ?tokens_left_assign; assumption.
Qed.

(** [parse_commands]: the head of the list, with the parser. *)
Definition parse_commands (parser : Parser.t) : outcome (option nat * Parser.t) :=
  parse_commands_loop parser None None.

(** The commands of the list that starts at [head], in order; [n] bounds
    the walk. *)
Fixpoint list_from (n : nat) (heap : store) (head : option nat) : list Command.t :=
  match n, head with
  | S n', Some c =>
      match heap !! c with
      | Some cmd => cmd :: list_from n' heap (Command.next cmd)
      | None => []
      end
  | _, _ => []
  end.

(** A token of kind [type] that is the [len] characters of the source
    text [src] from position [pos] on. *)
Definition token_at (src : string) (type : TokenType) (pos len : nat) : Token.t :=
  Token.mk type (advance_ptr src pos) len.

(** ** Vocabulary of the properties *)

Definition exactly_one_of (g e l : bool) : Prop :=
  (g = true /\ e = false /\ l = false) \/
  (g = false /\ e = true /\ l = false) \/
  (g = false /\ e = false /\ l = true).

(** The number a string of binary digits denotes. *)
Definition binary_value (bits : list ascii) : Z :=
  fold_left (fun v c => 2 * v + (if Ascii.eqb c "1" then 1 else 0)) bits 0.

Definition is_binary_digit (c : ascii) : Prop := c = "0"%char \/ c = "1"%char.

(** The digits the second loop writes for the [n] low bits, highest
    first. *)
Fixpoint low_bits (num : Z) (n : nat) : list ascii :=
  match n with
  | O => []
  | S i => (if Z.testbit num (Z.of_nat i) then "1"%char else "0"%char) :: low_bits num i
  end.

Definition wf_frame (frame : StackEntry.t) : Prop :=
  length (StackEntry.variables frame) = Z.to_nat NUM_VARIABLES.

(** The register file and every saved copy of it have 32 registers. *)
Definition wf_intr (intr : Interpreter.t) : Prop :=
  length (Interpreter.variables intr) = Z.to_nat NUM_VARIABLES /\
  Forall wf_frame (Interpreter.the_stack intr).

(** What every instruction other than CALL and RET leaves alone. *)
Definition same_frame (intr intr' : Interpreter.t) : Prop :=
  Interpreter.the_stack intr' = Interpreter.the_stack intr /\
  length (Interpreter.variables intr') = length (Interpreter.variables intr).

(** The flag with which an instruction hands [val_a], and [val_b], to
    [fetch_number_value]; [None] when it does not fetch the operand as a
    number. *)
Definition fetches_a (cmd : Command.t) : option bool :=
  match Command.type cmd with
  | CMD_MOV | CMD_PRINT | CMD_LOAD | CMD_STORE => Some (Command.is_a_immediate cmd)
  | CMD_ADD | CMD_SUB | CMD_CMP | CMD_CMP_U | CMD_AND | CMD_EOR | CMD_ORR
  | CMD_LSL | CMD_LSR | CMD_ASR => Some false
  | _ => None
  end.

Definition fetches_b (cmd : Command.t) : option bool :=
  match Command.type cmd with
  | CMD_ADD | CMD_SUB | CMD_CMP | CMD_CMP_U | CMD_LSL | CMD_LSR | CMD_ASR
  | CMD_LOAD | CMD_STORE | CMD_PUT => Some (Command.is_b_immediate cmd)
  | CMD_AND | CMD_EOR | CMD_ORR => Some false
  | _ => None
  end.

Definition in_register_file (i : Z) : Prop := 0 <= i <= 31.

(** The text after a numeric token does not go on with a digit. *)
Definition ends_number (rest : string) : Prop :=
  match rest with
  | EmptyString => True
  | String c _ => is_digit 16 c = false
  end.

(** How [parse_number] ends, from what [strtoll] read: the token is a
    number only when the digits read end where the token ends. *)
Definition whole_token (token : Token.t) (skip : nat) (parsed : Z * nat) : option Z :=
  if (Token.length token =? skip + snd parsed)%nat then Some (fst parsed) else None.

(** The token [i] places ahead in the token stream: the current token for
    0, the next one for 1, then the tokens the lexer has yet to hand out,
    and the end-of-input token after them. *)
Definition lookahead (parser : Parser.t) (i : nat) : Token.t :=
  nth i (Parser.current parser :: Parser.next parser :: Parser.lexer parser) eof_token.

(** A newline token: of kind [TOK_NL], its text a line feed. *)
Definition newline_token (token : Token.t) : Prop :=
  Token.type token = TOK_NL /\
  first_char (Token.lexeme token) = ascii_of_nat 10.

(** The number of operand tokens an instruction keyword is followed by. *)
Definition operand_count (keyword : TokenType) : nat :=
  match keyword with
  | TOK_MOV | TOK_CMP | TOK_CMP_U | TOK_PRINT | TOK_PUT => 2
  | TOK_ADD | TOK_SUB | TOK_AND | TOK_EOR | TOK_ORR
  | TOK_LSL | TOK_LSR | TOK_ASR | TOK_LOAD | TOK_STORE => 3
  | TOK_BRANCH | TOK_BRANCH_EQ | TOK_BRANCH_GE | TOK_BRANCH_GT
  | TOK_BRANCH_LE | TOK_BRANCH_LT | TOK_BRANCH_NEQ | TOK_CALL => 1
  | _ => 0
  end.

(** The parse of a command was given up with the error flag set. *)
Definition rejected (e : switch_end) : Prop :=
  exists parser', e = Return None parser' /\ Parser.had_error parser' = true.

(** The command [mov x<reg> <value>]. *)
Definition mov_command (reg value : Z) : Command.t :=
  Command.mk CMD_MOV None true false false false BRANCH_NONE
    (Operand.mk reg None zero) (Operand.mk value None zero) Operand.zero.

Section RunVocabulary.
Context `{MemStore}.

(** A point of a run: the machine and the instruction pointer. *)
Definition point : Type := Machine.t * option nat.

Definition is_call (type : CommandType) : Prop := type = CMD_CALL.
Definition is_ret (type : CommandType) : Prop := type = CMD_RET.
Definition is_plain (type : CommandType) : Prop := type <> CMD_CALL /\ type <> CMD_RET.

(** One turn of the loop of [interpret], from [p] to [p'], at a command
    whose kind satisfies [kind]. *)
Definition turn (prog : store) (kind : CommandType -> Prop) (p p' : point) : Prop :=
  exists (current : nat) (cmd : Command.t),
    snd p = Some current /\ prog !! current = Some cmd /\
    kind (Command.type cmd) /\
    Interpreter.had_error (Machine.intr (fst p)) = false /\
    step prog (fst p) current = Ret p'.

(** The runs a callee can make between being called and returning: any
    sequence of instructions other than CALL and RET and of complete
    calls, each a CALL, such a run, and a RET. *)
Inductive balanced (prog : store) : point -> point -> Prop :=
| balanced_done (p : point) : balanced prog p p
| balanced_plain (p p1 p2 : point) :
    turn prog is_plain p p1 -> balanced prog p1 p2 -> balanced prog p p2
| balanced_call (p p1 p2 p3 p4 : point) :
    turn prog is_call p p1 -> balanced prog p1 p2 -> turn prog is_ret p2 p3 ->
    balanced prog p3 p4 -> balanced prog p p4.

(** A complete call: the CALL at [p], the run of the callee up to its RET
    at [p_ret], and that RET, which leads to [p']. *)
Definition call_return (prog : store) (p p_ret p' : point) : Prop :=
  exists p1, turn prog is_call p p1 /\ balanced prog p1 p_ret /\ turn prog is_ret p_ret p'.

Definition regs (p : point) : list Z := Interpreter.variables (Machine.intr (fst p)).
Definition stack (p : point) : list StackEntry.t := Interpreter.the_stack (Machine.intr (fst p)).
Definition failed (p : point) : bool := Interpreter.had_error (Machine.intr (fst p)).

(** [n] nested CALLs followed by [n] RETs, with no other instruction in
    between. *)
Fixpoint calls_then_rets (prog : store) (n : nat) (p p' : point) : Prop :=
  match n with
  | O => p' = p
  | S n' =>
      exists p1 p2,
        turn prog is_call p p1 /\ calls_then_rets prog n' p1 p2 /\
        turn prog is_ret p2 p'
  end.

(** The registers of [m'] are those of [m] but for register [dest]. *)
Definition other_registers_kept (m m' : Machine.t) (dest : Z) : Prop :=
  length (Interpreter.variables (Machine.intr m'))
  = length (Interpreter.variables (Machine.intr m)) /\
  forall i : nat,
    i <> Z.to_nat dest ->
    nth i (Interpreter.variables (Machine.intr m')) 0
    = nth i (Interpreter.variables (Machine.intr m)) 0.

(** Everything but the registers is in [m'] as it is in [m]: the error
    flag, the label table, the condition flags, the call stack, the memory
    and the output. *)
Definition rest_kept (m m' : Machine.t) : Prop :=
  Interpreter.had_error (Machine.intr m') = Interpreter.had_error (Machine.intr m) /\
  Interpreter.label_map (Machine.intr m') = Interpreter.label_map (Machine.intr m) /\
  Interpreter.is_greater (Machine.intr m') = Interpreter.is_greater (Machine.intr m) /\
  Interpreter.is_equal (Machine.intr m') = Interpreter.is_equal (Machine.intr m) /\
  Interpreter.is_less (Machine.intr m') = Interpreter.is_less (Machine.intr m) /\
  Interpreter.the_stack (Machine.intr m') = Interpreter.the_stack (Machine.intr m) /\
  Machine.mem m' = Machine.mem m /\
  Machine.stdout m' = Machine.stdout m.

End RunVocabulary.

(** ** Example inputs *)

(** A memory store of 64 bytes. *)
Definition example_mem : MemStore := flat_mem 64.

(** A machine at the start of a run, with the given label table and
    register file. *)
Definition example_machine (map : LabelMap.t) (variables : list Z) : @Machine.t example_mem :=
  @Machine.mk example_mem
    (Interpreter.set_variables variables (interpreter_init map)) (repeat 0 64) EmptyString.

Definition fresh_machine : @Machine.t example_mem :=
  example_machine (label_map_init 16) (repeat 0 32).

Definition number_operand (n : Z) : Operand.t := Operand.mk n None zero.
Definition label_operand (label : string) : Operand.t := Operand.mk 0 (Some label) zero.
Definition base_operand (base : ascii) : Operand.t := Operand.mk 0 None base.

(** An instruction with numeric operands. *)
Definition instruction (type : CommandType) (next : option nat)
    (destination : Z) (a : Z) (a_immediate : bool) (b : Z) (b_immediate : bool) : Command.t :=
  Command.mk type next a_immediate false b_immediate false BRANCH_NONE
    (number_operand destination) (number_operand a) (number_operand b).

(** An instruction with a label. *)
Definition jump_instruction (type : CommandType) (cond : BranchCondition)
    (next : option nat) (label : string) : Command.t :=
  Command.mk type next false true false false cond
    Operand.zero (label_operand label) Operand.zero.

Definition ret_instruction (next : option nat) : Command.t :=
  Command.mk CMD_RET next false false false false BRANCH_NONE
    Operand.zero Operand.zero Operand.zero.

(** The machine after one turn of the loop at [current]. *)
Definition after_step (prog : store) (m : @Machine.t example_mem) (current : nat)
  : @Machine.t example_mem :=
  match @step example_mem prog m current with
  | Ret (m', _) => m'
  | Undef _ => m
  end.

(** The point a run reaches after [n] turns of the loop. *)
Fixpoint point_after (n : nat) (prog : store) (p : @point example_mem) : @point example_mem :=
  match n, snd p with
  | S n', Some current =>
      match @step example_mem prog (fst p) current with
      | Ret p' => point_after n' prog p'
      | Undef _ => p
      end
  | _, _ => p
  end.

(** [cmp x1 5], [add x2 x1 1], [lsl x2 x1 63], [lsr x2 x1 63], [print x1 b|x|d],
    [and x1 x40 x2], [store x32 0 8] *)
Definition cmp_example : Command.t := instruction CMD_CMP None 0 1 false 5 true.
Definition add_example : Command.t := instruction CMD_ADD None 2 1 false 1 true.
Definition add_bad_destination : Command.t := instruction CMD_ADD None 32 1 false 1 true.
Definition lsl_example : Command.t := instruction CMD_LSL None 2 1 false 63 true.
Definition lsr_example : Command.t := instruction CMD_LSR None 2 1 false 63 true.
Definition print_example (base : ascii) : Command.t :=
  Command.mk CMD_PRINT None false false false false BRANCH_NONE
    Operand.zero (number_operand 1) (base_operand base).
Definition and_bad_register : Command.t := instruction CMD_AND None 1 40 false 2 false.
Definition store_bad_register : Command.t := instruction CMD_STORE None 32 8 true 0 true.

(** Registers all 0 but [x1]. *)
Definition x1_is (v : Z) : list Z := 0 :: v :: repeat 0 30.

(** A label table with [f] at command 2 and [g] at command 6. *)
Definition table_f_g (f g : nat) : LabelMap.t :=
  match put_label (label_map_init 16) "f" f with
  | Ret (_, map) =>
      match put_label map "g" g with
      | Ret (_, map') => map'
      | Undef _ => map
      end
  | Undef _ => label_map_init 16
  end.

(** [call f; ret; f: mov x1 7; call g; mov x0 9; ret; g: mov x2 5; ret] *)
Definition nested_program : store :=
  [ jump_instruction CMD_CALL BRANCH_NONE (Some 1%nat) "f";
    ret_instruction None;
    instruction CMD_MOV (Some 3%nat) 1 7 true 0 false;
    jump_instruction CMD_CALL BRANCH_NONE (Some 4%nat) "g";
    instruction CMD_MOV (Some 5%nat) 0 9 true 0 false;
    ret_instruction None;
    instruction CMD_MOV (Some 7%nat) 2 5 true 0 false;
    ret_instruction None ].

Definition nested_start : @point example_mem :=
  (example_machine (table_f_g 2 6) (x1_is 3), Some 0%nat).

(** [call f; ret; f: call g; ret; g: ret] *)
Definition calls_rets_program : store :=
  [ jump_instruction CMD_CALL BRANCH_NONE (Some 1%nat) "f";
    ret_instruction None;
    jump_instruction CMD_CALL BRANCH_NONE (Some 3%nat) "g";
    ret_instruction None;
    ret_instruction None ].

Definition calls_rets_start : @point example_mem :=
  (example_machine (table_f_g 2 4) (x1_is 3), Some 0%nat).

(** [b .Lend] and [b end], with an empty label table *)
Definition branch_example (label : string) : Command.t :=
  jump_instruction CMD_BRANCH BRANCH_ALWAYS None label.

Definition line_feed : string := String (ascii_of_nat 10) EmptyString.

(** The tokens of [mov x0 <newline> 5 <newline>]. *)
Definition mov_source : string := "mov x0" +:+ line_feed +:+ "5" +:+ line_feed.
Definition mov_tokens : Lexer :=
  [ token_at mov_source TOK_MOV 0 3; token_at mov_source TOK_IDENT 4 2;
    token_at mov_source TOK_NL 6 1; token_at mov_source TOK_NUM 7 1;
    token_at mov_source TOK_NL 8 1 ].

(** The tokens of [add x1 x2 <newline> 5 <newline>]. *)
Definition add_source : string := "add x1 x2" +:+ line_feed +:+ "5" +:+ line_feed.
Definition add_tokens : Lexer :=
  [ token_at add_source TOK_ADD 0 3; token_at add_source TOK_IDENT 4 2;
    token_at add_source TOK_IDENT 7 2; token_at add_source TOK_NL 9 1;
    token_at add_source TOK_NUM 10 1; token_at add_source TOK_NL 11 1 ].

(** The tokens of [L: ret <newline> L: ret]. *)
Definition twice_source : string := "L: ret" +:+ line_feed +:+ "L: ret".
Definition twice_tokens : Lexer :=
  [ token_at twice_source TOK_IDENT 0 1; token_at twice_source TOK_COLON 1 1;
    token_at twice_source TOK_RET 3 3; token_at twice_source TOK_NL 6 1;
    token_at twice_source TOK_IDENT 7 1; token_at twice_source TOK_COLON 8 1;
    token_at twice_source TOK_RET 10 3 ].


(** ** Vocabulary of the further properties *)

(** [label_map_free]: the chains and the bucket array are released;
    [entries] is NULL and [capacity] 0 from then on. *)
Definition label_map_free (map : LabelMap.t) : LabelMap.t := LabelMap.mk [] 0.

(** The bucket a name hashes to in a table of [capacity] buckets. *)
Definition bucket_index (capacity : Z) (id : string) : nat :=
  Z.to_nat (hash_function id mod to_uint64 capacity).

(** A table as [label_map_init] and [put_label] build it: [capacity]
    buckets, [capacity] a positive [int], every entry in the bucket of
    its name, no name twice in a bucket. *)
Definition table_ok (table : LabelMap.t) : Prop :=
  0 < LabelMap.capacity table < 2 ^ 31 /\
  length (LabelMap.entries table) = Z.to_nat (LabelMap.capacity table) /\
  forall (h : nat) (chain : list Entry.t),
    LabelMap.entries table !! h = Some chain ->
    Forall (fun e => bucket_index (LabelMap.capacity table) (Entry.id e) = h) chain /\
    NoDup (List.map Entry.id chain).

(** [put_label] called for each pair in turn, whatever the calls
    return. *)
Fixpoint put_labels (map : LabelMap.t) (pairs : list (string * nat)) : outcome LabelMap.t :=
  match pairs with
  | [] => Ret map
  | (id, command) :: rest =>
      r <- put_label map id command ;;
      put_labels (snd r) rest
  end.

(** The command of the first pair with the name [id]. *)
Fixpoint first_registered (pairs : list (string * nat)) (id : string) : option nat :=
  match pairs with
  | [] => None
  | (id', command) :: rest =>
      if String.eqb id' id then Some command else first_registered rest id
  end.

(** The sum of the characters of a string, as [char] values. *)
Fixpoint char_sum (s : string) : Z :=
  match s with
  | EmptyString => 0
  | String c s' => char_val c + char_sum s'
  end.

(** The first [n] characters of a string. *)
Definition truncate (n : nat) (s : string) : string := String.substring 0 n s.

(** What [exec] needs of a command to stay within defined behaviour:
    the destination is a register, and a BRANCH or a CALL has its
    label. *)
Definition executable (cmd : Command.t) : Prop :=
  in_register_file (Operand.num_val (Command.destination cmd)) /\
  (Command.type cmd = CMD_BRANCH \/ Command.type cmd = CMD_CALL ->
   exists label, Operand.str_val (Command.val_a cmd) = Some label).

(** The byte counts STORE accepts. *)
Definition store_width (bytes : Z) : Prop :=
  bytes = 1 \/ bytes = 2 \/ bytes = 4 \/ bytes = 8.

(** The store gives back the bytes that were last stored at an address. *)
Definition reads_back `{MemStore} (mem' : mem_t) (src : list Z) (offset bytes : Z) : Prop :=
  mem_load mem' offset bytes = Some (firstn (Z.to_nat bytes) src).

(** The number the decimal digits [d] denote after the digits read so
    far, of value [acc]; and how many they are. *)
Fixpoint uint_value (d : Decimal.uint) (acc : Z) : Z :=
  match d with
  | Decimal.Nil => acc
  | Decimal.D0 d' => uint_value d' (acc * 10 + 0)
  | Decimal.D1 d' => uint_value d' (acc * 10 + 1)
  | Decimal.D2 d' => uint_value d' (acc * 10 + 2)
  | Decimal.D3 d' => uint_value d' (acc * 10 + 3)
  | Decimal.D4 d' => uint_value d' (acc * 10 + 4)
  | Decimal.D5 d' => uint_value d' (acc * 10 + 5)
  | Decimal.D6 d' => uint_value d' (acc * 10 + 6)
  | Decimal.D7 d' => uint_value d' (acc * 10 + 7)
  | Decimal.D8 d' => uint_value d' (acc * 10 + 8)
  | Decimal.D9 d' => uint_value d' (acc * 10 + 9)
  end.

(** A value as [strtoll] gives it back: clamped to [long long]. *)
Definition clamp_int64 (v : Z) : Z := Z.max INT64_MIN (Z.min INT64_MAX v).

(** The state of the parser while a [case] of [parse_cmd] fills in the
    command it created: the store is the one before, [heap0], and the new
    command, which is of the kind created, not linked yet and has a
    register as its destination; the label table is as before. *)
Definition building (type : CommandType) (heap0 : store) (map0 : LabelMap.t)
    (parser : Parser.t) : Prop :=
  Parser.label_map parser = map0 /\
  exists c,
    Parser.heap parser = heap0 ++ [c] /\ Command.type c = type /\
    Command.next c = None /\
    in_register_file (Operand.num_val (Command.destination c)).

(** What [parse_cmd] leaves behind when it gives no command: the store
    as before, or with the command it gave up at its end. *)
Definition abandoned (heap0 : store) (map0 : LabelMap.t) (parser : Parser.t) : Prop :=
  Parser.label_map parser = map0 /\
  (Parser.heap parser = heap0 \/ exists c, Parser.heap parser = heap0 ++ [c]).

(** What [parse_cmd] leaves behind when it gives the command [cmd]: the
    command is the next one of the store, and the only change to it. *)
Definition appended (heap0 : store) (cmd : nat) (parser : Parser.t) : Prop :=
  cmd = length heap0 /\
  exists c,
    Parser.heap parser = heap0 ++ [c] /\ Command.next c = None /\ executable c.

(** How a [case] of the [switch] of [parse_cmd] leaves the parser. *)
Definition built (type : CommandType) (heap0 : store) (map0 : LabelMap.t)
    (e : switch_end) : Prop :=
  match e with
  | Return None parser | Break None parser => abandoned heap0 map0 parser
  | Return (Some cmd) parser | Break (Some cmd) parser =>
      cmd = length heap0 /\ building type heap0 map0 parser
  end.

(** An assignment to a member of a command that changes neither its
    kind nor its link, and leaves a register as its destination. *)
Definition keeps_shape (f : Command.t -> Command.t) : Prop :=
  forall c,
    Command.type (f c) = Command.type c /\
    Command.next (f c) = Command.next c /\
    (in_register_file (Operand.num_val (Command.destination c)) ->
     in_register_file (Operand.num_val (Command.destination (f c)))).

(** How [parse_cmd] leaves the parser: with no command, or with the
    command it appended. *)
Definition parsed (heap0 : store) (map0 : LabelMap.t) (result : option nat)
    (parser : Parser.t) : Prop :=
  match result with
  | None => abandoned heap0 map0 parser
  | Some cmd => Parser.label_map parser = map0 /\ appended heap0 cmd parser
  end.

Definition switch_parsed (heap0 : store) (map0 : LabelMap.t) (e : switch_end) : Prop :=
  match e with
  | Return result parser | Break result parser => parsed heap0 map0 result parser
  end.

(** The first [n] commands of the store form the program list: each is
    executable and linked to the one after it, the last one to
    nothing. *)
Definition linked (heap : store) (n : nat) : Prop :=
  forall i, (i < n)%nat ->
    exists c,
      heap !! i = Some c /\ executable c /\
      Command.next c = (if (S i <? n)%nat then Some (S i) else None).

(** The head of a program list of [n] commands. *)
Definition head_of (n : nat) : option nat :=
  match n with O => None | S _ => Some O end.

Definition tail_of (n : nat) : option nat :=
  match n with O => None | S i => Some i end.

(** Every label of [table] was in [map0] already, or stands for one of
    the first [n] commands. *)
Definition labels_below (map0 table : LabelMap.t) (n : nat) : Prop :=
  forall id e,
    get_label table id = Ret (Some e) ->
    get_label map0 id = Ret (Some e) \/ (Entry.command e < n)%nat.

(** A program the interpreter can run without leaving the store of
    commands: the first [n] commands are executable and linked among
    themselves, and every label of the table stands for one of them. *)
Definition closed_program (prog : store) (table : LabelMap.t) (n : nat) : Prop :=
  table_ok table /\
  (forall i, (i < n)%nat ->
     exists c,
       prog !! i = Some c /\ executable c /\
       forall k, Command.next c = Some k -> (k < n)%nat) /\
  (forall id e, get_label table id = Ret (Some e) -> (Entry.command e < n)%nat).

(** An instruction pointer into the first [n] commands, or NULL. *)
Definition points_below (n : nat) (current : option nat) : Prop :=
  forall k, current = Some k -> (k < n)%nat.

(** An interpreter at work on such a program: it has the program's label
    table, and the resume points on its call stack are commands of the
    program. *)
Definition runs_in (table : LabelMap.t) (n : nat) (intr : Interpreter.t) : Prop :=
  Interpreter.label_map intr = table /\
  Forall (fun frame => points_below n (StackEntry.command frame))
         (Interpreter.the_stack intr).

(** The ways left for an instruction of such a program to leave defined
    behaviour: the overflow of STORE's addition, a LOAD that goes on
    beyond the register file, the overflow of LSL's shift. *)
Definition overflow_or_wide_load (why : ub) : Prop :=
  why = IntOverflow \/ why = RegWrite \/ why = ShiftOverflow.

(** What the operand parsers make of a token: a register name, a
    number, either of the two (with the immediate flag), a base
    letter. *)
Definition register_token (token : Token.t) : option Z :=
  if bool_decide (Token.type token = TOK_IDENT) && is_variable token
  then parse_variable token else None.

Definition number_token (token : Token.t) : option Z :=
  if bool_decide (Token.type token = TOK_NUM) then parse_number token else None.

Definition operand_token (token : Token.t) : option (Z * bool) :=
  match register_token token, number_token token with
  | Some r, _ => Some (r, false)
  | None, Some v => Some (v, true)
  | None, None => None
  end.

Definition base_token (token : Token.t) : option ascii :=
  if is_base token then Some (first_char (Token.lexeme token)) else None.

(** The text of a token. *)
Definition token_text (token : Token.t) : string :=
  strndup (Token.lexeme token) (Token.length token).

(** A token that ends a line. *)
Definition ends_line (token : Token.t) : Prop :=
  Token.type token = TOK_NL \/ Token.type token = TOK_EOF.

(** The parser [p] has read [i] tokens of a line that [parser0] was at
    the start of, and built the command [c] from them. *)
Definition reading (parser0 : Parser.t) (i : nat) (c : Command.t) (p : Parser.t) : Prop :=
  (forall j, lookahead p j = lookahead parser0 (i + j)) /\
  Parser.heap p = Parser.heap parser0 ++ [c] /\
  Parser.had_error p = Parser.had_error parser0 /\
  Parser.label_map p = Parser.label_map parser0.

(** A command with the members the parser sets. *)
Definition command_of (type : CommandType) (a_immediate a_string b_immediate : bool)
    (cond : BranchCondition) (destination val_a val_b : Operand.t) : Command.t :=
  Command.mk type None a_immediate a_string b_immediate false cond destination val_a val_b.

(** [parse_cmd] makes the command [c] of the line the parser is at: it
    returns it as the next command of the store, and changes neither the
    error flag nor the label table. *)
Definition decoded (parser : Parser.t) (c : Command.t) : Prop :=
  exists parser',
    parse_cmd parser = Ret (Some (length (Parser.heap parser)), parser') /\
    Parser.had_error parser' = Parser.had_error parser /\
    Parser.heap parser' = Parser.heap parser ++ [c] /\
    Parser.label_map parser' = Parser.label_map parser.

(** ** Further example inputs *)

(** A machine with the given memory and register file, and an empty
    label table. *)
Definition machine_with (mem : list Z) (variables : list Z) : @Machine.t example_mem :=
  @Machine.mk example_mem
    (Interpreter.set_variables variables (interpreter_init (label_map_init 16)))
    mem EmptyString.

Definition example_pairs : list (string * nat) :=
  [("f", 2%nat); ("g", 6%nat); ("f", 9%nat)].

(** The table after [f] was registered for command 2. *)
Definition table_f : LabelMap.t :=
  match put_label (label_map_init 16) "f" 2 with
  | Ret (_, table) => table
  | Undef _ => label_map_init 16
  end.

(** [store x0 INT64_MAX 8], [store x0 0 3], [store x1 0 8], [load x2 8 0],
    [load x2 1 0], [and x3 x1 x2] *)
Definition store_overflow : Command.t := instruction CMD_STORE None 0 8 true INT64_MAX true.
Definition store_three_bytes : Command.t := instruction CMD_STORE None 0 3 true 0 true.
Definition store_x1 : Command.t := instruction CMD_STORE (Some 1%nat) 1 8 true 0 true.
Definition load_x2 : Command.t := instruction CMD_LOAD None 2 8 true 0 true.
Definition load_byte : Command.t := instruction CMD_LOAD None 2 1 true 0 true.
Definition and_example : Command.t := instruction CMD_AND None 3 1 false 2 false.

(** Registers all 0 but [x1] and [x2]. *)
Definition x1_x2_are (v w : Z) : list Z := 0 :: v :: w :: repeat 0 29.

(** [mov x1 1; lsl x2 x1 63] *)
Definition shift_program : store :=
  [ instruction CMD_MOV (Some 1%nat) 1 1 true 0 false; lsl_example ].

(** The tokens of [mov x1 1 <newline> lsl x2 x1 63 <newline>]. *)
Definition shift_source : string :=
  "mov x1 1" +:+ line_feed +:+ "lsl x2 x1 63" +:+ line_feed.
Definition shift_tokens : Lexer :=
  [ token_at shift_source TOK_MOV 0 3; token_at shift_source TOK_IDENT 4 2;
    token_at shift_source TOK_NUM 7 1; token_at shift_source TOK_NL 8 1;
    token_at shift_source TOK_LSL 9 3; token_at shift_source TOK_IDENT 13 2;
    token_at shift_source TOK_IDENT 16 2; token_at shift_source TOK_NUM 19 2;
    token_at shift_source TOK_NL 21 1 ].

(** The tokens of [add x1 x2 5 <newline>]. *)
Definition add_line_source : string := "add x1 x2 5" +:+ line_feed.
Definition add_line_tokens : Lexer :=
  [ token_at add_line_source TOK_ADD 0 3; token_at add_line_source TOK_IDENT 4 2;
    token_at add_line_source TOK_IDENT 7 2; token_at add_line_source TOK_NUM 10 1;
    token_at add_line_source TOK_NL 11 1 ].

(** The tokens of [store x0 0 8 <newline>]. *)
Definition store_line_source : string := "store x0 0 8" +:+ line_feed.
Definition store_line_tokens : Lexer :=
  [ token_at store_line_source TOK_STORE 0 5; token_at store_line_source TOK_IDENT 6 2;
    token_at store_line_source TOK_NUM 9 1; token_at store_line_source TOK_NUM 11 1;
    token_at store_line_source TOK_NL 12 1 ].

(** The tokens of two empty lines, and of [L: <newline>]. *)
Definition blank_tokens : Lexer :=
  [ token_at (line_feed +:+ line_feed) TOK_NL 0 1;
    token_at (line_feed +:+ line_feed) TOK_NL 1 1 ].

Definition label_only_source : string := "L:" +:+ line_feed.
Definition label_only_label : Token.t := token_at label_only_source TOK_IDENT 0 1.
Definition label_only_colon : Token.t := token_at label_only_source TOK_COLON 1 1.
Definition label_only_rest : list Token.t := [token_at label_only_source TOK_NL 2 1].

(** * Properties *)

(** ** Machine integers *)

Lemma to_int64_range (z : Z) : in_int64 (to_int64 z).
Proof.
  unfold in_int64, to_int64, INT64_MIN, INT64_MAX.
  pose proof (Z.mod_pos_bound (z + 2 ^ 63) (2 ^ 64) eq_refl); lia.
Qed.

Lemma to_int64_small (z : Z) : in_int64 z -> to_int64 z = z.
Proof.
  unfold in_int64, to_int64, INT64_MIN, INT64_MAX; intros Hz.
  rewrite Z.mod_small by lia; lia.
Qed.

Lemma to_int64_uint64 (z : Z) : to_int64 (to_uint64 z) = to_int64 z.
Proof.
  unfold to_int64, to_uint64.
  rewrite Zplus_mod_idemp_l; reflexivity.
Qed.

Lemma to_uint64_int64 (z : Z) : to_uint64 (to_int64 z) = to_uint64 z.
Proof.
  unfold to_int64, to_uint64.
  rewrite Zminus_mod_idemp_l.
  f_equal; lia.
Qed.

Lemma to_uint64_range (z : Z) : 0 <= to_uint64 z < 2 ^ 64.
Proof. apply Z.mod_pos_bound; reflexivity. Qed.

Lemma to_int64_add (a b : Z) :
  to_int64 (to_uint64 (to_uint64 a + to_uint64 b)) = to_int64 (a + b).
Proof.
  rewrite to_int64_uint64; unfold to_int64, to_uint64.
  f_equal.
  rewrite <- (Zplus_mod_idemp_l (a mod _ + b mod _)), <- Zplus_mod.
  rewrite Zplus_mod_idemp_l; reflexivity.
Qed.

Lemma to_int64_sub (a b : Z) :
  to_int64 (to_uint64 (to_uint64 a - to_uint64 b)) = to_int64 (a - b).
Proof.
  rewrite to_int64_uint64; unfold to_int64, to_uint64.
  f_equal.
  rewrite <- (Zplus_mod_idemp_l (a mod _ - b mod _)), <- Zminus_mod.
  rewrite Zplus_mod_idemp_l; reflexivity.
Qed.

(** The signed result and the exact result agree modulo [2 ^ 64]. *)
Lemma to_int64_congruent (z : Z) : (to_int64 z - z) mod 2 ^ 64 = 0.
Proof.
  pose proof (to_uint64_int64 z) as Hz; unfold to_uint64 in Hz.
  rewrite Zminus_mod, Hz, Z.sub_diag; reflexivity.
Qed.

(** ** The interpreter *)

Section InterpreterProperties.
Context `{MemStore}.

(** *** Fetching operands *)

Lemma fetch_immediate (intr : Interpreter.t) (op : Operand.t) :
  fetch_number_value intr op true = Ret (intr, Operand.num_val op).
Proof. reflexivity. Qed.

Lemma fetch_register (intr : Interpreter.t) (op : Operand.t) :
  0 <= Operand.num_val op < NUM_VARIABLES ->
  fetch_number_value intr op false
  = Ret (intr, nth (Z.to_nat (Operand.num_val op)) (Interpreter.variables intr) 0).
Proof.
  intros Hr; unfold fetch_number_value, read_var.
  destruct (_ || _) eqn:Hout; [lia|].
  destruct (_ && _) eqn:Hin; [reflexivity|lia].
Qed.

Lemma fetch_register_out_of_range (intr : Interpreter.t) (op : Operand.t) :
  ~ 0 <= Operand.num_val op < NUM_VARIABLES ->
  fetch_number_value intr op false = Ret (Interpreter.set_had_error true intr, 0).
Proof.
  intros Hr; unfold fetch_number_value.
  destruct (_ || _) eqn:Hout; [reflexivity|lia].
Qed.

(** A fetch either leaves the interpreter as it is, or sets its error flag
    and gives 0; it never reads outside the register file. *)
Lemma fetch_cases (intr : Interpreter.t) (op : Operand.t) (is_im : bool) :
  (exists v, fetch_number_value intr op is_im = Ret (intr, v)) \/
  (is_im = false /\ ~ 0 <= Operand.num_val op < NUM_VARIABLES /\
   fetch_number_value intr op is_im = Ret (Interpreter.set_had_error true intr, 0)).
Proof.
  destruct is_im; [left; eexists; reflexivity|].
  destruct (decide (0 <= Operand.num_val op < NUM_VARIABLES)) as [Hr|Hr].
  - left; eexists; apply fetch_register, Hr.
  - right; auto using fetch_register_out_of_range.
Qed.

Lemma fetch_keeps_error (intr intr' : Interpreter.t) (op : Operand.t) (is_im : bool) (v : Z) :
  fetch_number_value intr op is_im = Ret (intr', v) ->
  Interpreter.had_error intr' = false ->
  intr' = intr.
Proof.
  intros Hf He.
  destruct (fetch_cases intr op is_im) as [[w Hw]|(_ & _ & Hw)]; rewrite Hw in Hf.
  - congruence.
  - injection Hf as <- _; discriminate.
Qed.

(** Two fetches in a row, as every binary instruction does them. *)
Lemma fetch_pair (intr intr1 intr2 : Interpreter.t) (op_a op_b : Operand.t)
    (im_a im_b : bool) (a b : Z) :
  fetch_number_value intr op_a im_a = Ret (intr1, a) ->
  fetch_number_value intr1 op_b im_b = Ret (intr2, b) ->
  Interpreter.had_error intr2 = false ->
  intr1 = intr /\ intr2 = intr.
Proof.
  intros Ha Hb He.
  pose proof (fetch_keeps_error _ _ _ _ _ Hb He) as ->.
  pose proof (fetch_keeps_error _ _ _ _ _ Ha He) as ->.
  auto.
Qed.

(** *** Leaving the loop *)

Lemma loop_stops_on_error (prog : store) (m m' : Machine.t) (current : nat)
    (current' : option nat) (fuel : nat) :
  Interpreter.had_error (Machine.intr m) = false ->
  step prog m current = Ret (m', current') ->
  Interpreter.had_error (Machine.intr m') = true ->
  interpret_loop (S fuel) prog m (Some current) = Finished m' current'.
Proof.
  intros He Hs He'; simpl; rewrite He, Hs.
  destruct fuel, current'; simpl; rewrite ?He'; reflexivity.
Qed.

Lemma loop_stops_on_null (prog : store) (m m' : Machine.t) (current : nat) (fuel : nat) :
  Interpreter.had_error (Machine.intr m) = false ->
  step prog m current = Ret (m', None) ->
  interpret_loop (S fuel) prog m (Some current) = Finished m' None.
Proof.
  intros He Hs; simpl; rewrite He, Hs.
  destruct fuel; reflexivity.
Qed.


(** *** Comparison *)


(** C3.  After a CMP or CMP_U instruction that executed without error,
    exactly one of the flags greater, equal and less is set: greater by the
    signed comparison of the two fetched operands for CMP and by the
    comparison of their unsigned reinterpretations for CMP_U, equal by
    their equality, and less as the negation of (greater or equal). *)
Theorem cmp_sets_exactly_one_flag
    (prog : store) (m m' : Machine.t) (current : nat) (next : option nat)
    (cmd : Command.t) :
  prog !! current = Some cmd ->
  Command.type cmd = CMD_CMP \/ Command.type cmd = CMD_CMP_U ->
  step prog m current = Ret (m', next) ->
  Interpreter.had_error (Machine.intr m') = false ->
  exists a b : Z,
    fetch_number_value (Machine.intr m) (Command.val_a cmd) false
      = Ret (Machine.intr m, a) /\
    fetch_number_value (Machine.intr m) (Command.val_b cmd) (Command.is_b_immediate cmd)
      = Ret (Machine.intr m, b) /\
    Interpreter.is_greater (Machine.intr m')
      = (if decide (Command.type cmd = CMD_CMP) then a >? b
         else to_uint64 a >? to_uint64 b) /\
    Interpreter.is_equal (Machine.intr m') = (a =? b) /\
    Interpreter.is_less (Machine.intr m')
      = negb (Interpreter.is_greater (Machine.intr m')
              || Interpreter.is_equal (Machine.intr m')) /\
    exactly_one_of (Interpreter.is_greater (Machine.intr m'))
                   (Interpreter.is_equal (Machine.intr m'))
                   (Interpreter.is_less (Machine.intr m')).
Proof.
  intros Hprog Htype Hstep Hok.
  unfold step in Hstep; rewrite Hprog in Hstep.
  assert (exec m cmd
          = (x <- exec_cmp (Machine.intr m) cmd ;; Ret (Machine.set_intr (fst x) m, snd x)))
    as Hexec by (unfold exec; destruct Htype as [-> | ->]; reflexivity).
  rewrite Hexec in Hstep; clear Hexec; unfold exec_cmp in Hstep.
  destruct (fetch_number_value (Machine.intr m) (Command.val_a cmd) false)
    as [[intr1 a]|] eqn:Ha; simpl in Hstep; [|discriminate].
  destruct (fetch_number_value intr1 (Command.val_b cmd) (Command.is_b_immediate cmd))
    as [[intr2 b]|] eqn:Hb; simpl in Hstep; [|discriminate].
  destruct (Interpreter.had_error intr2) eqn:Herr; simpl in Hstep.
  - rewrite Herr in Hstep; injection Hstep as <- _; simpl in Hok; congruence.
  - destruct (fetch_pair _ _ _ _ _ _ _ _ _ Ha Hb Herr) as [-> ->].
    simpl in Hstep; rewrite Herr in Hstep; injection Hstep as <- _.
    exists a, b; simpl; repeat split; try assumption.
    destruct (decide (Command.type cmd = CMD_CMP)); unfold exactly_one_of.
    + destruct (Z.gtb_spec a b), (Z.eqb_spec a b); simpl; try lia; auto.
    + destruct (Z.gtb_spec (to_uint64 a) (to_uint64 b)), (Z.eqb_spec a b);
        simpl; subst; try lia; auto.
Qed.


(** *** Addition and subtraction *)

(** What a write to register [dest] leaves behind. *)
Lemma register_written (m : Machine.t) (dest : Z) (v : Z) :
  (Z.to_nat dest < length (Interpreter.variables (Machine.intr m)))%nat ->
  let m' :=
    Machine.set_intr
      (Interpreter.set_variables
         (<[Z.to_nat dest := v]> (Interpreter.variables (Machine.intr m)))
         (Machine.intr m)) m in
  nth (Z.to_nat dest) (Interpreter.variables (Machine.intr m')) 0 = v /\
  other_registers_kept m m' dest /\
  rest_kept m m'.
Proof.
  intros Hlt m'; subst m'; simpl; split; [|split].
  - apply nth_lookup_Some, list_lookup_insert_eq, Hlt.
  - split; simpl; [apply length_insert|].
    intros i Hi; rewrite !nth_lookup, list_lookup_insert_ne by congruence; reflexivity.
  - repeat split.
Qed.

(** C4.  ADD and SUB compute in unsigned 64-bit arithmetic and store the
    result reinterpreted as signed: after the instruction the destination
    register holds the signed 64-bit integer congruent to the exact sum
    (difference) modulo 2^64, and nothing else has changed.  Adding 1 to
    0x7FFFFFFFFFFFFFFF stores the most negative value, bit pattern
    0x8000000000000000, without error.  A destination index outside 0..31
    sets the error flag and ends the run at that instruction, with the
    registers as they were. *)
Theorem add_sub_wraparound
    (prog : store) (m : Machine.t) (current : nat) (cmd : Command.t) (a b : Z) :
  prog !! current = Some cmd ->
  Command.type cmd = CMD_ADD \/ Command.type cmd = CMD_SUB ->
  Interpreter.had_error (Machine.intr m) = false ->
  length (Interpreter.variables (Machine.intr m)) = Z.to_nat NUM_VARIABLES ->
  fetch_number_value (Machine.intr m) (Command.val_a cmd) false
    = Ret (Machine.intr m, a) ->
  fetch_number_value (Machine.intr m) (Command.val_b cmd) (Command.is_b_immediate cmd)
    = Ret (Machine.intr m, b) ->
  let dest := Operand.num_val (Command.destination cmd) in
  let is_add := bool_decide (Command.type cmd = CMD_ADD) in
  let exact := if is_add then a + b else a - b in
  let unsigned_result :=
    if is_add then to_uint64 (to_uint64 a + to_uint64 b)
    else to_uint64 (to_uint64 a - to_uint64 b) in
  let result := to_int64 unsigned_result in
  (in_int64 result /\ (result - exact) mod 2 ^ 64 = 0) /\
  (0 <= dest <= 31 ->
   exists m',
     step prog m current = Ret (m', Command.next cmd) /\
     nth (Z.to_nat dest) (Interpreter.variables (Machine.intr m')) 0 = result /\
     other_registers_kept m m' dest /\
     rest_kept m m') /\
  (is_add = true -> to_uint64 a = 0x7FFFFFFFFFFFFFFF -> to_uint64 b = 1 ->
   result = INT64_MIN /\ to_uint64 result = 0x8000000000000000) /\
  (~ 0 <= dest <= 31 ->
   exists m',
     (forall fuel,
        interpret_loop (S fuel) prog m (Some current) = Finished m' (Some current)) /\
     Interpreter.had_error (Machine.intr m') = true /\
     Interpreter.variables (Machine.intr m') = Interpreter.variables (Machine.intr m)).
Proof.
  intros Hprog Htype Herr Hlen Ha Hb dest is_add exact unsigned_result result.
  assert (Hexec : exec m cmd
          = (x <- exec_add_sub (Machine.intr m) cmd ;;
             Ret (Machine.set_intr (fst x) m, snd x)))
    by (unfold exec; destruct Htype as [-> | ->]; reflexivity).
  assert (Hres : result = to_int64 exact).
  { unfold result, unsigned_result, exact; destruct is_add;
      [apply to_int64_add | apply to_int64_sub]. }
  assert (Hbody : exec_add_sub (Machine.intr m) cmd
          = if (dest <? 0) || (dest >=? NUM_VARIABLES) then
              Ret (Interpreter.set_had_error true (Machine.intr m), Fallthrough)
            else
              vars <- write_var (Interpreter.variables (Machine.intr m)) dest result ;;
              Ret (Interpreter.set_variables vars (Machine.intr m), Fallthrough)).
  { unfold exec_add_sub; rewrite Ha; simpl; rewrite Hb; simpl; rewrite Herr.
    unfold result, unsigned_result, is_add.
    destruct (decide (Command.type cmd = CMD_ADD)) as [Hadd|Hadd];
      [rewrite (bool_decide_eq_true_2 _ Hadd) | rewrite (bool_decide_eq_false_2 _ Hadd)];
      reflexivity. }
  split; [|split; [|split]].
  - split; rewrite Hres; [apply to_int64_range | apply to_int64_congruent].
  - intros Hdest.
    assert (Hstep : step prog m current
            = Ret (Machine.set_intr
                     (Interpreter.set_variables
                        (<[Z.to_nat dest := result]> (Interpreter.variables (Machine.intr m)))
                        (Machine.intr m)) m,
                   Command.next cmd)).
    { unfold step; rewrite Hprog, Hexec, Hbody.
      destruct (_ || _) eqn:Hout; [unfold NUM_VARIABLES in Hout; lia|].
      unfold write_var, NUM_VARIABLES.
      destruct (_ && _) eqn:Hin; [|lia].
      simpl; rewrite Herr; reflexivity. }
    eexists; split; [exact Hstep|].
    apply (register_written m dest result).
    rewrite Hlen; unfold NUM_VARIABLES; lia.
  - intros Hadd Hua Hub.
    unfold result, unsigned_result; rewrite Hadd, Hua, Hub; split; reflexivity.
  - intros Hdest.
    exists (Machine.set_intr (Interpreter.set_had_error true (Machine.intr m)) m).
    split; [|split; reflexivity].
    intros fuel; apply loop_stops_on_error; [assumption| |reflexivity].
    unfold step; rewrite Hprog, Hexec, Hbody.
    destruct (_ || _) eqn:Hout; [|unfold NUM_VARIABLES in Hout; lia].
    reflexivity.
Qed.


(** *** Shifts *)

Lemma testbit_to_uint64 (z i : Z) :
  0 <= i -> Z.testbit (to_uint64 z) i = (i <? 64) && Z.testbit z i.
Proof.
  intros Hi; unfold to_uint64.
  destruct (Z.ltb_spec i 64); simpl.
  - apply Z.mod_pow2_bits_low; lia.
  - apply Z.mod_pow2_bits_high; lia.
Qed.

Lemma testbit_to_int64 (z i : Z) :
  0 <= i < 64 -> Z.testbit (to_int64 z) i = Z.testbit z i.
Proof.
  intros Hi.
  pose proof (testbit_to_uint64 (to_int64 z) i) as H1.
  pose proof (testbit_to_uint64 z i) as H2.
  rewrite to_uint64_int64 in H1.
  destruct (Z.ltb_spec i 64); [|lia].
  simpl in H1, H2; rewrite <- H1, H2 by lia; reflexivity.
Qed.

(** From bit 63 on, the bits of a signed 64-bit value repeat its sign. *)
Lemma testbit_sign (a j : Z) :
  in_int64 a -> 63 <= j -> Z.testbit a j = (a <? 0).
Proof.
  unfold in_int64, INT64_MIN, INT64_MAX; intros Ha Hj.
  destruct (Z.ltb_spec a 0) as [Hneg|Hpos].
  - apply Z.bits_above_log2_neg; [assumption|].
    destruct (Z.eq_dec (Z.pred (- a)) 0) as [->|Hnz]; [simpl; lia|].
    assert (Z.log2 (Z.pred (- a)) < 63) by (apply Z.log2_lt_pow2; lia).
    lia.
  - destruct (Z.eq_dec a 0) as [->|Hnz]; [apply Z.bits_0|].
    apply Z.bits_above_log2; [assumption|].
    assert (Z.log2 a < 63) by (apply Z.log2_lt_pow2; lia).
    lia.
Qed.

Lemma shiftr_in_int64 (a b : Z) : in_int64 a -> 0 <= b -> in_int64 (Z.shiftr a b).
Proof.
  unfold in_int64, INT64_MIN, INT64_MAX; intros Ha Hb.
  rewrite Z.shiftr_div_pow2 by assumption.
  assert (0 < 2 ^ b) by (apply Z.pow_pos_nonneg; lia).
  split.
  - apply Z.div_le_lower_bound; [assumption|nia].
  - apply Z.div_le_upper_bound; [assumption|nia].
Qed.

(** [a * 2^b] is an [int64_t]: its bits are those of [a], moved up. *)
Lemma shiftl_in_int64 (a b : Z) :
  0 <= b -> 0 <= a -> Z.shiftl a b <= INT64_MAX -> in_int64 (Z.shiftl a b).
Proof.
  intros Hb Ha Hmax; unfold in_int64, INT64_MIN; split; [|assumption].
  rewrite Z.shiftl_mul_pow2 by assumption.
  assert (0 < 2 ^ b) by (apply Z.pow_pos_nonneg; lia).
  nia.
Qed.

(** C5.  For LSL, LSR and ASR the fetched shift amount must lie in 0..63:
    any amount outside the range, -1 and 64 among them, sets the error
    flag and ends the run at the instruction, with the registers as they
    were.  Within the range, 63 included, LSR leaves in the destination
    register the bits of the first operand moved down and filled with
    zeros, and ASR the bits moved down and filled with copies of the sign
    bit.  LSL leaves there [a * 2^b], the bits moved up and filled with
    zeros, when [a] is not negative and [a * 2^b] is a signed 64-bit
    value; for any other [a] and [b] the C expression [a << b] leaves
    defined behaviour. *)
Theorem shift_amount_checked
    (prog : store) (m : Machine.t) (current : nat) (cmd : Command.t) (a b : Z) :
  prog !! current = Some cmd ->
  Command.type cmd = CMD_LSL \/ Command.type cmd = CMD_LSR \/ Command.type cmd = CMD_ASR ->
  Interpreter.had_error (Machine.intr m) = false ->
  length (Interpreter.variables (Machine.intr m)) = Z.to_nat NUM_VARIABLES ->
  0 <= Operand.num_val (Command.destination cmd) < NUM_VARIABLES ->
  fetch_number_value (Machine.intr m) (Command.val_a cmd) false
    = Ret (Machine.intr m, a) ->
  fetch_number_value (Machine.intr m) (Command.val_b cmd) (Command.is_b_immediate cmd)
    = Ret (Machine.intr m, b) ->
  in_int64 a ->
  let dest := Operand.num_val (Command.destination cmd) in
  let left_shift_overflows :=
    Command.type cmd = CMD_LSL /\ (a < 0 \/ INT64_MAX < a * 2 ^ b) in
  (b < 0 \/ 63 < b ->
   exists m',
     (forall fuel,
        interpret_loop (S fuel) prog m (Some current) = Finished m' (Some current)) /\
     Interpreter.had_error (Machine.intr m') = true /\
     Interpreter.variables (Machine.intr m') = Interpreter.variables (Machine.intr m)) /\
  (0 <= b <= 63 -> ~ left_shift_overflows ->
   exists m',
     step prog m current = Ret (m', Command.next cmd) /\
     other_registers_kept m m' dest /\
     rest_kept m m' /\
     let result := nth (Z.to_nat dest) (Interpreter.variables (Machine.intr m')) 0 in
     in_int64 result /\
     (Command.type cmd = CMD_LSL -> result = a * 2 ^ b) /\
     forall i, 0 <= i < 64 ->
       Z.testbit result i =
       match Command.type cmd with
       | CMD_LSL => (b <=? i) && Z.testbit a (i - b)
       | CMD_LSR => (i + b <? 64) && Z.testbit a (i + b)
       | _ => Z.testbit a (Z.min (i + b) 63)
       end) /\
  (0 <= b <= 63 -> left_shift_overflows ->
   step prog m current = Undef ShiftOverflow).
Proof.
  intros Hprog Htype Herr Hlen Hdest Ha Hb Hrange dest overflows.
  assert (Hexec : exec m cmd
          = (x <- exec_shift (Machine.intr m) cmd ;;
             Ret (Machine.set_intr (fst x) m, snd x)))
    by (unfold exec; destruct Htype as [-> | [-> | ->]]; reflexivity).
  assert (Hstep : step prog m current
          = (x <- exec_shift (Machine.intr m) cmd ;;
             let m' := Machine.set_intr (fst x) m in
             match snd x with
             | JumpTo target => Ret (m', target)
             | Fallthrough =>
                 if Interpreter.had_error (fst x) then Ret (m', Some current)
                 else Ret (m', Command.next cmd)
             end)).
  { unfold step; rewrite Hprog, Hexec.
    destruct (exec_shift _ _) as [[i j]|]; reflexivity. }
  unfold exec_shift in Hstep; rewrite Ha in Hstep; simpl in Hstep.
  rewrite Hb in Hstep; simpl in Hstep; rewrite Herr in Hstep.
  assert (Hwritten : forall result : Z,
            step prog m current
            = Ret (Machine.set_intr
                     (Interpreter.set_variables
                        (<[Z.to_nat dest := result]> (Interpreter.variables (Machine.intr m)))
                        (Machine.intr m)) m,
                   Command.next cmd) ->
            in_int64 result ->
            (Command.type cmd = CMD_LSL -> result = a * 2 ^ b) ->
            (forall i, 0 <= i < 64 ->
               Z.testbit result i =
               match Command.type cmd with
               | CMD_LSL => (b <=? i) && Z.testbit a (i - b)
               | CMD_LSR => (i + b <? 64) && Z.testbit a (i + b)
               | _ => Z.testbit a (Z.min (i + b) 63)
               end) ->
            exists m',
              step prog m current = Ret (m', Command.next cmd) /\
              other_registers_kept m m' dest /\
              rest_kept m m' /\
              let result := nth (Z.to_nat dest) (Interpreter.variables (Machine.intr m')) 0 in
              in_int64 result /\
              (Command.type cmd = CMD_LSL -> result = a * 2 ^ b) /\
              forall i, 0 <= i < 64 ->
                Z.testbit result i =
                match Command.type cmd with
                | CMD_LSL => (b <=? i) && Z.testbit a (i - b)
                | CMD_LSR => (i + b <? 64) && Z.testbit a (i + b)
                | _ => Z.testbit a (Z.min (i + b) 63)
                end).
  { intros result Hs Hin Hmul Hbits.
    destruct (register_written m dest result) as (Hnth & Hothers & Hrest).
    { rewrite Hlen; unfold dest; lia. }
    eexists; split; [exact Hs|].
    split; [exact Hothers|split; [exact Hrest|]].
    cbv zeta; rewrite Hnth; auto. }
  split; [|split].
  - intros Hout.
    exists (Machine.set_intr (Interpreter.set_had_error true (Machine.intr m)) m).
    split; [|split; reflexivity].
    intros fuel; apply loop_stops_on_error; [assumption| |reflexivity].
    rewrite Hstep.
    destruct (_ || _) eqn:Hchk; [reflexivity|lia].
  - intros Hin Hdefined.
    destruct (_ || _) eqn:Hchk in Hstep; [lia|].
    unfold write_var in Hstep.
    destruct Htype as [Ht | [Ht | Ht]]; rewrite Ht in Hstep; simpl in Hstep.
    + assert (0 <= a /\ a * 2 ^ b <= INT64_MAX) as [Hpos Hmax].
      { split.
        - destruct (Z.lt_ge_cases a 0); [|assumption].
          exfalso; apply Hdefined; split; [exact Ht|left; assumption].
        - destruct (Z.lt_ge_cases INT64_MAX (a * 2 ^ b)); [|assumption].
          exfalso; apply Hdefined; split; [exact Ht|right; assumption]. }
      rewrite <- Z.shiftl_mul_pow2 in Hmax by lia.
      destruct (_ || _) eqn:Hover in Hstep; [lia|]; simpl in Hstep.
      destruct (_ && _) eqn:Hd in Hstep; [|lia].
      simpl in Hstep; rewrite Herr in Hstep.
      apply (Hwritten _ Hstep).
      * apply shiftl_in_int64; lia.
      * intros _; apply Z.shiftl_mul_pow2; lia.
      * intros i Hi; rewrite Ht, Z.shiftl_spec by lia.
        destruct (Z.leb_spec b i); simpl; [reflexivity|].
        apply Z.testbit_neg_r; lia.
    + destruct (_ && _) eqn:Hd in Hstep; [|lia].
      simpl in Hstep; rewrite Herr in Hstep.
      apply (Hwritten _ Hstep).
      * apply to_int64_range.
      * rewrite Ht; discriminate.
      * intros i Hi; rewrite Ht.
        rewrite testbit_to_int64, Z.shiftr_spec, testbit_to_uint64 by lia.
        reflexivity.
    + destruct (_ && _) eqn:Hd in Hstep; [|lia].
      simpl in Hstep; rewrite Herr in Hstep.
      apply (Hwritten _ Hstep).
      * apply shiftr_in_int64; [assumption|lia].
      * rewrite Ht; discriminate.
      * intros i Hi; rewrite Ht, Z.shiftr_spec by lia.
        destruct (Z.le_ge_cases (i + b) 63).
        -- rewrite Z.min_l by assumption; reflexivity.
        -- rewrite Z.min_r by assumption.
           rewrite !testbit_sign by (assumption || lia); reflexivity.
  - intros Hin [Ht Hover].
    destruct (_ || _) eqn:Hchk in Hstep; [lia|].
    rewrite Ht in Hstep; simpl in Hstep.
    rewrite <- Z.shiftl_mul_pow2 in Hover by lia.
    destruct (_ || _) eqn:Hover' in Hstep; [exact Hstep|lia].
Qed.


(** *** Printing *)



Lemma bit_set_testbit (num : Z) (i : nat) : bit_set num i = Z.testbit num (Z.of_nat i).
Proof.
  unfold bit_set.
  assert (Z.land num (Z.shiftl 1 (Z.of_nat i))
          = if Z.testbit num (Z.of_nat i) then 2 ^ Z.of_nat i else 0) as ->.
  { rewrite Z.shiftl_1_l; apply Z.bits_inj'; intros j Hj.
    rewrite Z.land_spec, Z.pow2_bits_eqb by lia.
    destruct (Z.eqb_spec (Z.of_nat i) j) as [<-|Hne].
    - rewrite andb_true_r; destruct (Z.testbit num (Z.of_nat i)) eqn:Hb.
      + rewrite Z.pow2_bits_true by lia; reflexivity.
      + rewrite Z.bits_0; reflexivity.
    - rewrite andb_false_r; destruct (Z.testbit num (Z.of_nat i)).
      + rewrite Z.pow2_bits_false by assumption; reflexivity.
      + rewrite Z.bits_0; reflexivity. }
  destruct (Z.testbit num (Z.of_nat i)); [|reflexivity].
  assert (0 < 2 ^ Z.of_nat i) by (apply Z.pow_pos_nonneg; lia).
  destruct (Z.eqb_spec (2 ^ Z.of_nat i) 0); [lia|reflexivity].
Qed.

(** The loop that looks for the highest set bit stops at it. *)
Lemma highest_bit_loop_spec (num : Z) (n : nat) :
  0 < num < 2 ^ Z.of_nat n ->
  exists h : nat,
    highest_bit_loop num n = S h /\ (h < n)%nat /\
    Z.testbit num (Z.of_nat h) = true /\ num < 2 ^ Z.of_nat (S h).
Proof.
  induction n as [|n IH]; intros Hnum; [simpl in Hnum; lia|].
  simpl highest_bit_loop; rewrite bit_set_testbit.
  destruct (Z.testbit num (Z.of_nat n)) eqn:Hbit.
  - exists n; repeat split; [lia|assumption|lia].
  - destruct IH as (h & Hh & Hlt & Hb & Hub).
    + split; [lia|].
      rewrite Nat2Z.inj_succ, Z.pow_succ_r in Hnum by lia.
      pose proof (Z.testbit_spec' num (Z.of_nat n) ltac:(lia)) as Hspec.
      rewrite Hbit in Hspec; simpl in Hspec.
      assert (0 < 2 ^ Z.of_nat n) by (apply Z.pow_pos_nonneg; lia).
      pose proof (Z.div_lt_upper_bound num (2 ^ Z.of_nat n) 2 ltac:(lia) ltac:(lia)).
      pose proof (Z.div_pos num (2 ^ Z.of_nat n) ltac:(lia) ltac:(lia)).
      assert (num / 2 ^ Z.of_nat n = 0) as Hq.
      { pose proof (Z.mod_small (num / 2 ^ Z.of_nat n) 2 ltac:(lia)); lia. }
      apply Z.div_small_iff in Hq; lia.
    + exists h; repeat split; [assumption|lia|assumption|assumption].
Qed.


Lemma length_low_bits (num : Z) (n : nat) : length (low_bits num n) = n.
Proof. induction n; simpl; congruence. Qed.

Lemma size_minus_one_pos (size : nat) :
  (0 < size)%nat -> size_minus_one size = Z.of_nat (size - 1).
Proof.
  intros Hs; unfold size_minus_one.
  destruct (Nat.eqb_spec size 0); lia.
Qed.

Lemma emit_bits_spec (num : Z) (n : nat) (written : list ascii) (size : nat) :
  (length written + n < size)%nat ->
  emit_bits num n written size = written ++ low_bits num n.
Proof.
  revert written; induction n as [|i IH]; intros written Hlen; simpl.
  - rewrite app_nil_r; reflexivity.
  - rewrite size_minus_one_pos by lia.
    destruct (Z.leb_spec (Z.of_nat (size - 1)) (Z.of_nat (length written))); [lia|].
    rewrite IH by (rewrite length_app; simpl; lia).
    rewrite bit_set_testbit, <- app_assoc; reflexivity.
Qed.

Lemma low_bits_value (num : Z) (n : nat) (v : Z) :
  fold_left (fun v c => 2 * v + (if Ascii.eqb c "1" then 1 else 0)) (low_bits num n) v
  = v * 2 ^ Z.of_nat n + num mod 2 ^ Z.of_nat n.
Proof.
  revert v; induction n as [|i IH]; intros v.
  - simpl; rewrite Z.mod_1_r; lia.
  - simpl low_bits; simpl fold_left; rewrite IH.
    rewrite Nat2Z.inj_succ, Z.pow_succ_r by lia.
    assert (0 < 2 ^ Z.of_nat i) by (apply Z.pow_pos_nonneg; lia).
    rewrite (Z.mul_comm 2 (2 ^ Z.of_nat i)), Z.rem_mul_r by lia.
    rewrite <- Z.testbit_spec' by lia.
    destruct (Z.testbit num (Z.of_nat i)); simpl; lia.
Qed.

Lemma low_bits_binary (num : Z) (n : nat) : Forall is_binary_digit (low_bits num n).
Proof.
  induction n as [|i IH]; simpl; constructor; [|assumption].
  destruct (Z.testbit _ _); [right|left]; reflexivity.
Qed.

(** [to_binary_string] writes [0b] and then the shortest string of binary
    digits that denotes the number. *)
Lemma to_binary_string_spec (num : Z) :
  0 <= num < 2 ^ 64 ->
  exists bits : list ascii,
    to_binary_string num 67 = string_of_list_ascii ("0"%char :: "b"%char :: bits) /\
    Forall is_binary_digit bits /\
    binary_value bits = num /\
    (num = 0 -> bits = ["0"%char]) /\
    (num <> 0 -> exists rest, bits = "1"%char :: rest).
Proof.
  intros Hnum; unfold to_binary_string.
  destruct (Z.eqb_spec num 0) as [->|Hnz].
  - exists ["0"%char]; repeat split; try reflexivity.
    + repeat constructor.
    + intros Hz; contradiction.
  - destruct (highest_bit_loop_spec num 64) as (h & -> & Hh & Hbit & Hub); [simpl; lia|].
    rewrite emit_bits_spec by (simpl; lia).
    exists (low_bits num (S h)); repeat split.
    + apply low_bits_binary.
    + unfold binary_value; rewrite low_bits_value, Z.mod_small by lia; lia.
    + intros Hz; contradiction.
    + intros _; simpl; rewrite Hbit; eexists; reflexivity.
Qed.


(** Read back as a signed decimal numeral, the text of [%PRId64] is the
    value printed. *)
Lemma format_PRId64_reads_back (value : Z) :
  option_map Z.of_int (DecimalString.NilZero.int_of_string (format_PRId64 value))
  = Some value.
Proof.
  unfold format_PRId64.
  rewrite DecimalString.NilZero.isi.
  - simpl; f_equal; apply DecimalZ.of_to.
  - destruct value; simpl; try discriminate.
    intros [= Hp]; exact (DecimalPos.Unsigned.to_uint_nonnil _ Hp).
  - destruct value; simpl; try discriminate.
    intros [= Hp]; exact (DecimalPos.Unsigned.to_uint_nonnil _ Hp).
Qed.

(** Read back as a numeral of the digits 0-9 and a-f, the text of
    [%PRIx64] is the value printed. *)
Lemma format_PRIx64_reads_back (value : Z) :
  0 <= value ->
  option_map (fun d => Z.of_N (N.of_hex_uint d))
    (HexadecimalString.NilZero.uint_of_string (format_PRIx64 value))
  = Some value.
Proof.
  intros Hv; unfold format_PRIx64.
  destruct (HexadecimalString.NilZero.usu_gen (N.to_hex_uint (Z.to_N value))) as [-> | Hz].
  - simpl; rewrite HexadecimalN.Unsigned.of_to, Z2N.id by assumption; reflexivity.
  - destruct (Z.to_N value) eqn:Hn.
    + simpl; f_equal; lia.
    + exfalso; simpl in Hz.
      pose proof (HexadecimalPos.Unsigned.to_uint_nonnil p) as Hnn.
      rewrite HexadecimalString.NilZero.usu in Hz by assumption.
      injection Hz as Hz.
      exact (HexadecimalPos.Unsigned.to_uint_nonzero p Hz).
Qed.

(** C6.  PRINT appends to the output the fetched value followed by a
    newline, and changes nothing else: for base [d] the value as a signed
    decimal numeral; for base [b] [0b] and the shortest binary numeral of
    the unsigned reinterpretation, so 0 prints [0b0]; for base [x] [0x]
    and the lower-case hexadecimal numeral of the unsigned
    reinterpretation, so -1 prints [0xffffffffffffffff]. *)
Theorem print_formats
    (prog : store) (m : Machine.t) (current : nat) (cmd : Command.t) (value : Z) :
  prog !! current = Some cmd ->
  Command.type cmd = CMD_PRINT ->
  Interpreter.had_error (Machine.intr m) = false ->
  fetch_number_value (Machine.intr m) (Command.val_a cmd) (Command.is_a_immediate cmd)
    = Ret (Machine.intr m, value) ->
  let base := Operand.base (Command.val_b cmd) in
  let prints (text : string) :=
    exists m',
      step prog m current = Ret (m', Command.next cmd) /\
      Machine.stdout m' = Machine.stdout m +:+ text +:+ newline /\
      Machine.intr m' = Machine.intr m /\
      Machine.mem m' = Machine.mem m in
  (base = "d"%char ->
   prints (format_PRId64 value) /\
   option_map Z.of_int (DecimalString.NilZero.int_of_string (format_PRId64 value))
   = Some value) /\
  (base = "b"%char ->
   exists bits : list ascii,
     prints (string_of_list_ascii ("0"%char :: "b"%char :: bits)) /\
     Forall is_binary_digit bits /\
     binary_value bits = to_uint64 value /\
     (value = 0 -> bits = ["0"%char]) /\
     (to_uint64 value <> 0 -> exists rest, bits = "1"%char :: rest)) /\
  (base = "x"%char ->
   prints ("0x" +:+ format_PRIx64 (to_uint64 value)) /\
   option_map (fun d => Z.of_N (N.of_hex_uint d))
     (HexadecimalString.NilZero.uint_of_string (format_PRIx64 (to_uint64 value)))
   = Some (to_uint64 value) /\
   (value = -1 -> "0x" +:+ format_PRIx64 (to_uint64 value) = "0xffffffffffffffff")).
Proof.
  intros Hprog Htype Herr Hfetch base prints.
  assert (Hmid : Machine.set_intr (Machine.intr m) m = m) by (destruct m; reflexivity).
  assert (Hstep : forall text,
            print_base m cmd = Ret (true, Machine.printf (text +:+ newline) m) ->
            prints text).
  { intros text Hp; exists (Machine.printf (text +:+ newline) m).
    split; [|repeat split].
    unfold step, exec.
    rewrite Hprog, Htype, Hp; simpl; rewrite Herr; reflexivity. }
  assert (Hbody : forall text : string,
            (if Ascii.eqb base "d" then
               Ret (true, Machine.printf (format_PRId64 value +:+ newline) m)
             else if Ascii.eqb base "b" then
               Ret (true, Machine.printf
                            (to_binary_string (to_uint64 value) 67 +:+ newline) m)
             else if Ascii.eqb base "x" then
               Ret (true, Machine.printf
                            ("0x" +:+ format_PRIx64 (to_uint64 value) +:+ newline) m)
             else Undef NullDeref)
            = Ret (true, Machine.printf (text +:+ newline) m) ->
            prints text).
  { intros text Htext; apply Hstep.
    unfold print_base; rewrite Hfetch; simpl; rewrite Herr, Hmid; fold base.
    repeat (destruct (Ascii.eqb base _); [exact Htext|]); discriminate. }
  split; [|split].
  - intros Hd; split; [|apply format_PRId64_reads_back].
    apply Hbody; rewrite Hd; reflexivity.
  - intros Hb.
    destruct (to_binary_string_spec (to_uint64 value) (to_uint64_range value))
      as (bits & Htext & Hdigits & Hval & Hzero & Hlead).
    exists bits; repeat split; try assumption.
    + apply Hbody; rewrite Hb, Htext; reflexivity.
    + intros ->; apply Hzero; reflexivity.
  - intros Hx; repeat split.
    + apply Hbody; rewrite Hx; reflexivity.
    + apply format_PRIx64_reads_back, to_uint64_range.
    + intros ->; reflexivity.
Qed.


(** *** Branches *)

Lemma prefix_local_label (label : string) :
  String.prefix ".L" label = true <-> exists rest, label = ".L" +:+ rest.
Proof.
  rewrite String.prefix_correct; split.
  - intros Hp; destruct label as [|a [|b rest]]; try discriminate.
    cbn in Hp; injection Hp as -> -> _.
    exists rest; reflexivity.
  - intros [rest ->]; cbn.
    destruct rest; reflexivity.
Qed.

(** C2.  A BRANCH whose condition holds and whose label is not in the
    label table ends the run normally, with a null instruction pointer and
    no error, when the label begins with [.L]; for any other label it sets
    the error flag and the run stops at the BRANCH, which is not advanced
    over.  A BRANCH whose condition does not hold goes on to the next
    instruction in program order. *)
Theorem branch_unresolved_label
    (prog : store) (m : Machine.t) (current : nat) (cmd : Command.t) :
  prog !! current = Some cmd ->
  Command.type cmd = CMD_BRANCH ->
  Interpreter.had_error (Machine.intr m) = false ->
  (cond_holds (Machine.intr m) (Command.branch_condition cmd) = false ->
   step prog m current = Ret (m, Command.next cmd)) /\
  (forall label : string,
     cond_holds (Machine.intr m) (Command.branch_condition cmd) = true ->
     Operand.str_val (Command.val_a cmd) = Some label ->
     get_label (Interpreter.label_map (Machine.intr m)) label = Ret None ->
     ((exists rest, label = ".L" +:+ rest) ->
      forall fuel, interpret_loop (S fuel) prog m (Some current) = Finished m None) /\
     (~ (exists rest, label = ".L" +:+ rest) ->
      exists m',
        (forall fuel,
           interpret_loop (S fuel) prog m (Some current) = Finished m' (Some current)) /\
        Interpreter.had_error (Machine.intr m') = true /\
        Interpreter.variables (Machine.intr m')
        = Interpreter.variables (Machine.intr m))).
Proof.
  intros Hprog Htype Herr; split.
  - intros Hcond; unfold step, exec, exec_branch.
    rewrite Hprog, Htype, Hcond; reflexivity.
  - intros label Hcond Hlabel Habsent.
    assert (Hexec : exec m cmd
            = if String.prefix ".L" label then Ret (m, JumpTo None)
              else
                Ret (Machine.printf ("Label not found: " +:+ label +:+ newline)
                       (Machine.set_intr
                          (Interpreter.set_had_error true (Machine.intr m)) m),
                     Fallthrough)).
    { unfold exec, exec_branch; rewrite Htype, Hcond, Hlabel, Habsent; reflexivity. }
    split.
    + intros Hlocal fuel; apply prefix_local_label in Hlocal.
      apply loop_stops_on_null; [assumption|].
      unfold step; rewrite Hprog, Hexec, Hlocal; reflexivity.
    + intros Hother.
      destruct (String.prefix ".L" label) eqn:Hpre;
        [exfalso; apply Hother, prefix_local_label, Hpre|].
      exists (Machine.printf ("Label not found: " +:+ label +:+ newline)
                (Machine.set_intr (Interpreter.set_had_error true (Machine.intr m)) m)).
      split; [|split; reflexivity].
      intros fuel; apply loop_stops_on_error; [assumption| |reflexivity].
      unfold step; rewrite Hprog, Hexec; reflexivity.
Qed.


(** *** The shape of the register file and of the call stack *)




Lemma same_frame_refl intr : same_frame intr intr.
Proof. split; reflexivity. Qed.

Lemma same_frame_wf intr intr' : same_frame intr intr' -> wf_intr intr -> wf_intr intr'.
Proof. intros [Hs Hl] [Hv Hf]; split; congruence. Qed.

Lemma length_bytes_regs (n : nat) (bs : list Z) : length (bytes_regs n bs) = n.
Proof. revert bs; induction n; intros bs; simpl; congruence. Qed.

Ltac exec_cases H :=
  repeat match type of H with
  | context [fetch_number_value ?i ?o ?b] =>
      let Hf := fresh "Hfetch" in
      destruct (fetch_cases i o b) as [[? Hf]|(_ & _ & Hf)];
      rewrite Hf in H; cbn [bind fst snd] in H
  | context [if ?c then _ else _] => destruct c eqn:?; cbn [bind fst snd] in H
  | context [match ?c with _ => _ end] => destruct c eqn:?; cbn [bind fst snd] in H
  | context [bind ?c _] => destruct c eqn:?; cbn [bind fst snd] in H
  end;
  try discriminate.

Ltac same_frame_done H :=
  inversion H; subst; split; simpl;
  rewrite ?length_insert, ?length_bytes_regs; reflexivity.

Lemma exec_same_frame (m m' : Machine.t) (cmd : Command.t) (j : jump) :
  Command.type cmd <> CMD_CALL ->
  Command.type cmd <> CMD_RET ->
  exec m cmd = Ret (m', j) ->
  same_frame (Machine.intr m) (Machine.intr m').
Proof.
  intros Hcall Hret Hexec; unfold exec in Hexec.
  destruct (Command.type cmd) eqn:Htype; try congruence; clear Hcall Hret.
  - unfold exec_mov, write_var in Hexec; exec_cases Hexec; same_frame_done Hexec.
  - unfold exec_add_sub, write_var in Hexec; exec_cases Hexec; same_frame_done Hexec.
  - unfold exec_add_sub, write_var in Hexec; exec_cases Hexec; same_frame_done Hexec.
  - unfold exec_cmp in Hexec; exec_cases Hexec; same_frame_done Hexec.
  - unfold exec_cmp in Hexec; exec_cases Hexec; same_frame_done Hexec.
  - unfold print_base in Hexec; exec_cases Hexec; same_frame_done Hexec.
  - unfold exec_bitwise, write_var in Hexec; exec_cases Hexec; same_frame_done Hexec.
  - unfold exec_bitwise, write_var in Hexec; exec_cases Hexec; same_frame_done Hexec.
  - unfold exec_bitwise, write_var in Hexec; exec_cases Hexec; same_frame_done Hexec.
  - unfold exec_shift, write_var in Hexec; exec_cases Hexec; same_frame_done Hexec.
  - unfold exec_shift, write_var in Hexec; exec_cases Hexec; same_frame_done Hexec.
  - unfold exec_shift, write_var in Hexec; exec_cases Hexec; same_frame_done Hexec.
  - unfold exec_load, write_var, write_var_bytes in Hexec; exec_cases Hexec;
      same_frame_done Hexec.
  - unfold exec_store, read_var in Hexec; exec_cases Hexec; same_frame_done Hexec.
  - unfold exec_put in Hexec; exec_cases Hexec; same_frame_done Hexec.
  - unfold exec_branch in Hexec; exec_cases Hexec; same_frame_done Hexec.
  - same_frame_done Hexec.
Qed.


Lemma step_plain_same_frame (prog : store) (m m' : Machine.t) (current : nat)
    (next : option nat) (cmd : Command.t) :
  prog !! current = Some cmd ->
  Command.type cmd <> CMD_CALL ->
  Command.type cmd <> CMD_RET ->
  step prog m current = Ret (m', next) ->
  same_frame (Machine.intr m) (Machine.intr m').
Proof.
  intros Hprog Hcall Hret Hstep; unfold step in Hstep; rewrite Hprog in Hstep.
  destruct (exec m cmd) as [[m1 j]|] eqn:Hexec; [|discriminate].
  apply exec_same_frame in Hexec; [|assumption..].
  cbn [bind] in Hstep.
  destruct j; [destruct (Interpreter.had_error _)|]; inversion Hstep; subst; assumption.
Qed.

(** *** Calls and returns *)

Lemma step_call (prog : store) (m : Machine.t) (current : nat) (cmd : Command.t)
    (label : string) (target : Entry.t) :
  prog !! current = Some cmd ->
  Command.type cmd = CMD_CALL ->
  Operand.str_val (Command.val_a cmd) = Some label ->
  get_label (Interpreter.label_map (Machine.intr m)) label = Ret (Some target) ->
  step prog m current
  = Ret (Machine.set_intr
           (Interpreter.set_the_stack
              (StackEntry.mk (Interpreter.variables (Machine.intr m)) (Command.next cmd)
               :: Interpreter.the_stack (Machine.intr m))
              (Machine.intr m)) m,
         Some (Entry.command target)).
Proof.
  intros Hprog Htype Hlabel Hget; unfold step, exec, exec_call.
  rewrite Hprog, Htype, Hlabel, Hget; reflexivity.
Qed.

Lemma step_call_unresolved (prog : store) (m : Machine.t) (current : nat)
    (cmd : Command.t) (label : string) :
  prog !! current = Some cmd ->
  Command.type cmd = CMD_CALL ->
  Operand.str_val (Command.val_a cmd) = Some label ->
  get_label (Interpreter.label_map (Machine.intr m)) label = Ret None ->
  step prog m current
  = Ret (Machine.printf ("Label not found: " +:+ label +:+ newline)
           (Machine.set_intr (Interpreter.set_had_error true (Machine.intr m)) m),
         Some current).
Proof.
  intros Hprog Htype Hlabel Hget; unfold step, exec, exec_call.
  rewrite Hprog, Htype, Hlabel, Hget; reflexivity.
Qed.

Lemma step_ret (prog : store) (m : Machine.t) (current : nat) (cmd : Command.t)
    (frame : StackEntry.t) (rest : list StackEntry.t) :
  prog !! current = Some cmd ->
  Command.type cmd = CMD_RET ->
  Interpreter.the_stack (Machine.intr m) = frame :: rest ->
  step prog m current
  = Ret (Machine.set_intr
           (Interpreter.set_variables
              (restore_variables (Interpreter.variables (Machine.intr m))
                 (StackEntry.variables frame))
              (Interpreter.set_the_stack rest (Machine.intr m))) m,
         StackEntry.command frame).
Proof.
  intros Hprog Htype Hstack; unfold step, exec, exec_ret.
  rewrite Hprog, Htype, Hstack; reflexivity.
Qed.

Lemma step_ret_empty (prog : store) (m : Machine.t) (current : nat) (cmd : Command.t) :
  prog !! current = Some cmd ->
  Command.type cmd = CMD_RET ->
  Interpreter.the_stack (Machine.intr m) = [] ->
  step prog m current = Ret (m, None).
Proof.
  intros Hprog Htype Hstack; unfold step, exec, exec_ret.
  rewrite Hprog, Htype, Hstack; destruct m; reflexivity.
Qed.

(** [restore_variables] keeps register 0 and takes registers 1..31 from
    the saved copy. *)
Lemma restore_variables_spec (variables saved : list Z) :
  variables <> [] ->
  nth 0 (restore_variables variables saved) 0 = nth 0 variables 0 /\
  (forall i, (1 <= i)%nat -> nth i (restore_variables variables saved) 0 = nth i saved 0) /\
  (saved <> [] -> length (restore_variables variables saved) = length saved).
Proof.
  unfold restore_variables; destruct variables as [|v0 rest]; [congruence|]; intros _.
  repeat split.
  - intros [|i] Hi; [lia|]; simpl; destruct saved; [destruct i|]; reflexivity.
  - destruct saved; [congruence|]; reflexivity.
Qed.



Lemma balanced_failed (prog : store) (p p' : point) :
  balanced prog p p' -> failed p = true -> p' = p.
Proof.
  unfold failed; intros Hb Hf.
  destruct Hb as [p|p p1 p2 (c & cmd & _ & _ & _ & He & _) _
                 |p p1 p2 p3 p4 (c & cmd & _ & _ & _ & He & _) _ _ _];
    [reflexivity|congruence|congruence].
Qed.

Lemma turn_call_inv (prog : store) (p p1 : point) :
  turn prog is_call p p1 ->
  failed p1 = true \/
  exists current cmd,
    snd p = Some current /\ prog !! current = Some cmd /\
    regs p1 = regs p /\
    stack p1 = StackEntry.mk (regs p) (Command.next cmd) :: stack p.
Proof.
  intros (current & cmd & Hcur & Hprog & Hkind & Herr & Hstep).
  unfold is_call in Hkind; unfold step, exec, exec_call in Hstep.
  rewrite Hprog, Hkind in Hstep.
  destruct (Operand.str_val (Command.val_a cmd)) as [label|]; [|discriminate].
  destruct (get_label _ label) as [[target|]|]; cbn [bind] in Hstep; try discriminate.
  - right; exists current, cmd; inversion Hstep; subst; auto.
  - left; inversion Hstep; subst; reflexivity.
Qed.

Lemma turn_ret_inv (prog : store) (p p' : point) (frame : StackEntry.t)
    (rest : list StackEntry.t) :
  turn prog is_ret p p' ->
  stack p = frame :: rest ->
  stack p' = rest /\
  regs p' = restore_variables (regs p) (StackEntry.variables frame) /\
  snd p' = StackEntry.command frame.
Proof.
  intros (current & cmd & Hcur & Hprog & Hkind & Herr & Hstep) Hstack.
  rewrite (step_ret _ _ _ _ _ _ Hprog Hkind Hstack) in Hstep.
  inversion Hstep; subst; auto.
Qed.

Lemma wf_restore (variables saved : list Z) :
  length variables = Z.to_nat NUM_VARIABLES ->
  length saved = Z.to_nat NUM_VARIABLES ->
  length (restore_variables variables saved) = Z.to_nat NUM_VARIABLES.
Proof.
  intros Hv Hs.
  destruct (restore_variables_spec variables saved) as (_ & _ & Hlen).
  - destruct variables; [discriminate|congruence].
  - rewrite Hlen; [assumption|destruct saved; [discriminate|congruence]].
Qed.

(** A balanced run leaves the call stack as it found it. *)
Lemma balanced_keeps_stack (prog : store) (p p' : point) :
  balanced prog p p' ->
  wf_intr (Machine.intr (fst p)) ->
  stack p' = stack p /\ wf_intr (Machine.intr (fst p')).
Proof.
  induction 1 as [p|p p1 p2 Hturn _ IH|p p1 p2 p3 p4 Hcall Hbody IH1 Hret _ IH2];
    intros Hwf.
  - auto.
  - destruct Hturn as (c & cmd & Hcur & Hprog & [Hnc Hnr] & Herr & Hstep).
    destruct p1 as [m1 c1].
    pose proof (step_plain_same_frame _ _ _ _ _ _ Hprog Hnc Hnr Hstep) as Hsame.
    destruct (IH (same_frame_wf _ _ Hsame Hwf)) as [Hs Hw].
    split; [|assumption].
    rewrite Hs; apply Hsame.
  - destruct (turn_call_inv _ _ _ Hcall) as [Hfail|(c & cmd & Hcur & Hprog & Hregs & Hpush)].
    + pose proof (balanced_failed _ _ _ Hbody Hfail) as ->.
      destruct Hret as (c & cmd & _ & _ & _ & Herr & _).
      unfold failed in Hfail; congruence.
    + destruct Hwf as [Hlen Hframes].
      assert (wf_intr (Machine.intr (fst p1))) as Hwf1.
      { split; [unfold regs in Hregs; congruence|].
        unfold stack in Hpush; rewrite Hpush; constructor; assumption. }
      destruct (IH1 Hwf1) as [Hs2 [Hlen2 Hframes2]].
      rewrite Hpush in Hs2.
      destruct (turn_ret_inv _ _ _ _ _ Hret Hs2) as (Hs3 & Hr3 & _).
      assert (wf_intr (Machine.intr (fst p3))) as Hwf3.
      { split.
        - unfold regs in Hr3; rewrite Hr3; apply wf_restore; assumption.
        - unfold stack in Hs3; rewrite Hs3; assumption. }
      destruct (IH2 Hwf3) as [Hs4 Hwf4].
      split; [congruence|assumption].
Qed.



Lemma calls_then_rets_balanced (prog : store) (n : nat) (p p' : point) :
  calls_then_rets prog n p p' -> balanced prog p p'.
Proof.
  revert p p'; induction n as [|n IH]; intros p p'; simpl.
  - intros ->; constructor.
  - intros (p1 & p2 & Hcall & Hnest & Hret).
    eapply balanced_call; [exact Hcall|apply IH, Hnest|exact Hret|constructor].
Qed.

Lemma interpreter_init_wf (map : LabelMap.t) : wf_intr (interpreter_init map).
Proof. split; [reflexivity|constructor]. Qed.

(** Every instruction keeps the register file and the saved copies at 32
    registers. *)
Lemma step_preserves_wf (prog : store) (m m' : Machine.t) (current : nat)
    (next : option nat) :
  wf_intr (Machine.intr m) ->
  step prog m current = Ret (m', next) ->
  wf_intr (Machine.intr m').
Proof.
  intros Hwf Hstep.
  destruct (prog !! current) as [cmd|] eqn:Hprog;
    [|unfold step in Hstep; rewrite Hprog in Hstep; discriminate].
  destruct (decide (Command.type cmd = CMD_CALL)) as [Hcall|Hncall].
  - unfold step, exec, exec_call in Hstep; rewrite Hprog, Hcall in Hstep.
    destruct (Operand.str_val _); [|discriminate].
    destruct (get_label _ _) as [[target|]|]; cbn [bind] in Hstep; try discriminate;
      inversion Hstep; subst; destruct Hwf as [Hlen Hframes]; split; simpl;
      try assumption.
    constructor; assumption.
  - destruct (decide (Command.type cmd = CMD_RET)) as [Hret|Hnret].
    + destruct (Interpreter.the_stack (Machine.intr m)) as [|frame rest] eqn:Hstack.
      * rewrite (step_ret_empty _ _ _ _ Hprog Hret Hstack) in Hstep.
        inversion Hstep; subst; assumption.
      * rewrite (step_ret _ _ _ _ _ _ Hprog Hret Hstack) in Hstep.
        inversion Hstep; subst; destruct Hwf as [Hlen Hframes].
        rewrite Hstack in Hframes; inversion Hframes; subst.
        split; simpl; [apply wf_restore|]; assumption.
    + eapply same_frame_wf; [|exact Hwf].
      eapply step_plain_same_frame; eassumption.
Qed.

(** C1.  CALL looks its label up: when the label is unknown the error flag
    is set and the run ends at the CALL; otherwise a frame holding a copy
    of all 32 registers and the instruction after the CALL is pushed and
    control goes to the target of the label.  RET on a non-empty call stack
    pops the top frame, takes registers 1..31 from it, leaves register 0 as
    it is and resumes at the instruction saved in the frame; RET on an
    empty call stack ends the run normally, with a null instruction
    pointer.  Hence across a complete call (the CALL, whatever the callee
    runs, nested complete calls included, and the matching RET), and so
    across N nested CALLs followed by N RETs, registers 1..31 are back at
    their values before the CALL, register 0 is as the callee left it, the
    call stack is as before and execution resumes after the CALL. *)
Theorem call_ret_frame_discipline (prog : store) :
  (forall (m : Machine.t) (current : nat) (cmd : Command.t) (label : string),
     prog !! current = Some cmd ->
     Command.type cmd = CMD_CALL ->
     Interpreter.had_error (Machine.intr m) = false ->
     Operand.str_val (Command.val_a cmd) = Some label ->
     (get_label (Interpreter.label_map (Machine.intr m)) label = Ret None ->
      exists m',
        (forall fuel,
           interpret_loop (S fuel) prog m (Some current) = Finished m' (Some current)) /\
        Interpreter.had_error (Machine.intr m') = true) /\
     (forall target,
        get_label (Interpreter.label_map (Machine.intr m)) label = Ret (Some target) ->
        step prog m current
        = Ret (Machine.set_intr
                 (Interpreter.set_the_stack
                    (StackEntry.mk (Interpreter.variables (Machine.intr m))
                       (Command.next cmd)
                     :: Interpreter.the_stack (Machine.intr m))
                    (Machine.intr m)) m,
               Some (Entry.command target)))) /\
  (forall (m : Machine.t) (current : nat) (cmd : Command.t),
     prog !! current = Some cmd ->
     Command.type cmd = CMD_RET ->
     Interpreter.had_error (Machine.intr m) = false ->
     wf_intr (Machine.intr m) ->
     (Interpreter.the_stack (Machine.intr m) = [] ->
      forall fuel, interpret_loop (S fuel) prog m (Some current) = Finished m None) /\
     (forall frame rest,
        Interpreter.the_stack (Machine.intr m) = frame :: rest ->
        exists m',
          step prog m current = Ret (m', StackEntry.command frame) /\
          Interpreter.the_stack (Machine.intr m') = rest /\
          Interpreter.had_error (Machine.intr m') = false /\
          nth 0 (Interpreter.variables (Machine.intr m')) 0
          = nth 0 (Interpreter.variables (Machine.intr m)) 0 /\
          forall i, (1 <= i <= 31)%nat ->
            nth i (Interpreter.variables (Machine.intr m')) 0
            = nth i (StackEntry.variables frame) 0)) /\
  (forall (p p_ret p' : point) (current : nat) (cmd : Command.t),
     wf_intr (Machine.intr (fst p)) ->
     snd p = Some current ->
     prog !! current = Some cmd ->
     call_return prog p p_ret p' ->
     (forall i, (1 <= i <= 31)%nat -> nth i (regs p') 0 = nth i (regs p) 0) /\
     nth 0 (regs p') 0 = nth 0 (regs p_ret) 0 /\
     stack p' = stack p /\
     snd p' = Command.next cmd) /\
  (forall (n : nat) (p p' : point),
     wf_intr (Machine.intr (fst p)) ->
     calls_then_rets prog n p p' ->
     forall i, (1 <= i <= 31)%nat -> nth i (regs p') 0 = nth i (regs p) 0).
Proof.
  assert (Hcomplete :
    forall (p p_ret p' : point) (current : nat) (cmd : Command.t),
      wf_intr (Machine.intr (fst p)) ->
      snd p = Some current ->
      prog !! current = Some cmd ->
      call_return prog p p_ret p' ->
      (forall i, (1 <= i <= 31)%nat -> nth i (regs p') 0 = nth i (regs p) 0) /\
      nth 0 (regs p') 0 = nth 0 (regs p_ret) 0 /\
      stack p' = stack p /\
      snd p' = Command.next cmd).
  { intros p p_ret p' current cmd Hwf Hcur Hprog (p1 & Hcall & Hbody & Hret).
    destruct (turn_call_inv _ _ _ Hcall)
      as [Hfail|(c & cmd' & Hcur' & Hprog' & Hregs & Hpush)].
    { pose proof (balanced_failed _ _ _ Hbody Hfail) as ->.
      destruct Hret as (c & cmd' & _ & _ & _ & Herr & _).
      unfold failed in Hfail; congruence. }
    assert (c = current) as -> by congruence.
    assert (cmd' = cmd) as -> by congruence.
    destruct Hwf as [Hlen Hframes].
    assert (wf_intr (Machine.intr (fst p1))) as Hwf1.
    { split; [unfold regs in Hregs; congruence|].
      unfold stack in Hpush; rewrite Hpush; constructor; assumption. }
    destruct (balanced_keeps_stack _ _ _ Hbody Hwf1) as [Hstack [Hlen' _]].
    rewrite Hpush in Hstack.
    destruct (turn_ret_inv _ _ _ _ _ Hret Hstack) as (Hs & Hr & Hc).
    destruct (restore_variables_spec (regs p_ret) (regs p)) as (H0 & Hi & _).
    { unfold regs; intros Hnil; rewrite Hnil in Hlen'; discriminate. }
    simpl in Hr, Hc; rewrite Hr.
    repeat split; try assumption.
    intros i [Hi1 _]; apply Hi, Hi1. }
  split; [|split; [|split]].
  - intros m current cmd label Hprog Htype Herr Hlabel; split.
    + intros Hget; eexists; split.
      * intros fuel; apply loop_stops_on_error;
          [assumption|eapply step_call_unresolved; eassumption|reflexivity].
      * reflexivity.
    + intros target Hget; eapply step_call; eassumption.
  - intros m current cmd Hprog Htype Herr [Hlen _]; split.
    + intros Hstack fuel; apply loop_stops_on_null; [assumption|].
      eapply step_ret_empty; eassumption.
    + intros frame rest Hstack.
      destruct (restore_variables_spec (Interpreter.variables (Machine.intr m))
                  (StackEntry.variables frame)) as (H0 & Hi & _).
      { intros Hnil; rewrite Hnil in Hlen; discriminate. }
      eexists; split; [eapply step_ret; eassumption|].
      simpl; repeat split; try assumption.
      intros i [Hi1 _]; apply Hi, Hi1.
  - exact Hcomplete.
  - intros n p p' Hwf Hnest.
    destruct n as [|n]; [simpl in Hnest; subst; reflexivity|].
    simpl in Hnest; destruct Hnest as (p1 & p2 & Hcall & Hinner & Hret).
    assert (call_return prog p p2 p') as Hcr.
    { exists p1; repeat split; try assumption.
      eapply calls_then_rets_balanced; eassumption. }
    destruct Hcall as (c & cmd & Hcur & Hprog & Hrest).
    apply (Hcomplete p p2 p' c cmd Hwf Hcur Hprog Hcr).
Qed.


(** *** Register reads *)


Lemma get_label_undef (map : LabelMap.t) (id : string) (why : ub) :
  get_label map id = Undef why -> why = BadBucket.
Proof.
  unfold get_label, bucket_of; intros Hg.
  destruct (_ =? _); [inversion Hg; reflexivity|].
  destruct (_ !! _); cbn [bind] in Hg; inversion Hg; reflexivity.
Qed.

Lemma fetch_out (intr : Interpreter.t) (op : Operand.t) :
  ~ in_register_file (Operand.num_val op) ->
  fetch_number_value intr op false = Ret (Interpreter.set_had_error true intr, 0).
Proof.
  intros Hout; apply fetch_register_out_of_range.
  unfold in_register_file, NUM_VARIABLES in *; lia.
Qed.

Ltac exec_cases_bad Hbad H :=
  cbn [bind fst snd] in H;
  repeat first
    [ rewrite (fetch_out _ _ Hbad) in H; cbn [bind fst snd] in H
    | match type of H with
      | context [fetch_number_value ?i ?o ?b] =>
          let Hf := fresh "Hfetch" in
          destruct (fetch_cases i o b) as [[? Hf]|(_ & _ & Hf)];
          rewrite Hf in H; cbn [bind fst snd] in H
      | context [if ?c then _ else _] => destruct c eqn:?; cbn [bind fst snd] in H
      | context [match ?c with _ => _ end] => destruct c eqn:?; cbn [bind fst snd] in H
      | context [bind ?c _] => destruct c eqn:?; cbn [bind fst snd] in H
      end ];
  try discriminate;
  try (inversion H; subst; simpl in *; congruence).

(** Every instruction that fetches [val_a] or [val_b] as a register with an
    index outside 0..31 ends with the error flag set. *)
Lemma exec_bad_register (m m' : Machine.t) (cmd : Command.t) (j : jump) :
  (fetches_a cmd = Some false /\ ~ in_register_file (Operand.num_val (Command.val_a cmd))) \/
  (fetches_b cmd = Some false /\ ~ in_register_file (Operand.num_val (Command.val_b cmd))) ->
  exec m cmd = Ret (m', j) ->
  Interpreter.had_error (Machine.intr m') = true.
Proof.
  unfold fetches_a, fetches_b, exec.
  intros [[Hflag Hbad]|[Hflag Hbad]] Hexec;
    destruct (Command.type cmd) eqn:Htype; try discriminate;
    try (injection Hflag as Hflag);
    unfold exec_mov, exec_add_sub, exec_cmp, exec_bitwise, exec_shift, exec_load,
      exec_store, exec_put, print_base, write_var, read_var, write_var_bytes in Hexec;
    rewrite ?Hflag in Hexec;
    exec_cases_bad Hbad Hexec.
Qed.


Ltac exec_cases_undef H :=
  cbn [bind fst snd] in H;
  repeat match type of H with
  | context [fetch_number_value ?i ?o ?b] =>
      let Hf := fresh "Hfetch" in
      destruct (fetch_cases i o b) as [[? Hf]|(_ & _ & Hf)];
      rewrite Hf in H; cbn [bind fst snd] in H
  | context [get_label ?map ?id] =>
      let Hg := fresh "Hget" in
      destruct (get_label map id) eqn:Hg;
      [|apply get_label_undef in Hg; subst]; cbn [bind fst snd] in H
  | context [if ?c then _ else _] => destruct c eqn:?; cbn [bind fst snd] in H
  | context [match ?c with _ => _ end] => destruct c eqn:?; cbn [bind fst snd] in H
  end;
  try discriminate.

(** The only read of the register file outside its bounds that an
    instruction can make is STORE's read of its source register. *)
Lemma exec_reg_read_undef (m : Machine.t) (cmd : Command.t) :
  exec m cmd = Undef RegRead ->
  Command.type cmd = CMD_STORE /\
  ~ in_register_file (Operand.num_val (Command.destination cmd)).
Proof.
  unfold exec; intros Hexec.
  destruct (Command.type cmd) eqn:Htype;
    unfold exec_mov, exec_add_sub, exec_cmp, exec_bitwise, exec_shift, exec_load,
      exec_put, exec_branch, exec_call, exec_ret, print_base, write_var,
      write_var_bytes in Hexec;
    try (exec_cases_undef Hexec; fail).
  split; [reflexivity|].
  unfold exec_store, read_var in Hexec; exec_cases_undef Hexec;
    unfold in_register_file, NUM_VARIABLES in *; lia.
Qed.

End InterpreterProperties.

(** ** The label table *)

Lemma find_entry_id (chain : list Entry.t) (id : string) (e : Entry.t) :
  find_entry chain id = Some e -> Entry.id e = id.
Proof.
  induction chain as [|e' rest IH]; simpl; [discriminate|].
  destruct (String.eqb_spec (Entry.id e') id) as [Heq|Hne]; [|exact IH].
  intros [= <-]; exact Heq.
Qed.

(** A name that is in the table cannot be registered again: [put_label]
    fails and leaves the table as it is. *)
Lemma put_label_present (map : LabelMap.t) (id : string) (command : nat) (e : Entry.t) :
  get_label map id = Ret (Some e) ->
  put_label map id command = Ret (false, map).
Proof.
  unfold get_label, put_label; intros Hget.
  destruct (bucket_of map id) as [[hash chain]|]; cbn [bind snd] in *; [|discriminate].
  injection Hget as ->; reflexivity.
Qed.

(** A registered name is found, with the command it was registered for. *)
Lemma get_label_put (map map' : LabelMap.t) (id : string) (command : nat) :
  put_label map id command = Ret (true, map') ->
  get_label map' id = Ret (Some (Entry.mk id command)).
Proof.
  unfold get_label, put_label, bucket_of; intros Hput.
  destruct (to_uint64 (LabelMap.capacity map) =? 0) eqn:Hcap; [discriminate|].
  destruct (LabelMap.entries map !! _) as [chain|] eqn:Hchain;
    cbn [bind] in Hput; [|discriminate].
  destruct (find_entry chain id); [discriminate|].
  injection Hput as <-; simpl; rewrite Hcap.
  rewrite list_lookup_insert_eq by (eapply lookup_lt_Some; eassumption).
  cbn [bind snd]; simpl; rewrite String.eqb_refl; reflexivity.
Qed.

(** ** Numeric literals *)

Lemma read_digits_stop (base : Z) (rest : string) (acc : Z) :
  match rest with
  | EmptyString => True
  | String c _ => is_digit base c = false
  end ->
  read_digits base rest acc = (acc, O).
Proof.
  destruct rest as [|c rest]; [reflexivity|]; simpl; unfold is_digit.
  destruct (digit_value c); [|reflexivity].
  intros ->; reflexivity.
Qed.


Lemma ends_number_base (base : Z) (rest : string) :
  base <= 16 -> ends_number rest ->
  match rest with
  | EmptyString => True
  | String c _ => is_digit base c = false
  end.
Proof.
  destruct rest as [|c rest]; [trivial|]; unfold ends_number, is_digit.
  destruct (digit_value c) as [d|]; [|reflexivity].
  intros Hb Hd; apply Z.ltb_ge in Hd; apply Z.ltb_ge; lia.
Qed.


Lemma parse_number_hex (token : Token.t) (digits : string) :
  (3 <= Token.length token)%nat ->
  Token.lexeme token = "0x" +:+ digits ->
  parse_number token = whole_token token 2 (strtoll digits 16).
Proof.
  intros Hlen Hlex; unfold parse_number, whole_token; rewrite Hlex.
  assert ((2 <? Token.length token)%nat = true) as -> by (apply Nat.ltb_lt; lia).
  change ("0x" +:+ digits) with (String "0" (String "x" digits)).
  cbn [first_char advance_ptr].
  change (Ascii.eqb "0" "0") with true; change (Ascii.eqb "x" "x") with true.
  cbn [andb advance_ptr].
  destruct (strtoll digits 16); reflexivity.
Qed.

Lemma parse_number_binary (token : Token.t) (digits : string) :
  (3 <= Token.length token)%nat ->
  Token.lexeme token = "0b" +:+ digits ->
  parse_number token = whole_token token 2 (strtoll digits 2).
Proof.
  intros Hlen Hlex; unfold parse_number, whole_token; rewrite Hlex.
  assert ((2 <? Token.length token)%nat = true) as -> by (apply Nat.ltb_lt; lia).
  change ("0b" +:+ digits) with (String "0" (String "b" digits)).
  cbn [first_char advance_ptr].
  change (Ascii.eqb "0" "0") with true; change (Ascii.eqb "b" "x") with false;
    change (Ascii.eqb "b" "b") with true.
  cbn [andb advance_ptr].
  destruct (strtoll digits 2); reflexivity.
Qed.

Lemma parse_number_decimal (token : Token.t) :
  ~ ((3 <= Token.length token)%nat /\
     exists digits, Token.lexeme token = "0x" +:+ digits \/
                    Token.lexeme token = "0b" +:+ digits) ->
  parse_number token = whole_token token 0 (strtoll (Token.lexeme token) 10).
Proof.
  intros Hplain; unfold parse_number, whole_token.
  assert (Hdone : forall s : string,
            (let '(result, consumed) := strtoll (advance_ptr s 0) 10 in
             if (Token.length token =? 0 + consumed)%nat then Some result else None)
            = if (Token.length token =? 0 + snd (strtoll s 10))%nat
              then Some (fst (strtoll s 10)) else None).
  { intros s; cbn [advance_ptr]; destruct (strtoll s 10); reflexivity. }
  destruct (Nat.ltb_spec 2 (Token.length token)) as [Hlen|Hlen]; cbn [andb];
    [|apply Hdone].
  destruct (Ascii.eqb_spec (first_char (Token.lexeme token)) "0") as [H0|H0];
    [|apply Hdone].
  destruct (Ascii.eqb_spec (first_char (advance_ptr (Token.lexeme token) 1)) "x")
    as [Hx|Hx].
  { exfalso; apply Hplain; split; [lia|].
    destruct (Token.lexeme token) as [|c0 [|c1 digits]]; try discriminate.
    cbn in H0, Hx; subst; exists digits; left; reflexivity. }
  destruct (Ascii.eqb_spec (first_char (advance_ptr (Token.lexeme token) 1)) "b")
    as [Hb|Hb]; [|apply Hdone].
  exfalso; apply Hplain; split; [lia|].
  destruct (Token.lexeme token) as [|c0 [|c1 digits]]; try discriminate.
  cbn in H0, Hb; subst; exists digits; right; reflexivity.
Qed.

(** The claim that [0x1A], [0b101] and [26] all decode to 26 fails:
    [0b101] decodes to 5. *)
Lemma binary_101_is_not_26 :
  ~ (parse_number (Token.mk TOK_NUM "0x1A" 4) = Some 26 /\
     parse_number (Token.mk TOK_NUM "0b101" 5) = Some 26 /\
     parse_number (Token.mk TOK_NUM "26" 2) = Some 26).
Proof. intros (_ & H101 & _); vm_compute in H101; discriminate. Qed.

(** C7, amended.  The literals [0x1A], [0b11010] and [26] decode to 26,
    and [0b101] decodes to 5: on a token of at least 3 characters the
    prefix [0x] selects base 16 and the prefix [0b] base 2 for the digits
    after it, any other token is decimal, and the token is a number only
    when the digits read end exactly where the token ends. *)
Theorem numeric_literals :
  (forall rest : string,
     ends_number rest ->
     parse_number (Token.mk TOK_NUM ("0x1A" +:+ rest) 4) = Some 26 /\
     parse_number (Token.mk TOK_NUM ("0b11010" +:+ rest) 7) = Some 26 /\
     parse_number (Token.mk TOK_NUM ("26" +:+ rest) 2) = Some 26 /\
     parse_number (Token.mk TOK_NUM ("0b101" +:+ rest) 5) = Some 5) /\
  (forall (token : Token.t) (digits : string),
     (3 <= Token.length token)%nat ->
     (Token.lexeme token = "0x" +:+ digits ->
      parse_number token = whole_token token 2 (strtoll digits 16)) /\
     (Token.lexeme token = "0b" +:+ digits ->
      parse_number token = whole_token token 2 (strtoll digits 2))) /\
  (forall token : Token.t,
     ~ ((3 <= Token.length token)%nat /\
        exists digits, Token.lexeme token = "0x" +:+ digits \/
                       Token.lexeme token = "0b" +:+ digits) ->
     parse_number token = whole_token token 0 (strtoll (Token.lexeme token) 10)).
Proof.
  split; [|split].
  - intros rest Hrest.
    pose proof (read_digits_stop 16 rest 26 (ends_number_base 16 rest ltac:(lia) Hrest)) as H16.
    pose proof (read_digits_stop 2 rest 26 (ends_number_base 2 rest ltac:(lia) Hrest)) as H2.
    pose proof (read_digits_stop 10 rest 26 (ends_number_base 10 rest ltac:(lia) Hrest)) as H10.
    pose proof (read_digits_stop 2 rest 5 (ends_number_base 2 rest ltac:(lia) Hrest)) as H5.
    change ("0x1A" +:+ rest) with (String "0" (String "x" (String "1" (String "A" rest)))).
    change ("0b11010" +:+ rest)
      with (String "0" (String "b" (String "1" (String "1" (String "0"
             (String "1" (String "0" rest))))))).
    change ("26" +:+ rest) with (String "2" (String "6" rest)).
    change ("0b101" +:+ rest)
      with (String "0" (String "b" (String "1" (String "0" (String "1" rest))))).
    unfold parse_number, strtoll, whole_token.
    repeat (cbn [first_char advance_ptr skip_space read_digits andb orb Token.lexeme
                 Token.length Nat.ltb Nat.leb Nat.eqb Nat.add fst snd];
            repeat match goal with
            | |- context [isspace (Ascii ?a ?b ?c ?d ?e ?f ?g ?h)] =>
                let v := eval vm_compute in (isspace (Ascii a b c d e f g h)) in
                change (isspace (Ascii a b c d e f g h)) with v
            | |- context [digit_value (Ascii ?a ?b ?c ?d ?e ?f ?g ?h)] =>
                let v := eval vm_compute in (digit_value (Ascii a b c d e f g h)) in
                change (digit_value (Ascii a b c d e f g h)) with v
            | |- context [Ascii.eqb (Ascii ?a ?b ?c ?d ?e ?f ?g ?h)
                                    (Ascii ?a' ?b' ?c' ?d' ?e' ?f' ?g' ?h')] =>
                let v := eval vm_compute in
                  (Ascii.eqb (Ascii a b c d e f g h) (Ascii a' b' c' d' e' f' g' h')) in
                change (Ascii.eqb (Ascii a b c d e f g h) (Ascii a' b' c' d' e' f' g' h'))
                  with v
            | |- context [Z.ltb ?x ?y] =>
                let v := eval vm_compute in (Z.ltb x y) in
                match v with true => idtac | false => idtac end;
                change (Z.ltb x y) with v
            | |- context [read_digits ?b rest ?acc] =>
                let v := eval vm_compute in acc in
                progress change (read_digits b rest acc) with (read_digits b rest v)
            end).
    rewrite H16, H2, H10, H5; auto.
  - intros token digits Hlen; split; intros Hlex.
    + apply parse_number_hex; assumption.
    + apply parse_number_binary; assumption.
  - exact parse_number_decimal.
Qed.

(** ** The parser *)


Lemma lookahead_advance (parser : Parser.t) (i : nat) :
  Token.type (Parser.current parser) <> TOK_EOF ->
  lookahead (advance parser) i = lookahead parser (S i).
Proof.
  intros Hcur; unfold advance, is_at_end, lookahead.
  rewrite bool_decide_eq_false_2 by assumption.
  destruct (Parser.lexer parser) as [|tok rest]; simpl; [|reflexivity].
  destruct i as [|[|i]]; simpl; try reflexivity.
  destruct i; reflexivity.
Qed.

Lemma lookahead_assign (cmd : nat) (f : Command.t -> Command.t) (parser : Parser.t) (i : nat) :
  lookahead (assign cmd f parser) i = lookahead parser i.
Proof. reflexivity. Qed.

Lemma lookahead_set_heap (h : store) (parser : Parser.t) (i : nat) :
  lookahead (Parser.set_heap h parser) i = lookahead parser i.
Proof. reflexivity. Qed.

Lemma rejected_bail_out (cmd : nat) (parser : Parser.t) : rejected (bail_out cmd parser).
Proof. eexists; split; reflexivity. Qed.

Lemma parse_variable_operand_inv parser op op' parser' :
  parse_variable_operand parser op = Some (op', parser') ->
  Token.type (Parser.current parser) = TOK_IDENT /\ parser' = advance parser.
Proof.
  unfold parse_variable_operand; intros Hp.
  destruct (bool_decide (Token.type (Parser.current parser) = TOK_IDENT)) eqn:Hty;
    [|discriminate].
  apply bool_decide_eq_true in Hty.
  destruct (negb (is_variable _)); [discriminate|]; simpl in Hp.
  destruct (parse_variable _); [|discriminate].
  inversion Hp; auto.
Qed.

Lemma parse_im_inv parser op op' :
  parse_im parser op = Some op' -> Token.type (Parser.current parser) = TOK_NUM.
Proof.
  unfold parse_im; intros Hp.
  destruct (bool_decide (Token.type (Parser.current parser) = TOK_NUM)) eqn:Hty;
    [|discriminate].
  apply bool_decide_eq_true in Hty; assumption.
Qed.

Lemma parse_var_or_imm_inv parser op op' flag parser' :
  parse_var_or_imm parser op = Some (op', flag, parser') ->
  (Token.type (Parser.current parser) = TOK_IDENT \/
   Token.type (Parser.current parser) = TOK_NUM) /\ parser' = advance parser.
Proof.
  unfold parse_var_or_imm; intros Hp.
  destruct (_ && _).
  - destruct (parse_variable_operand parser op) as [[o q]|] eqn:Hv; [|discriminate].
    apply parse_variable_operand_inv in Hv as [Hty ->].
    inversion Hp; auto.
  - destruct (bool_decide (Token.type (Parser.current parser) = TOK_NUM)) eqn:Hty;
      [|discriminate].
    apply bool_decide_eq_true in Hty.
    destruct (parse_im parser op); [|discriminate].
    inversion Hp; auto.
Qed.

(** A newline [i] tokens ahead stops a sequence of operands that is at
    least [i + 1] operands long. *)
Lemma newline_variable_into get set cmd parser i k :
  newline_token (lookahead parser i) ->
  (forall i' parser',
     i = S i' -> newline_token (lookahead parser' i') -> rejected (k parser')) ->
  rejected (variable_into get set cmd parser k).
Proof.
  intros Hnl Hk; unfold variable_into.
  destruct (parse_variable_operand _ _) as [[op parser']|] eqn:Hv;
    [|apply rejected_bail_out].
  apply parse_variable_operand_inv in Hv as [Hty ->].
  destruct i as [|i']; [destruct Hnl as [Hnl' _]; unfold lookahead in Hnl'; simpl in Hnl'; congruence|].
  apply (Hk i'); [reflexivity|].
  rewrite lookahead_assign, lookahead_advance by congruence; assumption.
Qed.

Lemma newline_var_or_imm_into get set set_flag cmd parser i k :
  newline_token (lookahead parser i) ->
  (forall i' parser',
     i = S i' -> newline_token (lookahead parser' i') -> rejected (k parser')) ->
  rejected (var_or_imm_into get set set_flag cmd parser k).
Proof.
  intros Hnl Hk; unfold var_or_imm_into.
  destruct (parse_var_or_imm _ _) as [[[op flag] parser']|] eqn:Hv;
    [|apply rejected_bail_out].
  apply parse_var_or_imm_inv in Hv as [Hty ->].
  destruct i as [|i'];
    [destruct Hnl as [Hnl' _]; unfold lookahead in Hnl'; simpl in Hnl'; destruct Hty; congruence|].
  apply (Hk i'); [reflexivity|].
  rewrite !lookahead_assign, lookahead_advance by (destruct Hty; congruence); assumption.
Qed.

Lemma newline_im_into_val_a cmd parser i k :
  newline_token (lookahead parser i) ->
  (forall i' parser',
     i = S i' -> newline_token (lookahead parser' i') -> rejected (k parser')) ->
  rejected (im_into_val_a cmd parser k).
Proof.
  intros Hnl Hk; unfold im_into_val_a.
  destruct (parse_im _ _) as [op|] eqn:Hv; [|apply rejected_bail_out].
  apply parse_im_inv in Hv.
  destruct i as [|i']; [destruct Hnl as [Hnl' _]; unfold lookahead in Hnl'; simpl in Hnl'; congruence|].
  apply (Hk i'); [reflexivity|].
  rewrite lookahead_advance by (simpl; congruence); assumption.
Qed.

Ltac newline_steps :=
  repeat first
    [ eapply newline_variable_into;
      [eassumption|intros ? ? Heq ?; first [discriminate Heq|subst]]
    | eapply newline_var_or_imm_into;
      [eassumption|intros ? ? Heq ?; first [discriminate Heq|subst]]
    | eapply newline_im_into_val_a;
      [eassumption|intros ? ? Heq ?; first [discriminate Heq|subst]] ];
  try (exfalso; lia).

Lemma newline_not_base (token : Token.t) : newline_token token -> is_base token = false.
Proof.
  intros [_ Hc]; unfold is_base; rewrite Hc.
  destruct (Token.length token =? 1)%nat; reflexivity.
Qed.

Lemma newline_label_operand (cmd : nat) (h : store) (parser : Parser.t) :
  Token.type (Parser.current parser) <> TOK_EOF ->
  newline_token (lookahead parser 1) ->
  rejected (parse_label_operand cmd (Parser.set_heap h parser)).
Proof.
  intros Hcur [Hnl _]; unfold parse_label_operand.
  rewrite <- (lookahead_advance _ 0 Hcur) in Hnl.
  rewrite advance_set_heap; unfold lookahead in Hnl; simpl in Hnl.
  cbn [Parser.current Parser.set_heap]; rewrite Hnl.
  apply rejected_bail_out.
Qed.

(** A newline where an operand is due makes the [switch] of [parse_cmd]
    give the command up, except between the operands of MOV. *)
Lemma newline_rejected_switch (parser : Parser.t) (i : nat) :
  (i < operand_count (Token.type (Parser.current parser)))%nat ->
  newline_token (lookahead parser (S i)) ->
  (Token.type (Parser.current parser) = TOK_MOV -> i = O) ->
  rejected (parse_switch parser).
Proof.
  intros Hi Hnl Hmov; unfold parse_switch.
  assert (Hahead : Token.type (Parser.current parser) <> TOK_EOF ->
                   forall h, newline_token (lookahead (advance (Parser.set_heap h parser)) i)).
  { intros Hcur h; rewrite advance_set_heap, lookahead_set_heap, lookahead_advance;
      assumption. }
  destruct (Token.type (Parser.current parser)) eqn:HK; simpl in Hi; try lia;
    specialize (Hahead ltac:(discriminate));
    unfold parse_mov, parse_dest_var_operand, parse_cmp, parse_print, parse_bitwise,
      parse_load, parse_store, parse_put, parse_branch, parse_call, create_command;
    cbv zeta;
    try match goal with
    | |- context [advance (Parser.set_heap ?h parser)] => specialize (Hahead h)
    end.
  - rewrite (Hmov eq_refl) in *; newline_steps.
  - newline_steps.
  - newline_steps.
  - newline_steps.
  - newline_steps.
  - newline_steps.
    assert (i' = O) as -> by lia.
    unfold parse_base.
    match goal with
    | Hn : newline_token (lookahead ?p O) |- _ =>
        rewrite (newline_not_base (Parser.current p) Hn)
    end.
    apply rejected_bail_out.
  - newline_steps.
  - newline_steps.
  - newline_steps.
  - newline_steps.
  - newline_steps.
  - newline_steps.
  - newline_steps.
  - newline_steps.
  - destruct i as [|i'].
    + destruct Hahead as [Hty _]; unfold lookahead in Hty; simpl in Hty.
      rewrite Hty; apply rejected_bail_out.
    + destruct (bool_decide _) eqn:Hstr; [|apply rejected_bail_out]; cbn [negb].
      apply bool_decide_eq_true in Hstr.
      assert (i' = O) as -> by lia.
      eapply (newline_var_or_imm_into _ _ _ _ _ O).
      * rewrite lookahead_advance; [exact Hahead|].
        cbn [assign Parser.current Parser.set_heap] in *; congruence.
      * intros ? ? Heq; discriminate.
  - assert (i = O) as -> by lia.
    exact (newline_label_operand _ (alter _ _ (_ ++ _)) parser ltac:(congruence) Hnl).
  - assert (i = O) as -> by lia.
    exact (newline_label_operand _ (alter _ _ (_ ++ _)) parser ltac:(congruence) Hnl).
  - assert (i = O) as -> by lia.
    exact (newline_label_operand _ (alter _ _ (_ ++ _)) parser ltac:(congruence) Hnl).
  - assert (i = O) as -> by lia.
    exact (newline_label_operand _ (alter _ _ (_ ++ _)) parser ltac:(congruence) Hnl).
  - assert (i = O) as -> by lia.
    exact (newline_label_operand _ (alter _ _ (_ ++ _)) parser ltac:(congruence) Hnl).
  - assert (i = O) as -> by lia.
    exact (newline_label_operand _ (alter _ _ (_ ++ _)) parser ltac:(congruence) Hnl).
  - assert (i = O) as -> by lia.
    exact (newline_label_operand _ (alter _ _ (_ ++ _)) parser ltac:(congruence) Hnl).
  - assert (i = O) as -> by lia.
    exact (newline_label_operand _ (_ ++ _) parser ltac:(congruence) Hnl).
Qed.

(** How the loops unfold. *)
Lemma skip_nls_eq (parser : Parser.t) :
  skip_nls parser =
  if decide (Token.type (Parser.current parser) = TOK_NL) then skip_nls (advance parser)
  else parser.
Proof.
  rewrite skip_nls_equation_1.
  destruct (Logic.inspect (consume parser TOK_NL)) as [[[] parser'] Hc];
    simp skip_nls; unfold consume in Hc;
    destruct (decide _); first [discriminate Hc | inversion Hc; reflexivity].
Qed.

Lemma parse_commands_loop_eq (parser : Parser.t) (head_cmd tail_cmd : option nat) :
  parse_commands_loop parser head_cmd tail_cmd =
  if negb (Parser.had_error parser) && negb (is_at_end parser) then
    match parse_cmd parser with
    | Undef why => Undef why
    | Ret (None, parser') => Ret (head_cmd, parser')
    | Ret (Some cmd, parser') =>
        parse_commands_loop
          (match tail_cmd with
           | None => parser'
           | Some t => assign t (Command.set_next (Some cmd)) parser'
           end)
          (match tail_cmd with
           | None => Some cmd
           | Some _ => head_cmd
           end)
          (Some cmd)
    end
  else Ret (head_cmd, parser).
Proof.
  rewrite parse_commands_loop_equation_1.
  destruct (Logic.inspect (negb _ && negb _)) as [[] Hgo]; simp parse_commands_loop;
    match goal with
    | |- _ = if ?c then ?a else ?b =>
        transitivity (if true then a else b); [|rewrite Hgo; reflexivity]
    | _ => idtac
    end; try (rewrite Hgo; reflexivity).
  destruct (Logic.inspect (parse_cmd parser)) as [[[[cmd|] parser']|why] Hp];
    simp parse_commands_loop; cbv iota; rewrite Hp;
    rewrite <- ?parse_commands_loop_equation_1; reflexivity.
Qed.

Lemma skip_nls_at_keyword (parser : Parser.t) :
  Token.type (Parser.current parser) <> TOK_NL -> skip_nls parser = parser.
Proof. intros Hcur; rewrite skip_nls_eq, decide_False by assumption; reflexivity. Qed.

(** [parse_cmd] at a token that is neither a newline nor an identifier. *)
Lemma parse_cmd_at_keyword (parser : Parser.t) :
  Token.type (Parser.current parser) <> TOK_NL ->
  Token.type (Parser.current parser) <> TOK_IDENT ->
  parse_cmd parser = Ret (parse_instruction parser).
Proof.
  intros Hnl Hident; rewrite parse_cmd_eq, skip_nls_at_keyword by assumption.
  unfold at_label; rewrite (bool_decide_eq_false_2 _ Hident); reflexivity.
Qed.

(** The loop of [parse_commands] ends when [parse_cmd] gives no command. *)
Lemma parse_commands_halts (parser parser' : Parser.t) (head_cmd tail_cmd : option nat) :
  Parser.had_error parser = false ->
  parse_cmd parser = Ret (None, parser') ->
  exists parser'',
    parse_commands_loop parser head_cmd tail_cmd = Ret (head_cmd, parser'') /\
    (is_at_end parser = false -> parser'' = parser').
Proof.
  intros Herr Hp; rewrite parse_commands_loop_eq, Herr, Hp; simpl.
  destruct (is_at_end parser); simpl; eexists; split; try reflexivity.
  discriminate.
Qed.

(** [skip_nls] over [k] newlines. *)
Lemma skip_nls_newlines (k : nat) (parser : Parser.t) :
  (forall j, (j < k)%nat -> Token.type (lookahead parser j) = TOK_NL) ->
  Token.type (lookahead parser k) <> TOK_NL ->
  (forall i, lookahead (skip_nls parser) i = lookahead parser (k + i)) /\
  Parser.heap (skip_nls parser) = Parser.heap parser /\
  Parser.had_error (skip_nls parser) = Parser.had_error parser /\
  Parser.label_map (skip_nls parser) = Parser.label_map parser.
Proof.
  revert parser; induction k as [|k IH]; intros parser Hnls Hend.
  - rewrite skip_nls_at_keyword by exact Hend; auto.
  - assert (Hcur : Token.type (Parser.current parser) = TOK_NL) by (apply (Hnls O); lia).
    assert (Hneof : Token.type (Parser.current parser) <> TOK_EOF) by congruence.
    rewrite skip_nls_eq, decide_True by assumption.
    destruct (IH (advance parser)) as (Hla & Hheap & Herr & Hmap).
    + intros j Hj; rewrite lookahead_advance by assumption; apply Hnls; lia.
    + rewrite lookahead_advance by assumption; exact Hend.
    + repeat split.
      * intros i; rewrite Hla, lookahead_advance by assumption; reflexivity.
      * rewrite Hheap; unfold advance, is_at_end.
        rewrite bool_decide_eq_false_2 by assumption.
        destruct (lexer_next_token _); reflexivity.
      * rewrite Herr; unfold advance, is_at_end.
        rewrite bool_decide_eq_false_2 by assumption.
        destruct (lexer_next_token _); reflexivity.
      * rewrite Hmap; unfold advance, is_at_end.
        rewrite bool_decide_eq_false_2 by assumption.
        destruct (lexer_next_token _); reflexivity.
Qed.

Lemma advance_keeps (parser : Parser.t) :
  Parser.heap (advance parser) = Parser.heap parser /\
  Parser.had_error (advance parser) = Parser.had_error parser /\
  Parser.label_map (advance parser) = Parser.label_map parser.
Proof.
  unfold advance; destruct (is_at_end parser); [auto|].
  destruct (lexer_next_token _); auto.
Qed.

Lemma consume_newline_keeps (parser parser' : Parser.t) (ok : bool) :
  consume_newline parser = (ok, parser') ->
  Parser.heap parser' = Parser.heap parser /\
  Parser.had_error parser' = Parser.had_error parser /\
  Parser.label_map parser' = Parser.label_map parser.
Proof.
  unfold consume_newline, consume; intros Hc.
  destruct (advance_keeps parser) as (Hh & He & Hm).
  repeat (destruct (decide _)); inversion Hc; subst; auto.
Qed.

Lemma consume_newline_at_end (parser : Parser.t) :
  Token.type (Parser.current parser) = TOK_NL \/
  Token.type (Parser.current parser) = TOK_EOF ->
  fst (consume_newline parser) = true.
Proof.
  unfold consume_newline, consume; intros [Hc|Hc].
  - rewrite decide_True by assumption; reflexivity.
  - rewrite decide_False by congruence; cbn iota.
    rewrite decide_True by assumption; reflexivity.
Qed.


(** MOV takes its immediate from the first token after its destination
    register that is not a newline. *)
Lemma mov_skips_newlines (parser : Parser.t) (k : nat) (reg value : Z) :
  Token.type (Parser.current parser) = TOK_MOV ->
  Token.type (lookahead parser 1) = TOK_IDENT ->
  is_variable (lookahead parser 1) = true ->
  parse_variable (lookahead parser 1) = Some reg ->
  (forall j, (j < k)%nat -> Token.type (lookahead parser (2 + j)) = TOK_NL) ->
  Token.type (lookahead parser (2 + k)) = TOK_NUM ->
  parse_number (lookahead parser (2 + k)) = Some value ->
  Token.type (lookahead parser (3 + k)) = TOK_NL \/
  Token.type (lookahead parser (3 + k)) = TOK_EOF ->
  exists parser',
    parse_cmd parser = Ret (Some (length (Parser.heap parser)), parser') /\
    Parser.had_error parser' = Parser.had_error parser /\
    Parser.heap parser' = Parser.heap parser ++ [mov_command reg value].
Proof.
  intros Hmov Hident Hvar Hreg Hnls Hnum Hvalue Hend.
  rewrite parse_cmd_at_keyword by congruence.
  unfold parse_instruction; rewrite decide_False by congruence.
  unfold parse_switch; rewrite Hmov.
  unfold parse_mov, create_command; cbv zeta.
  set (cmd := length (Parser.heap parser)).
  set (c0 := Command.mk CMD_MOV None false false false false BRANCH_NONE
               Operand.zero Operand.zero Operand.zero).
  set (p1 := advance (Parser.set_heap (Parser.heap parser ++ [c0]) parser)).
  assert (Hla1 : forall i, lookahead p1 i = lookahead parser (S i)).
  { intros i; unfold p1.
    rewrite advance_set_heap, lookahead_set_heap, lookahead_advance by congruence.
    reflexivity. }
  assert (Hk1 : Parser.heap p1 = Parser.heap parser ++ [c0] /\
                Parser.had_error p1 = Parser.had_error parser).
  { unfold p1; destruct (advance_keeps (Parser.set_heap (Parser.heap parser ++ [c0]) parser))
      as (-> & -> & _); auto. }
  destruct Hk1 as [Hheap1 Herr1].
  assert (Hderef : forall p f, Parser.heap p = Parser.heap parser ++ [f c0] ->
                               deref p cmd = f c0).
  { intros p f Hp; unfold deref, cmd; rewrite Hp, nth_middle; reflexivity. }
  unfold variable_into, parse_variable_operand.
  change (Parser.current p1) with (lookahead p1 0); rewrite Hla1, Hident, Hvar, Hreg.
  rewrite bool_decide_eq_true_2 by reflexivity; cbn [negb orb].
  rewrite (Hderef p1 (fun c => c) Hheap1).
  set (p2 := assign cmd _ (advance p1)).
  assert (Hla2 : forall i, lookahead p2 i = lookahead parser (2 + i)).
  { intros i; unfold p2; rewrite lookahead_assign, lookahead_advance, Hla1; [reflexivity|].
    change (Parser.current p1) with (lookahead p1 0); rewrite Hla1; congruence. }
  destruct (skip_nls_newlines k p2) as (Hla3 & Hheap3 & Herr3 & _).
  { intros j Hj; rewrite Hla2; apply Hnls, Hj. }
  { rewrite Hla2; congruence. }
  set (p3 := skip_nls p2) in *.
  unfold im_into_val_a, parse_im.
  change (Parser.current p3) with (lookahead p3 0).
  rewrite Hla3, Hla2, Nat.add_0_r, Hnum, Hvalue.
  rewrite bool_decide_eq_true_2 by reflexivity; cbn [negb].
  set (p4 := advance _).
  assert (Hla4 : lookahead p4 0 = lookahead parser (3 + k)).
  { unfold p4; rewrite lookahead_advance.
    - rewrite !lookahead_assign, Hla3, Hla2; f_equal; lia.
    - cbn [assign Parser.current Parser.set_heap].
      change (Parser.current p3) with (lookahead p3 0).
      rewrite Hla3, Hla2, Nat.add_0_r; congruence. }
  pose proof (consume_newline_at_end p4) as Hok.
  change (Parser.current p4) with (lookahead p4 0) in Hok; rewrite Hla4 in Hok.
  specialize (Hok Hend).
  destruct (consume_newline p4) as [ok p5] eqn:Hc; simpl in Hok; subst ok.
  destruct (consume_newline_keeps _ _ _ Hc) as (Hheap5 & Herr5 & _).
  exists p5; split; [reflexivity|].
  destruct (advance_keeps p1) as (Hh1 & He1 & _).
  assert (Hheap2 : Parser.heap p2
                   = Parser.heap parser
                     ++ [Command.set_destination (Operand.mk reg None zero) c0]).
  { unfold p2, assign; cbn [Parser.heap Parser.set_heap].
    rewrite Hh1, Hheap1; unfold cmd.
    rewrite alter_app_r_alt, Nat.sub_diag by lia; reflexivity. }
  assert (Hval_a : Command.val_a (deref p3 cmd) = Operand.zero).
  { rewrite (Hderef p3 (Command.set_destination (Operand.mk reg None zero)));
      [reflexivity|rewrite Hheap3, Hheap2; reflexivity]. }
  assert (Hp4 : Parser.heap p4 = Parser.heap parser ++ [mov_command reg value] /\
                Parser.had_error p4 = Parser.had_error parser).
  { unfold p4.
    match goal with
    | |- context [advance ?q] => destruct (advance_keeps q) as (-> & -> & _)
    end.
    cbn [assign Parser.heap Parser.had_error Parser.set_heap].
    rewrite Hval_a, Hheap3, Herr3, Hheap2.
    unfold p2; cbn [assign Parser.had_error Parser.set_heap].
    rewrite He1, Herr1; split; [|reflexivity].
    unfold cmd; rewrite !alter_app_r_alt, !Nat.sub_diag by lia; reflexivity. }
  destruct Hp4 as [Hheap4 Herr4].
  split; congruence.
Qed.

(** C8, amended.  For every instruction other than MOV, and for MOV before
    its destination register, a newline token where an operand is due is a
    grammar mismatch: [parse_cmd] gives the command up with the error flag
    set, and the loop of [parse_commands] ends there.  Between MOV's
    destination register and its immediate, newlines are skipped: the
    immediate is the first token after them. *)
Theorem newline_inside_operands :
  (forall (parser : Parser.t) (i : nat),
     Parser.had_error parser = false ->
     (i < operand_count (Token.type (Parser.current parser)))%nat ->
     newline_token (lookahead parser (S i)) ->
     (Token.type (Parser.current parser) = TOK_MOV -> i = O) ->
     exists parser',
       parse_cmd parser = Ret (None, parser') /\
       Parser.had_error parser' = true /\
       forall head_cmd tail_cmd,
         parse_commands_loop parser head_cmd tail_cmd = Ret (head_cmd, parser')) /\
  (forall (parser : Parser.t) (k : nat) (reg value : Z),
     Token.type (Parser.current parser) = TOK_MOV ->
     Token.type (lookahead parser 1) = TOK_IDENT ->
     is_variable (lookahead parser 1) = true ->
     parse_variable (lookahead parser 1) = Some reg ->
     (forall j, (j < k)%nat -> Token.type (lookahead parser (2 + j)) = TOK_NL) ->
     Token.type (lookahead parser (2 + k)) = TOK_NUM ->
     parse_number (lookahead parser (2 + k)) = Some value ->
     Token.type (lookahead parser (3 + k)) = TOK_NL \/
     Token.type (lookahead parser (3 + k)) = TOK_EOF ->
     exists parser',
       parse_cmd parser = Ret (Some (length (Parser.heap parser)), parser') /\
       Parser.had_error parser' = Parser.had_error parser /\
       Parser.heap parser' = Parser.heap parser ++ [mov_command reg value]).
Proof.
  split; [|exact mov_skips_newlines].
  intros parser i Herr Hi Hnl Hmov.
  assert (Hkey : Token.type (Parser.current parser) <> TOK_NL /\
                 Token.type (Parser.current parser) <> TOK_IDENT /\
                 Token.type (Parser.current parser) <> TOK_EOF).
  { destruct (Token.type (Parser.current parser)); simpl in Hi;
      repeat split; try discriminate; lia. }
  destruct Hkey as (Hk1 & Hk2 & Hk3).
  destruct (newline_rejected_switch parser i Hi Hnl Hmov) as (parser' & Hsw & Herr').
  assert (Hcmd : parse_cmd parser = Ret (None, parser')).
  { rewrite parse_cmd_at_keyword by assumption.
    unfold parse_instruction; rewrite decide_False, Hsw by assumption; reflexivity. }
  exists parser'; repeat split; try assumption.
  intros head_cmd tail_cmd.
  destruct (parse_commands_halts parser parser' head_cmd tail_cmd Herr Hcmd)
    as (parser'' & Hloop & Hsame).
  rewrite Hloop, Hsame; [reflexivity|].
  unfold is_at_end; apply bool_decide_eq_false_2; assumption.
Qed.


Section MoreInterpreterProperties.
Context `{MemStore}.

(** C10, amended.  Every [val_a] and [val_b] operand that an instruction
    fetches as a register goes through [fetch_number_value]: with an index
    outside 0..31 the fetch sets the error flag and gives 0 instead of
    reading the register file, whatever the opcode.  The index in the
    destination slot does not go through it: STORE reads its source
    register [variables[destination]] without a bounds check, and that is
    the only read outside the register file an instruction can make. *)
Theorem register_operands_bounds_checked :
  (forall (intr : Interpreter.t) (op : Operand.t),
     ~ in_register_file (Operand.num_val op) ->
     fetch_number_value intr op false = Ret (Interpreter.set_had_error true intr, 0)) /\
  (forall (intr : Interpreter.t) (op : Operand.t) (is_im : bool),
     exists r, fetch_number_value intr op is_im = Ret r) /\
  (forall (m m' : Machine.t) (cmd : Command.t) (j : jump),
     (fetches_a cmd = Some false /\
      ~ in_register_file (Operand.num_val (Command.val_a cmd))) \/
     (fetches_b cmd = Some false /\
      ~ in_register_file (Operand.num_val (Command.val_b cmd))) ->
     exec m cmd = Ret (m', j) ->
     Interpreter.had_error (Machine.intr m') = true) /\
  (forall (m : Machine.t) (cmd : Command.t),
     exec m cmd = Undef RegRead ->
     Command.type cmd = CMD_STORE /\
     ~ in_register_file (Operand.num_val (Command.destination cmd))).
Proof.
  split; [exact fetch_out|split; [|split]].
  - intros intr op is_im.
    destruct (fetch_cases intr op is_im) as [[v Hv]|(_ & _ & Hv)]; eexists; exact Hv.
  - exact exec_bad_register.
  - exact exec_reg_read_undef.
Qed.

End MoreInterpreterProperties.

(** The claim that no instruction reads outside the register file fails:
    [store x32 0 8] reads [variables[32]]. *)
Lemma store_reads_outside_register_file :
  @step example_mem [store_bad_register] fresh_machine 0 = Undef RegRead.
Proof. vm_compute; reflexivity. Qed.

(** [lsl x2 x1 63] with 1 in [x1]: [1 << 63] is not an [int64_t], and
    the shift leaves defined behaviour. *)
Lemma lsl_by_63_is_undefined :
  step [lsl_example] (example_machine (label_map_init 16) (x1_is 1)) 0
  = Undef ShiftOverflow.
Proof. vm_compute; reflexivity. Qed.

(** The claim that a newline between MOV's destination register and its
    immediate is a grammar mismatch fails: [mov x0 <newline> 5] is
    parsed, without error. *)
Lemma mov_newline_is_accepted :
  newline_token (lookahead (parser_init mov_tokens (label_map_init 16)) 2) /\
  exists parser',
    parse_commands (parser_init mov_tokens (label_map_init 16)) = Ret (Some 0%nat, parser') /\
    Parser.had_error parser' = false /\
    Parser.heap parser' = [mov_command 0 5].
Proof.
  split; [split; reflexivity|].
  eexists; split; [vm_compute; reflexivity|split; reflexivity].
Qed.

(** ** The theorems at the example inputs *)

Ltac turn_at n :=
  exists n; eexists;
  split; [reflexivity|];
  split; [reflexivity|];
  split; [first [reflexivity | split; discriminate]|];
  split; [reflexivity|vm_compute; reflexivity].

(** In [nested_program] the call of [f], which itself calls [g], gives
    [x1] its value before the call back, leaves [x0] as [f] set it, and
    goes on after the call. *)
Lemma call_ret_frame_discipline_witness :
  let p := nested_start in
  let p_ret := point_after 6 nested_program nested_start in
  let p' := point_after 7 nested_program nested_start in
  (forall i, (1 <= i <= 31)%nat -> nth i (regs p') 0 = nth i (regs p) 0) /\
  nth 0 (regs p') 0 = nth 0 (regs p_ret) 0 /\
  stack p' = stack p /\
  snd p' = Some 1%nat.
Proof.
  intros p p_ret p'.
  destruct (@call_ret_frame_discipline example_mem nested_program) as (_ & _ & Hcall & _).
  apply (Hcall p p_ret p' 0%nat
           (jump_instruction CMD_CALL BRANCH_NONE (Some 1%nat) "f")).
  - split; [reflexivity|constructor].
  - reflexivity.
  - reflexivity.
  - exists (point_after 1 nested_program nested_start).
    split; [turn_at 0%nat|].
    split; [|turn_at 5%nat].
    apply balanced_plain with (point_after 2 nested_program nested_start);
      [turn_at 2%nat|].
    apply balanced_call with
      (point_after 3 nested_program nested_start)
      (point_after 4 nested_program nested_start)
      (point_after 5 nested_program nested_start).
    + turn_at 3%nat.
    + apply balanced_plain with (point_after 4 nested_program nested_start);
        [turn_at 6%nat|apply balanced_done].
    + turn_at 7%nat.
    + apply balanced_plain with (point_after 6 nested_program nested_start);
        [turn_at 4%nat|apply balanced_done].
Defined.

(** [b .Lend] with no such label ends the run without an error. *)
Lemma branch_unresolved_label_witness :
  interpret_loop 1 [branch_example ".Lend"] fresh_machine (Some 0%nat)
  = Finished fresh_machine None.
Proof.
  destruct (@branch_unresolved_label example_mem [branch_example ".Lend"] fresh_machine 0%nat
              (branch_example ".Lend") eq_refl eq_refl eq_refl) as [_ Htaken].
  destruct (Htaken ".Lend" eq_refl eq_refl eq_refl) as [Hlocal _].
  apply Hlocal.
  exists "end"; reflexivity.
Defined.

(** [cmp x1 5] with 7 in [x1] sets exactly one flag. *)
Lemma cmp_sets_exactly_one_flag_witness :
  let intr' :=
    Machine.intr (after_step [cmp_example]
                    (example_machine (label_map_init 16) (x1_is 7)) 0) in
  exactly_one_of (Interpreter.is_greater intr') (Interpreter.is_equal intr')
                 (Interpreter.is_less intr').
Proof.
  intros intr'.
  destruct (@cmp_sets_exactly_one_flag example_mem [cmp_example]
              (example_machine (label_map_init 16) (x1_is 7))
              (after_step [cmp_example]
                 (example_machine (label_map_init 16) (x1_is 7)) 0)
              0%nat None cmp_example)
    as (a & b & _ & _ & _ & _ & _ & Hone).
  - reflexivity.
  - left; reflexivity.
  - vm_compute; reflexivity.
  - reflexivity.
  - exact Hone.
Defined.

(** [add x2 x1 1] with [INT64_MAX] in [x1] leaves [INT64_MIN] in [x2],
    and [x1] as it was. *)
Lemma add_sub_wraparound_witness :
  let m := example_machine (label_map_init 16) (x1_is INT64_MAX) in
  let m' := after_step [add_example] m 0 in
  nth 2 (Interpreter.variables (Machine.intr m')) 0 = INT64_MIN /\
  nth 1 (Interpreter.variables (Machine.intr m')) 0 = INT64_MAX /\
  Interpreter.had_error (Machine.intr m') = false.
Proof.
  intros m m'.
  pose proof (@add_sub_wraparound example_mem [add_example] m 0%nat add_example INT64_MAX 1) as Hadd.
  cbv zeta in Hadd.
  destruct Hadd as (_ & Hstep & Hwrap & _).
  - reflexivity.
  - left; reflexivity.
  - reflexivity.
  - reflexivity.
  - reflexivity.
  - reflexivity.
  - destruct Hstep as (m1 & Hs & Hnth & [_ Hothers] & Herr & _);
      [vm_compute; split; discriminate|].
    assert (m' = m1) as -> by (subst m'; unfold after_step; rewrite Hs; reflexivity).
    split; [|split].
    + etransitivity; [exact Hnth|].
      apply Hwrap; reflexivity.
    + rewrite (Hothers 1%nat) by discriminate; reflexivity.
    + rewrite Herr; reflexivity.
Defined.

(** [lsr x2 x1 63] with -1 in [x1] leaves in [x2] the sign bit of [x1] as
    bit 0 and zeros above it. *)
Lemma shift_amount_checked_witness :
  let m := example_machine (label_map_init 16) (x1_is (-1)) in
  let m' := after_step [lsr_example] m 0 in
  let x2 := nth 2 (Interpreter.variables (Machine.intr m')) 0 in
  Z.testbit x2 0 = true /\ Z.testbit x2 1 = false /\ Z.testbit x2 63 = false /\
  Interpreter.had_error (Machine.intr m') = false.
Proof.
  intros m m' x2.
  destruct (@shift_amount_checked example_mem [lsr_example] m 0%nat lsr_example (-1) 63)
    as (_ & Hshift & _).
  - reflexivity.
  - right; left; reflexivity.
  - reflexivity.
  - reflexivity.
  - vm_compute; split; [discriminate|reflexivity].
  - reflexivity.
  - reflexivity.
  - vm_compute; split; discriminate.
  - destruct Hshift as (m1 & Hs & _ & (Herr & _) & _ & _ & Hbits).
    + lia.
    + intros [Hlsl _]; discriminate Hlsl.
    + assert (m' = m1) as Hm by (subst m'; unfold after_step; rewrite Hs; reflexivity).
      subst x2; rewrite Hm.
      split; [|split; [|split]].
      * etransitivity; [apply (Hbits 0); lia|reflexivity].
      * etransitivity; [apply (Hbits 1); lia|reflexivity].
      * etransitivity; [apply (Hbits 63); lia|reflexivity].
      * rewrite Herr; reflexivity.
Defined.

(** [print x1 b] with 0 in [x1] appends [0b0] and a newline to the
    output. *)
Lemma print_formats_witness :
  let m := example_machine (label_map_init 16) (x1_is 0) in
  Machine.stdout (after_step [print_example "b"] m 0) = "0b0" +:+ newline.
Proof.
  intros m.
  pose proof (@print_formats example_mem [print_example "b"] m 0%nat (print_example "b") 0) as Hprint.
  cbv zeta in Hprint.
  destruct Hprint as (_ & Hbinary & _).
  - reflexivity.
  - reflexivity.
  - reflexivity.
  - reflexivity.
  - destruct Hbinary as (bits & (m' & Hs & Hout & _) & _ & _ & Hzero & _); [reflexivity|].
    unfold after_step; rewrite Hs, Hout, (Hzero eq_refl); reflexivity.
Defined.

(** The literals followed by a line feed. *)
Lemma numeric_literals_witness :
  parse_number (Token.mk TOK_NUM ("0x1A" +:+ line_feed) 4) = Some 26 /\
  parse_number (Token.mk TOK_NUM ("0b11010" +:+ line_feed) 7) = Some 26 /\
  parse_number (Token.mk TOK_NUM ("26" +:+ line_feed) 2) = Some 26 /\
  parse_number (Token.mk TOK_NUM ("0b101" +:+ line_feed) 5) = Some 5.
Proof.
  destruct numeric_literals as [Hliterals _].
  apply (Hliterals line_feed).
  reflexivity.
Defined.

(** [add x1 x2 <newline> 5]: the newline in the place of the third
    operand makes the parse fail. *)
Lemma newline_inside_operands_witness :
  exists parser',
    parse_cmd (parser_init add_tokens (label_map_init 16)) = Ret (None, parser') /\
    Parser.had_error parser' = true /\
    forall head_cmd tail_cmd,
      parse_commands_loop (parser_init add_tokens (label_map_init 16)) head_cmd tail_cmd
      = Ret (head_cmd, parser').
Proof.
  destruct newline_inside_operands as [Hnewline _].
  apply (Hnewline (parser_init add_tokens (label_map_init 16)) 2%nat).
  - reflexivity.
  - vm_compute; lia.
  - split; reflexivity.
  - intros Hmov; vm_compute in Hmov; discriminate.
Defined.


(** [and x1 x40 x2] sets the error flag, and the only instruction of
    the two that reads outside the register file is [store x32 0 8]. *)
Lemma register_operands_bounds_checked_witness :
  Interpreter.had_error
    (Machine.intr (after_step [and_bad_register] fresh_machine 0)) = true /\
  Command.type store_bad_register = CMD_STORE /\
  ~ in_register_file (Operand.num_val (Command.destination store_bad_register)).
Proof.
  destruct (@register_operands_bounds_checked example_mem) as (_ & _ & Hbad & Hstore).
  split.
  - apply (Hbad fresh_machine (after_step [and_bad_register] fresh_machine 0)
             and_bad_register Fallthrough).
    + left; split; [reflexivity|].
      unfold in_register_file; vm_compute; intros [_ Hle]; apply Hle; reflexivity.
    + vm_compute; reflexivity.
  - apply (Hstore fresh_machine store_bad_register).
    vm_compute; reflexivity.
Defined.

(** ** Further properties of the label table *)

Lemma hash_from_sum (s : string) (i : Z) :
  hash_from i s = to_uint64 (i + char_sum s) \/ (s = EmptyString /\ hash_from i s = i).
Proof.
  revert i; induction s as [|c s IH]; intros i; simpl; [right; auto|left].
  destruct (IH (to_uint64 (i + char_val c))) as [->|[-> ->]]; simpl; unfold to_uint64.
  - rewrite Zplus_mod_idemp_l; f_equal; lia.
  - f_equal; lia.
Qed.

Lemma char_sum_app (s t : string) : char_sum (s +:+ t) = char_sum s + char_sum t.
Proof. induction s as [|c s IH]; simpl; [reflexivity|rewrite IH; lia]. Qed.

Lemma hash_function_sum (s : string) : hash_function s = to_uint64 (char_sum s).
Proof.
  unfold hash_function.
  destruct (hash_from_sum s 0) as [->|[-> ->]]; reflexivity.
Qed.

Lemma char_sum_permutation (l l' : list ascii) :
  Permutation l l' ->
  char_sum (string_of_list_ascii l) = char_sum (string_of_list_ascii l').
Proof.
  induction 1 as [|c l l' _ IH|c d l|l l' l'' _ IH1 _ IH2]; simpl.
  - reflexivity.
  - rewrite IH; reflexivity.
  - lia.
  - congruence.
Qed.

(** X3.  [hash_function] is the sum of the characters of the name modulo
    [2 ^ 64], so it does not depend on the order of the characters: a name
    and any rearrangement of its characters have the same hash, the same
    bucket index for every capacity, and the same bucket in every
    table. *)
Theorem hash_function_order_blind (s t : string) :
  Permutation (list_ascii_of_string s) (list_ascii_of_string t) ->
  hash_function s = char_sum s mod 2 ^ 64 /\
  hash_function s = hash_function t /\
  (forall capacity : Z, bucket_index capacity s = bucket_index capacity t) /\
  (forall map : LabelMap.t, bucket_of map s = bucket_of map t).
Proof.
  intros Hperm.
  assert (hash_function s = hash_function t) as Hhash.
  { rewrite !hash_function_sum; f_equal.
    rewrite <- (string_of_list_ascii_of_string s), <- (string_of_list_ascii_of_string t).
    apply char_sum_permutation, Hperm. }
  split; [apply hash_function_sum|split; [exact Hhash|split]].
  - intros capacity; unfold bucket_index; rewrite Hhash; reflexivity.
  - intros map; unfold bucket_of; rewrite Hhash; reflexivity.
Qed.

Lemma bucket_of_ok (map : LabelMap.t) (id : string) :
  table_ok map ->
  exists chain,
    bucket_of map id = Ret (bucket_index (LabelMap.capacity map) id, chain) /\
    LabelMap.entries map !! bucket_index (LabelMap.capacity map) id = Some chain.
Proof.
  intros (Hcap & Hlen & _); unfold bucket_of, bucket_index.
  assert (to_uint64 (LabelMap.capacity map) = LabelMap.capacity map) as Hu
    by (unfold to_uint64; apply Z.mod_small; lia).
  rewrite Hu.
  destruct (Z.eqb_spec (LabelMap.capacity map) 0) as [|_]; [lia|].
  destruct (LabelMap.entries map !! _) as [chain|] eqn:Hchain; [eauto|].
  apply lookup_ge_None in Hchain.
  pose proof (Z.mod_pos_bound (hash_function id) (LabelMap.capacity map)); lia.
Qed.

Lemma label_map_init_ok (capacity : Z) :
  0 < capacity < 2 ^ 31 -> table_ok (label_map_init capacity).
Proof.
  intros Hcap; unfold table_ok, label_map_init; simpl.
  split; [exact Hcap|split; [apply repeat_length|]].
  intros h chain Hh.
  apply list_elem_of_lookup_2, list_elem_of_In, repeat_spec in Hh as ->.
  split; constructor.
Qed.

Lemma find_entry_None (chain : list Entry.t) (id : string) :
  find_entry chain id = None <-> ~ In id (List.map Entry.id chain).
Proof.
  induction chain as [|e rest IH]; simpl; [tauto|].
  destruct (String.eqb_spec (Entry.id e) id) as [Heq|Hne]; [split; [discriminate|tauto]|].
  rewrite IH; tauto.
Qed.

Lemma put_label_ok (map map' : LabelMap.t) (id : string) (command : nat) (ok : bool) :
  table_ok map ->
  put_label map id command = Ret (ok, map') ->
  table_ok map'.
Proof.
  intros Hok Hput.
  destruct (bucket_of_ok map id Hok) as (chain & Hb & Hchain).
  unfold put_label in Hput; rewrite Hb in Hput; cbn [bind] in Hput.
  destruct (find_entry chain id) eqn:Hfind; [congruence|].
  injection Hput as _ <-.
  destruct Hok as (Hcap & Hlen & Hbuckets).
  unfold table_ok; simpl.
  split; [exact Hcap|split; [rewrite length_insert; exact Hlen|]].
  intros h ch Hh.
  destruct (decide (h = bucket_index (LabelMap.capacity map) id)) as [->|Hne].
  - rewrite list_lookup_insert_eq in Hh by (eapply lookup_lt_Some; eassumption).
    injection Hh as <-.
    destruct (Hbuckets _ _ Hchain) as [Hall Hnodup].
    split; [constructor; [reflexivity|exact Hall]|].
    simpl; constructor; [|exact Hnodup].
    apply find_entry_None in Hfind.
    rewrite list_elem_of_In; exact Hfind.
  - rewrite list_lookup_insert_ne in Hh by congruence.
    apply Hbuckets; exact Hh.
Qed.

Lemma get_label_other (map map' : LabelMap.t) (id id' : string) (command : nat) (ok : bool) :
  put_label map id command = Ret (ok, map') ->
  id' <> id ->
  get_label map' id' = get_label map id'.
Proof.
  unfold put_label; intros Hput Hne.
  destruct (bucket_of map id) as [[hash chain]|] eqn:Hb; cbn [bind] in Hput; [|discriminate].
  destruct (find_entry chain id); [congruence|].
  injection Hput as _ <-.
  unfold bucket_of in Hb.
  destruct (to_uint64 (LabelMap.capacity map) =? 0) eqn:Hcap; [discriminate|].
  destruct (LabelMap.entries map !! _) as [ch|] eqn:Hchain; [|discriminate].
  injection Hb as <- <-.
  unfold get_label, bucket_of; simpl; rewrite Hcap.
  set (h := Z.to_nat (hash_function id mod _)) in *.
  set (h' := Z.to_nat (hash_function id' mod _)).
  destruct (decide (h' = h)) as [Heq|Hdiff].
  - rewrite Heq, list_lookup_insert_eq by (eapply lookup_lt_Some; eassumption).
    rewrite Hchain; cbn [bind snd]; simpl.
    destruct (String.eqb_spec id id') as [|_]; [congruence|reflexivity].
  - rewrite list_lookup_insert_ne by congruence; reflexivity.
Qed.

Lemma put_label_absent (map : LabelMap.t) (id : string) (command : nat) :
  get_label map id = Ret None ->
  exists map', put_label map id command = Ret (true, map').
Proof.
  unfold get_label, put_label; intros Hget.
  destruct (bucket_of map id) as [[hash chain]|]; cbn [bind snd] in *; [|discriminate].
  injection Hget as ->; eauto.
Qed.

Lemma put_label_true_absent (map map' : LabelMap.t) (id : string) (command : nat) :
  put_label map id command = Ret (true, map') -> get_label map id = Ret None.
Proof.
  unfold get_label, put_label; intros Hput.
  destruct (bucket_of map id) as [[hash chain]|]; cbn [bind snd] in *; [|discriminate].
  destruct (find_entry chain id); [discriminate|reflexivity].
Qed.

(** X2.  A call of [put_label] that returns succeeds exactly when the name
    was not in the table; the name is then found with the command given,
    a failed call leaves the table as it was, and in either case the
    lookup of every other name, in the same bucket or not, and the
    capacity are unchanged. *)
Theorem put_label_registers_one_name
    (map map' : LabelMap.t) (id : string) (command : nat) (ok : bool) :
  put_label map id command = Ret (ok, map') ->
  (ok = true <-> get_label map id = Ret None) /\
  (ok = true -> get_label map' id = Ret (Some (Entry.mk id command))) /\
  (ok = false -> map' = map) /\
  (forall id', id' <> id -> get_label map' id' = get_label map id') /\
  LabelMap.capacity map' = LabelMap.capacity map.
Proof.
  intros Hput.
  split; [|split; [|split; [|split]]].
  - destruct ok; split; try discriminate; try reflexivity.
    + intros _; eapply put_label_true_absent; eassumption.
    + intros Habs; destruct (put_label_absent map id command Habs); congruence.
  - intros ->; eapply get_label_put; eassumption.
  - intros ->; unfold put_label in Hput.
    destruct (bucket_of map id) as [[hash chain]|]; cbn [bind] in Hput; [|discriminate].
    destruct (find_entry chain id); congruence.
  - intros id' Hne; eapply get_label_other; eassumption.
  - unfold put_label in Hput.
    destruct (bucket_of map id) as [[hash chain]|]; cbn [bind] in Hput; [|discriminate].
    destruct (find_entry chain id); injection Hput as _ <-; reflexivity.
Qed.

Lemma get_label_defined (map : LabelMap.t) (id : string) :
  table_ok map -> exists r, get_label map id = Ret r.
Proof.
  intros Hok; destruct (bucket_of_ok map id Hok) as (chain & Hb & _).
  unfold get_label; rewrite Hb; cbn [bind]; eauto.
Qed.

Lemma put_label_defined (map : LabelMap.t) (id : string) (command : nat) :
  table_ok map -> exists ok map', put_label map id command = Ret (ok, map').
Proof.
  intros Hok; destruct (bucket_of_ok map id Hok) as (chain & Hb & _).
  unfold put_label; rewrite Hb; cbn [bind].
  destruct (find_entry chain id); eauto.
Qed.

(** X4.  A table with a positive capacity, that many buckets, every entry in
    the bucket of its name and no name twice in a bucket is what
    [label_map_init] gives and what [put_label] keeps; on such a table
    [put_label] and [get_label] never leave defined behaviour.  On a table
    released by [label_map_free], whose capacity is 0, both divide by
    zero. *)
Theorem label_table_stays_well_formed :
  (forall capacity, 0 < capacity < 2 ^ 31 -> table_ok (label_map_init capacity)) /\
  (forall map id command,
     table_ok map ->
     exists ok map', put_label map id command = Ret (ok, map') /\ table_ok map') /\
  (forall map id, table_ok map -> exists r, get_label map id = Ret r) /\
  (forall map id command,
     get_label (label_map_free map) id = Undef BadBucket /\
     put_label (label_map_free map) id command = Undef BadBucket).
Proof.
  split; [exact label_map_init_ok|split; [|split; [exact get_label_defined|]]].
  - intros map id command Hok.
    destruct (put_label_defined map id command Hok) as (ok & map' & Hput).
    exists ok, map'; split; [exact Hput|eapply put_label_ok; eassumption].
  - intros map id command; split; reflexivity.
Qed.

Lemma get_label_init (capacity : Z) (id : string) :
  0 < capacity < 2 ^ 31 -> get_label (label_map_init capacity) id = Ret None.
Proof.
  intros Hcap.
  destruct (bucket_of_ok _ id (label_map_init_ok capacity Hcap)) as (chain & Hb & Hchain).
  unfold get_label; rewrite Hb; cbn [bind snd].
  apply list_elem_of_lookup_2, list_elem_of_In, repeat_spec in Hchain as ->.
  reflexivity.
Qed.

Lemma put_labels_lookup (pairs : list (string * nat)) (map : LabelMap.t) :
  table_ok map ->
  exists map',
    put_labels map pairs = Ret map' /\ table_ok map' /\
    forall id,
      get_label map' id =
      match get_label map id with
      | Ret None => Ret (option_map (Entry.mk id) (first_registered pairs id))
      | r => r
      end.
Proof.
  revert map; induction pairs as [|[id command] rest IH]; intros map Hok.
  - exists map; split; [reflexivity|split; [exact Hok|]].
    intros id; destruct (get_label_defined map id Hok) as [[e|] ->]; reflexivity.
  - destruct (put_label_defined map id command Hok) as (ok & map1 & Hput).
    pose proof (put_label_ok _ _ _ _ _ Hok Hput) as Hok1.
    destruct (IH map1 Hok1) as (map' & Hputs & Hok' & Hget).
    exists map'; split; [simpl; rewrite Hput; exact Hputs|split; [exact Hok'|]].
    intros id'; rewrite Hget; simpl.
    destruct (String.eqb_spec id id') as [<-|Hne].
    + destruct ok.
      * rewrite (get_label_put _ _ _ _ Hput), (put_label_true_absent _ _ _ _ Hput).
        reflexivity.
      * destruct (get_label_defined map id Hok) as [[e|] Hg].
        -- pose proof (put_label_present _ _ command _ Hg) as Hp.
           assert (map1 = map) as -> by congruence.
           rewrite Hg; reflexivity.
        -- destruct (put_label_absent map id command Hg); congruence.
    + rewrite (get_label_other _ _ _ _ _ _ Hput) by congruence.
      reflexivity.
Qed.

(** X1.  In a table made by [label_map_init] with a positive capacity, any
    sequence of [put_label] calls returns, and [get_label] then finds for every name the command of the first call that registered
    it, and nothing for a name that was never registered. *)
Theorem first_registration_wins (capacity : Z) (pairs : list (string * nat)) :
  0 < capacity < 2 ^ 31 ->
  exists map,
    put_labels (label_map_init capacity) pairs = Ret map /\
    forall id,
      get_label map id = Ret (option_map (Entry.mk id) (first_registered pairs id)).
Proof.
  intros Hcap.
  destruct (put_labels_lookup pairs _ (label_map_init_ok capacity Hcap))
    as (map & Hputs & _ & Hget).
  exists map; split; [exact Hputs|].
  intros id; rewrite Hget, get_label_init by exact Hcap; reflexivity.
Qed.

(** ** Further properties of the interpreter *)

Section FurtherInterpreterProperties.
Context `{MemStore}.

Ltac exec_split H :=
  cbn [bind fst snd] in H;
  repeat match type of H with
  | context [fetch_number_value ?i ?o ?b] =>
      let Hf := fresh "Hfetch" in
      destruct (fetch_cases i o b) as [[? Hf]|(_ & _ & Hf)];
      rewrite Hf in H; cbn [bind fst snd] in H
  | context [get_label ?map ?id] =>
      let Hg := fresh "Hget" in
      destruct (get_label map id) eqn:Hg;
      [|pose proof (get_label_undef _ _ _ Hg); subst]; cbn [bind fst snd] in H
  | context [if ?c then _ else _] => destruct c eqn:?; cbn [bind fst snd] in H
  | context [match ?c with _ => _ end] => destruct c eqn:?; cbn [bind fst snd] in H
  end;
  try discriminate.

Ltac unfold_exec H :=
  unfold exec, exec_mov, exec_add_sub, exec_cmp, exec_bitwise, exec_shift, exec_load,
    exec_store, exec_put, exec_branch, exec_call, exec_ret, print_base, write_var,
    read_var, write_var_bytes in H.

(** A jump never comes with an error: an instruction that sets the error
    flag leaves [jumped] false. *)
Lemma exec_error_no_jump (m m' : Machine.t) (cmd : Command.t) (j : jump) :
  Interpreter.had_error (Machine.intr m) = false ->
  exec m cmd = Ret (m', j) ->
  Interpreter.had_error (Machine.intr m') = true ->
  j = Fallthrough /\
  Interpreter.the_stack (Machine.intr m') = Interpreter.the_stack (Machine.intr m).
Proof.
  intros He Hexec He'.
  unfold_exec Hexec.
  destruct (Command.type cmd); exec_split Hexec;
    inversion Hexec; subst; simpl in *; try congruence; auto.
Qed.

(** X6.  An instruction that sets the error flag never jumps and never
    changes the call stack: the instruction pointer stays on it, and the
    run ends there. *)
Theorem error_stops_at_failing_instruction
    (prog : store) (m m' : Machine.t) (current : nat) (next : option nat) :
  Interpreter.had_error (Machine.intr m) = false ->
  step prog m current = Ret (m', next) ->
  Interpreter.had_error (Machine.intr m') = true ->
  next = Some current /\
  Interpreter.the_stack (Machine.intr m') = Interpreter.the_stack (Machine.intr m) /\
  forall fuel,
    interpret_loop (S fuel) prog m (Some current) = Finished m' (Some current).
Proof.
  intros He Hstep He'.
  assert (next = Some current /\
          Interpreter.the_stack (Machine.intr m') = Interpreter.the_stack (Machine.intr m))
    as [-> Hstack].
  { unfold step in Hstep.
    destruct (prog !! current) as [cmd|]; [|discriminate].
    destruct (exec m cmd) as [[m1 j]|] eqn:Hexec; cbn [bind] in Hstep; [|discriminate].
    destruct j as [|target].
    - destruct (Interpreter.had_error (Machine.intr m1)) eqn:He1.
      + injection Hstep as <- <-.
        split; [reflexivity|eapply exec_error_no_jump; eassumption].
      + injection Hstep as <- _; congruence.
    - injection Hstep as <- _.
      destruct (exec_error_no_jump _ _ _ _ He Hexec He'); discriminate. }
  split; [reflexivity|split; [exact Hstack|]].
  intros fuel; eapply loop_stops_on_error; eassumption.
Qed.

(** X5.  After CMP of [a] and [b] the seven branch conditions hold exactly
    when the signed comparison they are named after holds between [a] and
    [b]; after CMP_U, when it holds between their unsigned
    reinterpretations.  The registers are unchanged and the run goes on
    with the next instruction. *)
Theorem branch_conditions_after_cmp
    (prog : store) (m : Machine.t) (current : nat) (cmd : Command.t) (a b : Z) :
  prog !! current = Some cmd ->
  Command.type cmd = CMD_CMP \/ Command.type cmd = CMD_CMP_U ->
  Interpreter.had_error (Machine.intr m) = false ->
  fetch_number_value (Machine.intr m) (Command.val_a cmd) false
    = Ret (Machine.intr m, a) ->
  fetch_number_value (Machine.intr m) (Command.val_b cmd) (Command.is_b_immediate cmd)
    = Ret (Machine.intr m, b) ->
  in_int64 a -> in_int64 b ->
  let x := if decide (Command.type cmd = CMD_CMP) then a else to_uint64 a in
  let y := if decide (Command.type cmd = CMD_CMP) then b else to_uint64 b in
  exists m',
    step prog m current = Ret (m', Command.next cmd) /\
    Interpreter.variables (Machine.intr m') = Interpreter.variables (Machine.intr m) /\
    cond_holds (Machine.intr m') BRANCH_ALWAYS = true /\
    cond_holds (Machine.intr m') BRANCH_EQUAL = (x =? y) /\
    cond_holds (Machine.intr m') BRANCH_NOT_EQUAL = negb (x =? y) /\
    cond_holds (Machine.intr m') BRANCH_GREATER = (x >? y) /\
    cond_holds (Machine.intr m') BRANCH_LESS = (x <? y) /\
    cond_holds (Machine.intr m') BRANCH_GREATER_EQUAL = (x >=? y) /\
    cond_holds (Machine.intr m') BRANCH_LESS_EQUAL = (x <=? y) /\
    cond_holds (Machine.intr m') BRANCH_NONE = false.
Proof.
  intros Hprog Htype He Ha Hb Hra Hrb x y.
  unfold step; rewrite Hprog.
  assert (exec m cmd
          = (r <- exec_cmp (Machine.intr m) cmd ;; Ret (Machine.set_intr (fst r) m, snd r)))
    as -> by (unfold exec; destruct Htype as [-> | ->]; reflexivity).
  unfold exec_cmp; rewrite Ha; cbn [bind]; rewrite Hb; cbn [bind]; rewrite He.
  cbn [bind fst snd]; simpl Interpreter.had_error; rewrite He.
  eexists; split; [reflexivity|]; simpl.
  assert (a = b <-> to_uint64 a = to_uint64 b) as Heq.
  { split; [congruence|]; intros Hu.
    rewrite <- (to_int64_small a Hra), <- (to_int64_small b Hrb).
    rewrite <- (to_int64_uint64 a), <- (to_int64_uint64 b); congruence. }
  subst x y; destruct (decide (Command.type cmd = CMD_CMP)).
  - rewrite Z.geb_leb.
    destruct (Z.gtb_spec a b), (Z.eqb_spec a b), (Z.ltb_spec a b), (Z.leb_spec a b),
      (Z.leb_spec b a); simpl; repeat split; try reflexivity; lia.
  - rewrite Z.geb_leb.
    destruct (Z.gtb_spec (to_uint64 a) (to_uint64 b)), (Z.eqb_spec a b),
      (Z.eqb_spec (to_uint64 a) (to_uint64 b)), (Z.ltb_spec (to_uint64 a) (to_uint64 b)),
      (Z.leb_spec (to_uint64 a) (to_uint64 b)), (Z.leb_spec (to_uint64 b) (to_uint64 a));
      simpl; repeat split; try reflexivity; try lia; tauto.
Qed.

(** How an instruction with a register as its destination, and its label
    if it is a BRANCH or a CALL, can leave defined behaviour. *)
Lemma exec_undefined (m : Machine.t) (cmd : Command.t) (why : ub) :
  executable cmd ->
  table_ok (Interpreter.label_map (Machine.intr m)) ->
  exec m cmd = Undef why ->
  (Command.type cmd = CMD_STORE /\ why = IntOverflow) \/
  (Command.type cmd = CMD_LOAD /\ why = RegWrite) \/
  (Command.type cmd = CMD_LSL /\ why = ShiftOverflow).
Proof.
  intros [Hdest Hlabel] Htable Hexec.
  unfold in_register_file in Hdest.
  assert (forall id, get_label (Interpreter.label_map (Machine.intr m)) id <> Undef BadBucket)
    as Hget.
  { intros id Hu; destruct (get_label_defined _ id Htable); congruence. }
  unfold_exec Hexec.
  destruct (Command.type cmd) eqn:Htype; unfold NUM_VARIABLES in *;
    exec_split Hexec; try lia;
    try (inversion Hexec; subst; auto; fail);
    try (exfalso; eapply Hget; eassumption);
    try (destruct Hlabel as [label Hl]; [auto|congruence]).
Qed.

End FurtherInterpreterProperties.

(** *** The binary representation and its buffer *)

Lemma length_string_of_list_ascii (l : list ascii) :
  String.length (string_of_list_ascii l) = length l.
Proof. induction l; simpl; congruence. Qed.

Lemma substring_string_of_list_ascii (n : nat) (l : list ascii) :
  String.substring 0 n (string_of_list_ascii l) = string_of_list_ascii (firstn n l).
Proof.
  revert l; induction n as [|n IH]; intros [|c l]; simpl; try reflexivity.
  rewrite IH; reflexivity.
Qed.

Lemma emit_bits_truncates (num : Z) (n : nat) (written : list ascii) (size : nat) :
  (length written < size)%nat ->
  emit_bits num n written size = firstn (size - 1) (written ++ low_bits num n).
Proof.
  revert written; induction n as [|i IH]; intros written Hlen; simpl.
  - rewrite app_nil_r, firstn_all2 by lia; reflexivity.
  - rewrite size_minus_one_pos, Nat2Z.id by lia.
    destruct (Z.leb_spec (Z.of_nat (size - 1)) (Z.of_nat (length written))).
    + rewrite firstn_app.
      replace (size - 1 - length written)%nat with O by lia.
      simpl; rewrite app_nil_r; reflexivity.
    + rewrite IH by (rewrite length_app; simpl; lia).
      rewrite bit_set_testbit, <- app_assoc; reflexivity.
Qed.

Lemma length_truncate (n : nat) (s : string) : (String.length (truncate n s) <= n)%nat.
Proof.
  unfold truncate; revert s; induction n as [|n IH]; intros [|c s]; simpl; try lia.
  specialize (IH s); lia.
Qed.

Lemma truncate_short (n : nat) (s : string) :
  (String.length s <= n)%nat -> truncate n s = s.
Proof.
  unfold truncate; revert n; induction s as [|c s IH]; intros [|n] Hle;
    simpl in *; try reflexivity; try lia.
  rewrite IH by lia; reflexivity.
Qed.

(** X12.  [to_binary_string] never writes beyond a buffer of 4 bytes or more:
    the text and its terminating NUL fit the buffer, the text being cut to
    what fits.  The text of a 64-bit number has at most 66 characters, so
    the 67-byte buffer of [print_base] is never too small. *)
Theorem to_binary_string_fits (num : Z) (size : nat) :
  0 <= num < 2 ^ 64 ->
  (4 <= size)%nat ->
  to_binary_string num size = truncate (size - 1) (to_binary_string num 67) /\
  (String.length (to_binary_string num size) < size)%nat /\
  (String.length (to_binary_string num 67) <= 66)%nat /\
  ((67 <= size)%nat -> to_binary_string num size = to_binary_string num 67).
Proof.
  intros Hnum Hsize.
  assert (to_binary_string num size = truncate (size - 1) (to_binary_string num 67) /\
          (String.length (to_binary_string num 67) <= 66)%nat) as [Htrunc Hlen].
  { unfold to_binary_string, truncate.
    destruct (Z.eqb_spec num 0) as [->|Hnz].
    - split; [|simpl; lia].
      destruct size as [|[|[|[|[|size]]]]]; try lia; simpl; reflexivity.
    - destruct (highest_bit_loop_spec num 64) as (h & -> & Hh & _); [simpl; lia|].
      rewrite substring_string_of_list_ascii, !emit_bits_truncates by (simpl; lia).
      rewrite !length_string_of_list_ascii.
      split.
      + f_equal; rewrite firstn_firstn.
        change (67 - 1)%nat with 66%nat.
        destruct (Nat.le_gt_cases (size - 1) 66); [rewrite Nat.min_l by lia; reflexivity|].
        rewrite Nat.min_r by lia.
        rewrite !firstn_all2; [reflexivity| |];
          rewrite length_app, length_low_bits; simpl; lia.
      + rewrite length_firstn; lia. }
  split; [exact Htrunc|split; [|split; [exact Hlen|]]].
  - rewrite Htrunc.
    pose proof (length_truncate (size - 1) (to_binary_string num 67)); lia.
  - intros Hbig; rewrite Htrunc; apply truncate_short; lia.
Qed.

(** *** Bitwise instructions *)

Lemma sign_bits_in_int64 (x : Z) :
  (forall j, 63 <= j -> Z.testbit x j = Z.testbit x 63) -> in_int64 x.
Proof.
  intros Hsign.
  assert (x = to_int64 x) as -> ; [|apply to_int64_range].
  apply Z.bits_inj'; intros i Hi.
  destruct (Z.lt_ge_cases i 64) as [Hlt|Hge].
  - rewrite testbit_to_int64 by lia; reflexivity.
  - rewrite (testbit_sign (to_int64 x) i (to_int64_range x)) by lia.
    rewrite <- (testbit_sign (to_int64 x) 63 (to_int64_range x)) by lia.
    rewrite testbit_to_int64 by lia; apply Hsign; lia.
Qed.

Lemma bitwise_in_int64 (f : Z -> Z -> Z) (g : bool -> bool -> bool) (a b : Z) :
  (forall i, 0 <= i -> Z.testbit (f a b) i = g (Z.testbit a i) (Z.testbit b i)) ->
  in_int64 a -> in_int64 b -> in_int64 (f a b).
Proof.
  intros Hbits Ha Hb; apply sign_bits_in_int64; intros j Hj.
  rewrite !Hbits by lia.
  rewrite (testbit_sign a j), (testbit_sign b j), (testbit_sign a 63), (testbit_sign b 63)
    by (assumption || lia).
  reflexivity.
Qed.

Section BitwiseInstructions.
Context `{MemStore}.

(** X8.  AND, EOR and ORR take both operands from registers, whatever the
    immediate flags of the command say; afterwards the destination
    register holds the value whose bits are the conjunction, the exclusive
    disjunction and the disjunction of the operands' bits in two's
    complement, a signed 64-bit value again, and nothing else has
    changed. *)
Theorem bitwise_instructions_on_registers
    (prog : store) (m : Machine.t) (current : nat) (cmd : Command.t) (a b : Z) :
  prog !! current = Some cmd ->
  Command.type cmd = CMD_AND \/ Command.type cmd = CMD_EOR \/ Command.type cmd = CMD_ORR ->
  Interpreter.had_error (Machine.intr m) = false ->
  length (Interpreter.variables (Machine.intr m)) = Z.to_nat NUM_VARIABLES ->
  in_register_file (Operand.num_val (Command.destination cmd)) ->
  fetch_number_value (Machine.intr m) (Command.val_a cmd) false = Ret (Machine.intr m, a) ->
  fetch_number_value (Machine.intr m) (Command.val_b cmd) false = Ret (Machine.intr m, b) ->
  in_int64 a -> in_int64 b ->
  let dest := Operand.num_val (Command.destination cmd) in
  exists m',
    step prog m current = Ret (m', Command.next cmd) /\
    other_registers_kept m m' dest /\
    rest_kept m m' /\
    let result := nth (Z.to_nat dest) (Interpreter.variables (Machine.intr m')) 0 in
    in_int64 result /\
    forall i, 0 <= i ->
      Z.testbit result i =
      match Command.type cmd with
      | CMD_AND => Z.testbit a i && Z.testbit b i
      | CMD_EOR => xorb (Z.testbit a i) (Z.testbit b i)
      | _ => Z.testbit a i || Z.testbit b i
      end.
Proof.
  intros Hprog Htype He Hlen Hdest Ha Hb Hra Hrb dest.
  assert (exists result : Z,
            step prog m current
            = Ret (Machine.set_intr
                     (Interpreter.set_variables
                        (<[Z.to_nat dest := result]> (Interpreter.variables (Machine.intr m)))
                        (Machine.intr m)) m,
                   Command.next cmd) /\
            in_int64 result /\
            forall i, 0 <= i ->
              Z.testbit result i =
              match Command.type cmd with
              | CMD_AND => Z.testbit a i && Z.testbit b i
              | CMD_EOR => xorb (Z.testbit a i) (Z.testbit b i)
              | _ => Z.testbit a i || Z.testbit b i
              end) as (result & Hstep & Hin & Hbits).
  { unfold step; rewrite Hprog.
    assert (exec m cmd
            = (r <- exec_bitwise (Machine.intr m) cmd ;;
               Ret (Machine.set_intr (fst r) m, snd r))) as ->
      by (unfold exec; destruct Htype as [-> | [-> | ->]]; reflexivity).
    unfold exec_bitwise; rewrite Ha; cbn [bind]; rewrite Hb; cbn [bind]; rewrite He.
    unfold write_var, in_register_file, NUM_VARIABLES in *.
    destruct (_ && _) eqn:Hin; [|lia].
    cbn [bind fst snd]; simpl Interpreter.had_error; rewrite He.
    eexists; split; [reflexivity|].
    destruct Htype as [Ht | [Ht | Ht]]; rewrite Ht;
      repeat (destruct (decide _) as [Heq|Hne]; try discriminate Heq;
              try (exfalso; apply Hne; reflexivity)).
    - split; [apply (bitwise_in_int64 Z.land andb); auto|]; intros; apply Z.land_spec.
    - split; [apply (bitwise_in_int64 Z.lxor xorb); auto|]; intros; apply Z.lxor_spec.
    - split; [apply (bitwise_in_int64 Z.lor orb); auto|]; intros; apply Z.lor_spec. }
  destruct (register_written m dest result) as (Hnth & Hothers & Hrest).
  { rewrite Hlen; unfold dest, in_register_file, NUM_VARIABLES in *; lia. }
  eexists; split; [exact Hstep|].
  split; [exact Hothers|split; [exact Hrest|]].
  cbv zeta; rewrite Hnth; auto.
Qed.

End BitwiseInstructions.

(** *** Memory instructions *)

Lemma le_value_shifts (v : Z) (n k : nat) :
  le_value (List.map (fun i => Z.land (Z.shiftr v (Z.of_nat i * 8)) 255) (seq k n))
  = Z.shiftr v (Z.of_nat k * 8) mod 2 ^ (8 * Z.of_nat n).
Proof.
  revert k; induction n as [|n IH]; intros k.
  - simpl; rewrite Z.mod_1_r; reflexivity.
  - cbn [seq List.map le_value]; rewrite IH.
    set (w := Z.shiftr v (Z.of_nat k * 8)).
    assert (Z.shiftr v (Z.of_nat (S k) * 8) = w / 256) as ->.
    { subst w; rewrite <- (Z.shiftr_div_pow2 _ 8), Z.shiftr_shiftr by lia.
      f_equal; lia. }
    change 255 with (Z.ones 8); rewrite Z.land_ones, Z.mod_mod by lia.
    change (2 ^ 8) with 256.
    replace (8 * Z.of_nat (S n)) with (8 + 8 * Z.of_nat n) by lia.
    rewrite Z.pow_add_r by lia; change (2 ^ 8) with 256.
    assert (0 < 2 ^ (8 * Z.of_nat n)) by (apply Z.pow_pos_nonneg; lia).
    rewrite Z.rem_mul_r by lia; reflexivity.
Qed.

Lemma le_value_le_bytes (n : nat) (v : Z) :
  le_value (le_bytes n v) = v mod 2 ^ (8 * Z.of_nat n).
Proof.
  revert v; induction n as [|n IH]; intros v.
  - simpl; rewrite Z.mod_1_r; reflexivity.
  - cbn [le_bytes le_value]; rewrite IH.
    change 255 with (Z.ones 8); rewrite Z.land_ones, Z.mod_mod by lia.
    rewrite Z.shiftr_div_pow2 by lia; change (2 ^ 8) with 256.
    replace (8 * Z.of_nat (S n)) with (8 + 8 * Z.of_nat n) by lia.
    rewrite Z.pow_add_r by lia; change (2 ^ 8) with 256.
    assert (0 < 2 ^ (8 * Z.of_nat n)) by (apply Z.pow_pos_nonneg; lia).
    rewrite Z.rem_mul_r by lia; reflexivity.
Qed.

Lemma length_le_bytes (n : nat) (v : Z) : length (le_bytes n v) = n.
Proof. revert v; induction n; intros v; simpl; congruence. Qed.

Lemma le_value_zeros (bs : list Z) (k : nat) :
  le_value (bs ++ repeat 0 k) = le_value bs.
Proof.
  induction bs as [|b bs IH]; simpl; [|rewrite IH; reflexivity].
  induction k as [|k IH]; simpl; [reflexivity|rewrite IH; reflexivity].
Qed.

Lemma le_value_bound (bs : list Z) : 0 <= le_value bs < 2 ^ (8 * Z.of_nat (length bs)).
Proof.
  induction bs as [|b bs IH]; [simpl; lia|].
  cbn [le_value length].
  replace (8 * Z.of_nat (S (length bs))) with (8 + 8 * Z.of_nat (length bs)) by lia.
  rewrite Z.pow_add_r by lia; change (2 ^ 8) with 256.
  pose proof (Z.mod_pos_bound b 256); nia.
Qed.

Lemma length_regs_bytes (variables : list Z) :
  length (regs_bytes variables) = (8 * length variables)%nat.
Proof.
  unfold regs_bytes; induction variables as [|v vs IH]; [reflexivity|].
  cbn [flat_map]; rewrite length_app, length_le_bytes, IH; simpl; lia.
Qed.

Lemma bytes_regs_app (vs : list Z) (n : nat) (rest : list Z) :
  Forall in_int64 vs ->
  bytes_regs (length vs + n) (regs_bytes vs ++ rest) = vs ++ bytes_regs n rest.
Proof.
  intros Hvs; induction Hvs as [|v vs Hv _ IH]; [reflexivity|].
  change (regs_bytes (v :: vs)) with (le_bytes 8 (to_uint64 v) ++ regs_bytes vs).
  rewrite <- app_assoc; cbn [length Nat.add bytes_regs].
  rewrite take_app_length' by (symmetry; apply length_le_bytes).
  rewrite drop_app_length' by (symmetry; apply length_le_bytes).
  rewrite IH, le_value_le_bytes.
  change (2 ^ (8 * Z.of_nat 8)) with (2 ^ 64).
  fold (to_uint64 (to_uint64 v)).
  rewrite !to_int64_uint64, to_int64_small by assumption; reflexivity.
Qed.

(** Up to 8 bytes copied to the address of a register that holds 0: the
    register gets their little-endian value, the others stay. *)
Lemma write_var_bytes_register (variables : list Z) (i : Z) (bs : list Z) :
  Forall in_int64 variables ->
  length variables = Z.to_nat NUM_VARIABLES ->
  in_register_file i ->
  (length bs <= 8)%nat ->
  write_var_bytes (<[Z.to_nat i := 0]> variables) i bs
  = Ret (<[Z.to_nat i := to_int64 (le_value bs)]> variables).
Proof.
  intros Hvs Hlen Hi Hbs; unfold write_var_bytes, in_register_file, NUM_VARIABLES in *.
  destruct (_ && _) eqn:Hcheck; [|lia]; clear Hcheck.
  f_equal.
  assert (Z.to_nat i < length variables)%nat as Hlt by lia.
  destruct (lookup_lt_is_Some_2 _ _ Hlt) as [v Hv].
  pose proof (take_drop_middle _ _ _ Hv) as Hsplit.
  rewrite length_insert.
  set (pre := take (Z.to_nat i) variables) in *.
  set (post := drop (S (Z.to_nat i)) variables) in *.
  assert (length pre = Z.to_nat i) as Hpre by (subst pre; rewrite length_take; lia).
  assert (Forall in_int64 pre /\ Forall in_int64 post) as [Hfpre Hfpost].
  { rewrite <- Hsplit in Hvs; apply Forall_app in Hvs as [? Hr].
    apply Forall_cons in Hr as [_ ?]; auto. }
  assert (<[Z.to_nat i := 0]> variables = pre ++ 0 :: post) as ->.
  { rewrite <- Hsplit, <- Hpre, insert_app_r_alt, Nat.sub_diag by lia; reflexivity. }
  assert (<[Z.to_nat i := to_int64 (le_value bs)]> variables
          = pre ++ to_int64 (le_value bs) :: post) as ->.
  { rewrite <- Hsplit at 1; rewrite <- Hpre, insert_app_r_alt, Nat.sub_diag by lia.
    reflexivity. }
  assert (regs_bytes (pre ++ 0 :: post)
          = regs_bytes pre ++ repeat 0 8 ++ regs_bytes post) as ->.
  { unfold regs_bytes; rewrite flat_map_app; reflexivity. }
  assert (length (regs_bytes pre) = Z.to_nat (8 * i)) as Hlpre
    by (rewrite length_regs_bytes; lia).
  rewrite <- Hlpre, take_app_length, <- drop_drop, drop_app_length.
  assert (skipn (length bs) (repeat 0 8 ++ regs_bytes post)
          = repeat 0 (8 - length bs) ++ regs_bytes post) as ->.
  { rewrite skipn_app, repeat_length.
    replace (length bs - 8)%nat with O by lia.
    f_equal; clear - Hbs.
    do 9 (destruct bs as [|? bs]; [reflexivity|]); simpl in Hbs; lia. }
  rewrite <- Hsplit, length_app; cbn [length].
  rewrite bytes_regs_app by assumption.
  f_equal; cbn [bytes_regs].
  assert (firstn 8 (bs ++ repeat 0 (8 - length bs) ++ regs_bytes post)
          = bs ++ repeat 0 (8 - length bs)) as ->.
  { rewrite app_assoc; apply take_app_length'.
    rewrite length_app, repeat_length; lia. }
  assert (skipn 8 (bs ++ repeat 0 (8 - length bs) ++ regs_bytes post) = regs_bytes post) as ->.
  { rewrite app_assoc; apply drop_app_length'.
    rewrite length_app, repeat_length; lia. }
  rewrite le_value_zeros; f_equal.
  rewrite <- (app_nil_r (regs_bytes post)), <- (Nat.add_0_r (length post)).
  rewrite bytes_regs_app by assumption; apply app_nil_r.
Qed.

Section MemoryInstructions.
Context `{MemStore}.

(** The buffer STORE hands to [mem_store]. *)
Lemma store_buffer (value bytes : Z) :
  store_width bytes ->
  let buffer :=
    List.map (fun i => Z.land (Z.shiftr value (Z.of_nat i * 8)) 255) (seq 0 (Z.to_nat bytes))
    ++ repeat 0 (8 - Z.to_nat bytes) in
  length buffer = 8%nat /\
  le_value (firstn (Z.to_nat bytes) buffer) = value mod 2 ^ (8 * bytes) /\
  skipn (Z.to_nat bytes) buffer = repeat 0 (8 - Z.to_nat bytes).
Proof.
  intros Hw buffer; subst buffer.
  assert (0 < bytes <= 8) as Hb by (unfold store_width in Hw; lia).
  split; [|split].
  - rewrite length_app, length_map, length_seq, repeat_length; lia.
  - rewrite take_app_length' by (rewrite length_map, length_seq; reflexivity).
    rewrite le_value_shifts, Z.shiftr_0_r, Z2Nat.id by lia; reflexivity.
  - rewrite drop_app_length' by (rewrite length_map, length_seq; reflexivity).
    reflexivity.
Qed.

Lemma store_width_check (bytes : Z) :
  negb ((bytes =? 1) || (bytes =? 2) || (bytes =? 4) || (bytes =? 8)) = false
  <-> store_width bytes.
Proof.
  unfold store_width.
  destruct (Z.eqb_spec bytes 1), (Z.eqb_spec bytes 2), (Z.eqb_spec bytes 4),
    (Z.eqb_spec bytes 8); simpl; split; intros; try discriminate; try lia; auto.
Qed.

(** X9.  STORE accepts the byte counts 1, 2, 4 and 8 only and refuses a store
    that ends beyond [MEM_CAPACITY]: in both cases it sets the error flag
    and does not call [mem_store].  Otherwise it hands [mem_store] a
    buffer of 8 bytes whose first [bytes] bytes are the low bytes of the
    register named by the destination operand, least significant first,
    the others 0; a failure of [mem_store] sets the error flag. *)
Theorem store_checks_and_encodes
    (prog : store) (m : Machine.t) (current : nat) (cmd : Command.t)
    (bytes offset : Z) :
  prog !! current = Some cmd ->
  Command.type cmd = CMD_STORE ->
  Interpreter.had_error (Machine.intr m) = false ->
  fetch_number_value (Machine.intr m) (Command.val_a cmd) (Command.is_a_immediate cmd)
    = Ret (Machine.intr m, bytes) ->
  fetch_number_value (Machine.intr m) (Command.val_b cmd) (Command.is_b_immediate cmd)
    = Ret (Machine.intr m, offset) ->
  let failed := Machine.set_intr (Interpreter.set_had_error true (Machine.intr m)) m in
  (~ store_width bytes -> step prog m current = Ret (failed, Some current)) /\
  (store_width bytes -> offset + bytes <= INT64_MAX -> MEM_CAPACITY < offset + bytes ->
   step prog m current = Ret (failed, Some current)) /\
  (store_width bytes -> offset + bytes <= INT64_MAX -> offset + bytes <= MEM_CAPACITY ->
   in_register_file (Operand.num_val (Command.destination cmd)) ->
   exists buffer : list Z,
     length buffer = 8%nat /\
     le_value (firstn (Z.to_nat bytes) buffer)
     = nth (Z.to_nat (Operand.num_val (Command.destination cmd)))
           (Interpreter.variables (Machine.intr m)) 0 mod 2 ^ (8 * bytes) /\
     skipn (Z.to_nat bytes) buffer = repeat 0 (8 - Z.to_nat bytes) /\
     step prog m current
     = match mem_store (Machine.mem m) buffer (to_uint64 offset) (to_uint64 bytes) with
       | Some mem' => Ret (Machine.set_mem mem' m, Command.next cmd)
       | None => Ret (failed, Some current)
       end).
Proof.
  intros Hprog Htype He Ha Hb failed.
  assert (Machine.set_intr (Machine.intr m) m = m) as Hm by (destruct m; reflexivity).
  unfold step; rewrite Hprog; unfold exec; rewrite Htype; unfold exec_store.
  rewrite Ha; cbn [bind]; rewrite Hb; cbn [bind]; rewrite Hm.
  split; [|split].
  - intros Hw.
    destruct (negb _) eqn:Hcheck; [|apply store_width_check in Hcheck; contradiction].
    cbn [bind]; reflexivity.
  - intros Hw Hno Hcap; apply store_width_check in Hw; rewrite Hw.
    destruct (Z.gtb_spec (offset + bytes) INT64_MAX); [lia|].
    destruct (Z.gtb_spec (offset + bytes) MEM_CAPACITY); [|lia].
    cbn [bind]; reflexivity.
  - intros Hw Hno Hcap Hdest.
    destruct (store_buffer
                (nth (Z.to_nat (Operand.num_val (Command.destination cmd)))
                   (Interpreter.variables (Machine.intr m)) 0) bytes Hw)
      as (Hlen & Hval & Hrest).
    eexists; split; [exact Hlen|split; [exact Hval|split; [exact Hrest|]]].
    apply store_width_check in Hw; rewrite Hw.
    destruct (Z.gtb_spec (offset + bytes) INT64_MAX); [lia|].
    destruct (Z.gtb_spec (offset + bytes) MEM_CAPACITY); [lia|].
    unfold read_var, in_register_file, NUM_VARIABLES in *.
    destruct (_ && _) eqn:Hin; [|lia].
    cbn [bind]; destruct (mem_store _ _ _ _); cbn [bind]; [|reflexivity].
    simpl; rewrite He; reflexivity.
Qed.

Lemma exec_load_spec (m : Machine.t) (cmd : Command.t) (bytes offset : Z) :
  Command.type cmd = CMD_LOAD ->
  fetch_number_value (Machine.intr m) (Command.val_b cmd) (Command.is_b_immediate cmd)
    = Ret (Machine.intr m, offset) ->
  fetch_number_value (Machine.intr m) (Command.val_a cmd) (Command.is_a_immediate cmd)
    = Ret (Machine.intr m, bytes) ->
  in_register_file (Operand.num_val (Command.destination cmd)) ->
  Forall in_int64 (Interpreter.variables (Machine.intr m)) ->
  length (Interpreter.variables (Machine.intr m)) = Z.to_nat NUM_VARIABLES ->
  let dest := Z.to_nat (Operand.num_val (Command.destination cmd)) in
  let set_dest v :=
    Interpreter.set_variables (<[dest := v]> (Interpreter.variables (Machine.intr m)))
      (Machine.intr m) in
  exec m cmd =
  match mem_load (Machine.mem m) (to_uint64 offset) (to_uint64 bytes) with
  | None => Ret (Machine.set_intr (Interpreter.set_had_error true (set_dest 0)) m, Fallthrough)
  | Some bs =>
      if decide (length bs <= 8)%nat then
        Ret (Machine.set_intr (set_dest (to_int64 (le_value bs))) m, Fallthrough)
      else exec m cmd
  end.
Proof.
  intros Htype Hb Ha Hdest Hvs Hlen dest set_dest.
  destruct (mem_load _ _ _) as [bs|] eqn:Hload.
  - destruct (decide _) as [Hbs|]; [|reflexivity].
    unfold exec; rewrite Htype; unfold exec_load.
    rewrite Hb; cbn [bind]; rewrite Ha; cbn [bind].
    unfold write_var; pose proof Hdest as Hd; unfold in_register_file, NUM_VARIABLES in Hd.
    destruct (_ && _) eqn:Hin; [|unfold NUM_VARIABLES in Hin; lia].
    cbn [bind]; rewrite Hload.
    rewrite write_var_bytes_register by assumption.
    cbn [bind]; reflexivity.
  - unfold exec; rewrite Htype; unfold exec_load.
    rewrite Hb; cbn [bind]; rewrite Ha; cbn [bind].
    unfold write_var; pose proof Hdest as Hd; unfold in_register_file, NUM_VARIABLES in Hd.
    destruct (_ && _) eqn:Hin; [|unfold NUM_VARIABLES in Hin; lia].
    cbn [bind]; rewrite Hload; reflexivity.
Qed.

(** X10.  LOAD sets the destination register to 0 before it calls [mem_load]:
    when [mem_load] fails the register holds 0 afterwards and the error
    flag is set; when it gives up to 8 bytes the register holds their
    little-endian value, which is not sign-extended when the bytes are
    fewer than 8.  No other register changes. *)
Theorem load_zero_extends
    (prog : store) (m : Machine.t) (current : nat) (cmd : Command.t)
    (bytes offset : Z) :
  prog !! current = Some cmd ->
  Command.type cmd = CMD_LOAD ->
  Interpreter.had_error (Machine.intr m) = false ->
  fetch_number_value (Machine.intr m) (Command.val_b cmd) (Command.is_b_immediate cmd)
    = Ret (Machine.intr m, offset) ->
  fetch_number_value (Machine.intr m) (Command.val_a cmd) (Command.is_a_immediate cmd)
    = Ret (Machine.intr m, bytes) ->
  in_register_file (Operand.num_val (Command.destination cmd)) ->
  Forall in_int64 (Interpreter.variables (Machine.intr m)) ->
  length (Interpreter.variables (Machine.intr m)) = Z.to_nat NUM_VARIABLES ->
  let dest := Operand.num_val (Command.destination cmd) in
  (mem_load (Machine.mem m) (to_uint64 offset) (to_uint64 bytes) = None ->
   exists m',
     step prog m current = Ret (m', Some current) /\
     Interpreter.had_error (Machine.intr m') = true /\
     nth (Z.to_nat dest) (Interpreter.variables (Machine.intr m')) 0 = 0 /\
     other_registers_kept m m' dest) /\
  (forall bs : list Z,
     mem_load (Machine.mem m) (to_uint64 offset) (to_uint64 bytes) = Some bs ->
     (length bs <= 8)%nat ->
     exists m',
       step prog m current = Ret (m', Command.next cmd) /\
       nth (Z.to_nat dest) (Interpreter.variables (Machine.intr m')) 0
       = to_int64 (le_value bs) /\
       other_registers_kept m m' dest /\
       rest_kept m m' /\
       ((length bs < 8)%nat ->
        to_int64 (le_value bs) = le_value bs /\
        0 <= le_value bs < 2 ^ (8 * Z.of_nat (length bs)))).
Proof.
  intros Hprog Htype He Hb Ha Hdest Hvs Hlen dest.
  pose proof (exec_load_spec m cmd bytes offset Htype Hb Ha Hdest Hvs Hlen) as Hexec.
  cbv zeta in Hexec; unfold step; rewrite Hprog.
  assert (Z.to_nat dest < length (Interpreter.variables (Machine.intr m)))%nat as Hlt.
  { rewrite Hlen; unfold dest, in_register_file, NUM_VARIABLES in *; lia. }
  split.
  - intros Hload; rewrite Hload in Hexec; rewrite Hexec.
    destruct (register_written m dest 0 Hlt) as (Hnth & Hothers & _).
    eexists; split; [reflexivity|].
    split; [reflexivity|split; [exact Hnth|exact Hothers]].
  - intros bs Hload Hbs; rewrite Hload in Hexec.
    destruct (decide _); [|lia].
    rewrite Hexec; cbn [bind]; simpl; rewrite He.
    destruct (register_written m dest (to_int64 (le_value bs)) Hlt) as (Hnth & Hothers & Hrest).
    eexists; split; [reflexivity|].
    split; [exact Hnth|split; [exact Hothers|split; [exact Hrest|]]].
    intros Hshort; pose proof (le_value_bound bs) as Hbound.
    split; [|exact Hbound].
    apply to_int64_small; unfold in_int64, INT64_MIN, INT64_MAX.
    assert (2 ^ (8 * Z.of_nat (length bs)) <= 2 ^ 56)
      by (apply Z.pow_le_mono_r; lia).
    lia.
Qed.

(** X11.  When the memory store gives back the bytes last stored at an
    address, a STORE of [bytes] bytes of a register followed by a LOAD of
    as many bytes from the same address leaves in the loaded register the
    stored value for 8 bytes, and the stored value modulo
    [2 ^ (8 * bytes)] for fewer; the other registers are as they were
    before the STORE. *)
Theorem store_then_load
    (prog : store) (m : Machine.t) (c_store c_load : nat) (st ld : Command.t)
    (bytes offset : Z) :
  prog !! c_store = Some st ->
  prog !! c_load = Some ld ->
  Command.type st = CMD_STORE ->
  Command.type ld = CMD_LOAD ->
  Interpreter.had_error (Machine.intr m) = false ->
  Forall in_int64 (Interpreter.variables (Machine.intr m)) ->
  length (Interpreter.variables (Machine.intr m)) = Z.to_nat NUM_VARIABLES ->
  in_register_file (Operand.num_val (Command.destination st)) ->
  in_register_file (Operand.num_val (Command.destination ld)) ->
  fetch_number_value (Machine.intr m) (Command.val_a st) (Command.is_a_immediate st)
    = Ret (Machine.intr m, bytes) ->
  fetch_number_value (Machine.intr m) (Command.val_b st) (Command.is_b_immediate st)
    = Ret (Machine.intr m, offset) ->
  fetch_number_value (Machine.intr m) (Command.val_a ld) (Command.is_a_immediate ld)
    = Ret (Machine.intr m, bytes) ->
  fetch_number_value (Machine.intr m) (Command.val_b ld) (Command.is_b_immediate ld)
    = Ret (Machine.intr m, offset) ->
  store_width bytes ->
  offset + bytes <= INT64_MAX ->
  offset + bytes <= MEM_CAPACITY ->
  (forall src mem',
     length src = 8%nat ->
     mem_store (Machine.mem m) src (to_uint64 offset) (to_uint64 bytes) = Some mem' ->
     reads_back mem' src (to_uint64 offset) (to_uint64 bytes)) ->
  forall m1,
    step prog m c_store = Ret (m1, Command.next st) ->
    Interpreter.had_error (Machine.intr m1) = false ->
    let value :=
      nth (Z.to_nat (Operand.num_val (Command.destination st)))
          (Interpreter.variables (Machine.intr m)) 0 in
    let loaded := to_int64 (value mod 2 ^ (8 * bytes)) in
    exists m2,
      step prog m1 c_load = Ret (m2, Command.next ld) /\
      nth (Z.to_nat (Operand.num_val (Command.destination ld)))
          (Interpreter.variables (Machine.intr m2)) 0 = loaded /\
      other_registers_kept m m2 (Operand.num_val (Command.destination ld)) /\
      Interpreter.had_error (Machine.intr m2) = false /\
      (bytes = 8 -> loaded = value) /\
      (bytes < 8 -> loaded = value mod 2 ^ (8 * bytes)).
Proof.
  intros Hst Hld Htst Htld He Hvs Hlen Hdst Hdld Hsa Hsb Hla Hlb Hw Hno Hcap Hback
    m1 Hstep He1 value loaded.
  assert (0 < bytes <= 8) as Hbytes by (unfold store_width in Hw; lia).
  assert (to_uint64 bytes = bytes) as Hub by (unfold to_uint64; apply Z.mod_small; lia).
  assert (Machine.set_intr (Machine.intr m) m = m) as Hm by (destruct m; reflexivity).
  (* the store *)
  unfold step in Hstep; rewrite Hst in Hstep; unfold exec in Hstep.
  rewrite Htst in Hstep; unfold exec_store in Hstep.
  rewrite Hsa in Hstep; cbn [bind] in Hstep; rewrite Hsb in Hstep; cbn [bind] in Hstep.
  rewrite Hm in Hstep.
  pose proof (proj2 (store_width_check bytes) Hw) as Hcheck; rewrite Hcheck in Hstep.
  destruct (Z.gtb_spec (offset + bytes) INT64_MAX); [lia|].
  destruct (Z.gtb_spec (offset + bytes) MEM_CAPACITY); [lia|].
  unfold read_var in Hstep; pose proof Hdst as Hd; unfold in_register_file in Hd.
  destruct (_ && _) eqn:Hin; [|unfold NUM_VARIABLES in Hin; lia].
  cbn [bind] in Hstep; fold value in Hstep.
  destruct (mem_store _ _ _ _) as [mem'|] eqn:Hstore; cbn [bind] in Hstep.
  2: { simpl in Hstep; injection Hstep as <- _; simpl in He1; discriminate. }
  simpl in Hstep; rewrite He in Hstep; injection Hstep as <-.
  destruct (store_buffer value bytes Hw) as (Hblen & Hbval & _).
  apply Hback in Hstore; [|exact Hblen]; unfold reads_back in Hstore.
  (* the load *)
  pose proof (exec_load_spec (Machine.set_mem mem' m) ld bytes offset Htld Hlb Hla Hdld Hvs Hlen)
    as Hexec.
  cbv zeta in Hexec; simpl Machine.mem in Hexec; rewrite Hstore in Hexec.
  destruct (decide _) as [_|Hlong].
  2: { exfalso; apply Hlong; rewrite length_take; lia. }
  unfold step; rewrite Hld, Hexec; cbn [bind]; simpl Interpreter.had_error; rewrite He.
  rewrite Hub, Hbval.
  destruct (register_written m (Operand.num_val (Command.destination ld)) loaded)
    as (Hnth & Hothers & _).
  { rewrite Hlen; unfold in_register_file, NUM_VARIABLES in *; lia. }
  eexists; split; [reflexivity|].
  split; [exact Hnth|split; [exact Hothers|split; [exact He|split]]].
  - intros ->; subst loaded; change (2 ^ (8 * 8)) with (2 ^ 64).
    fold (to_uint64 value); rewrite to_int64_uint64; apply to_int64_small.
    subst value; destruct (nth_in_or_default
      (Z.to_nat (Operand.num_val (Command.destination st)))
      (Interpreter.variables (Machine.intr m)) 0) as [Hin'| ->].
    + rewrite Forall_forall in Hvs; apply Hvs, list_elem_of_In; exact Hin'.
    + unfold in_int64, INT64_MIN, INT64_MAX; lia.
  - intros Hlt; subst loaded; apply to_int64_small.
    unfold in_int64, INT64_MIN, INT64_MAX.
    assert (0 < 2 ^ (8 * bytes)) by (apply Z.pow_pos_nonneg; lia).
    pose proof (Z.mod_pos_bound value (2 ^ (8 * bytes)) ltac:(lia)).
    assert (2 ^ (8 * bytes) <= 2 ^ 56) by (apply Z.pow_le_mono_r; lia).
    lia.
Qed.

End MemoryInstructions.

(** *** Where the interpreter can leave defined behaviour *)

Section UndefinedBehaviour.
Context `{MemStore}.

(** A fetch always returns. *)
Lemma fetch_returns (intr : Interpreter.t) (op : Operand.t) (is_im : bool) :
  exists intr' v, fetch_number_value intr op is_im = Ret (intr', v).
Proof.
  destruct (fetch_cases intr op is_im) as [[v Hv]|(_ & _ & Hv)]; eauto.
Qed.

(** X7.  An instruction whose destination is a register, and which has its
    label if it is a BRANCH or a CALL, run with a well-formed label
    table, can leave defined behaviour in three ways only.  STORE: both
    operands are fetched without error, the byte count is one of 1, 2, 4
    and 8, and the signed addition [offset + bytes] of the bounds test
    overflows.  LOAD: [mem_load] gives bytes that do not fit between the
    destination register and the end of the register file.  LSL: both
    operands are fetched without error, the amount is in 0..63, and the
    first operand is negative or [a * 2^b] is not a signed 64-bit
    value. *)
Theorem exec_undefined_only (m : Machine.t) (cmd : Command.t) (why : ub) :
  executable cmd ->
  table_ok (Interpreter.label_map (Machine.intr m)) ->
  exec m cmd = Undef why ->
  (Command.type cmd = CMD_STORE /\ why = IntOverflow /\
   exists bytes offset : Z,
     fetch_number_value (Machine.intr m) (Command.val_a cmd) (Command.is_a_immediate cmd)
       = Ret (Machine.intr m, bytes) /\
     fetch_number_value (Machine.intr m) (Command.val_b cmd) (Command.is_b_immediate cmd)
       = Ret (Machine.intr m, offset) /\
     store_width bytes /\
     INT64_MAX < offset + bytes) \/
  (Command.type cmd = CMD_LOAD /\ why = RegWrite /\
   exists (intr1 intr2 : Interpreter.t) (offset bytes : Z) (bs : list Z),
     fetch_number_value (Machine.intr m) (Command.val_b cmd) (Command.is_b_immediate cmd)
       = Ret (intr1, offset) /\
     fetch_number_value intr1 (Command.val_a cmd) (Command.is_a_immediate cmd)
       = Ret (intr2, bytes) /\
     mem_load (Machine.mem m) (to_uint64 offset) (to_uint64 bytes) = Some bs /\
     8 * NUM_VARIABLES
     < 8 * Operand.num_val (Command.destination cmd) + Z.of_nat (length bs)) \/
  (Command.type cmd = CMD_LSL /\ why = ShiftOverflow /\
   exists a b : Z,
     fetch_number_value (Machine.intr m) (Command.val_a cmd) false
       = Ret (Machine.intr m, a) /\
     fetch_number_value (Machine.intr m) (Command.val_b cmd) (Command.is_b_immediate cmd)
       = Ret (Machine.intr m, b) /\
     0 <= b <= 63 /\
     (a < 0 \/ INT64_MAX < a * 2 ^ b)).
Proof.
  intros Hex Htable Hexec.
  pose proof Hex as [Hdest _]; unfold in_register_file in Hdest.
  destruct (exec_undefined m cmd why Hex Htable Hexec) as [[Ht ->]|[[Ht ->]|[Ht ->]]];
    unfold exec in Hexec; rewrite Ht in Hexec.
  - left; split; [exact Ht|split; [reflexivity|]].
    unfold exec_store in Hexec.
    destruct (fetch_cases (Machine.intr m) (Command.val_a cmd) (Command.is_a_immediate cmd))
      as [[bytes Ha]|(_ & _ & Ha)]; rewrite Ha in Hexec; cbn [bind] in Hexec.
    + destruct (fetch_cases (Machine.intr m) (Command.val_b cmd)
                  (Command.is_b_immediate cmd))
        as [[offset Hb]|(_ & _ & Hb)]; rewrite Hb in Hexec; cbn [bind] in Hexec.
      * destruct (negb _) eqn:Hw in Hexec; [discriminate|].
        apply store_width_check in Hw.
        exists bytes, offset; split; [exact Ha|split; [exact Hb|split; [exact Hw|]]].
        destruct (Z.gtb_spec (offset + bytes) INT64_MAX); [assumption|].
        exfalso.
        destruct (_ >? _) in Hexec; [discriminate|].
        unfold read_var in Hexec.
        destruct (_ && _) in Hexec; cbn [bind] in Hexec; [|discriminate].
        destruct (mem_store _ _ _ _) in Hexec; discriminate.
      * exfalso.
        destruct (negb _) eqn:Hw in Hexec; [discriminate|].
        apply store_width_check in Hw; unfold store_width in Hw.
        destruct (Z.gtb_spec (0 + bytes) INT64_MAX); [unfold INT64_MAX in *; lia|].
        destruct (_ >? _) in Hexec; [discriminate|].
        unfold read_var in Hexec.
        destruct (_ && _) in Hexec; cbn [bind] in Hexec; [|discriminate].
        destruct (mem_store _ _ _ _) in Hexec; discriminate.
    + exfalso.
      destruct (fetch_cases (Interpreter.set_had_error true (Machine.intr m))
                  (Command.val_b cmd) (Command.is_b_immediate cmd))
        as [[offset Hb]|(_ & _ & Hb)]; rewrite Hb in Hexec; cbn [bind] in Hexec;
        (destruct (negb _) eqn:Hw in Hexec; [discriminate|]);
        vm_compute in Hw; discriminate.
  - right; left; split; [exact Ht|split; [reflexivity|]].
    unfold exec_load in Hexec.
    destruct (fetch_returns (Machine.intr m) (Command.val_b cmd)
                (Command.is_b_immediate cmd)) as (intr1 & offset & Hb).
    rewrite Hb in Hexec; cbn [bind] in Hexec.
    destruct (fetch_returns intr1 (Command.val_a cmd) (Command.is_a_immediate cmd))
      as (intr2 & bytes & Ha).
    rewrite Ha in Hexec; cbn [bind] in Hexec.
    unfold write_var in Hexec.
    destruct (_ && _) eqn:Hin in Hexec; cbn [bind] in Hexec;
      [|unfold NUM_VARIABLES in *; lia].
    destruct (mem_load _ _ _) as [bs|] eqn:Hload; [|discriminate].
    exists intr1, intr2, offset, bytes, bs.
    split; [exact Hb|split; [exact Ha|split; [exact Hload|]]].
    unfold write_var_bytes in Hexec.
    destruct (_ && _) eqn:Hfit in Hexec; [discriminate|].
    unfold NUM_VARIABLES in *; lia.
  - right; right; split; [exact Ht|split; [reflexivity|]].
    unfold exec_shift in Hexec.
    destruct (fetch_returns (Machine.intr m) (Command.val_a cmd) false)
      as (intr1 & a & Ha).
    rewrite Ha in Hexec; cbn [bind] in Hexec.
    destruct (fetch_returns intr1 (Command.val_b cmd) (Command.is_b_immediate cmd))
      as (intr2 & b & Hb).
    rewrite Hb in Hexec; cbn [bind] in Hexec.
    destruct (Interpreter.had_error intr2) eqn:He; [discriminate|].
    destruct (fetch_pair _ _ _ _ _ _ _ _ _ Ha Hb He) as [-> ->].
    destruct (_ || _) eqn:Hchk in Hexec; [discriminate|].
    rewrite Ht in Hexec; simpl in Hexec.
    exists a, b; split; [exact Ha|split; [exact Hb|split; [lia|]]].
    destruct (_ || _) eqn:Hover in Hexec.
    + rewrite Z.shiftl_mul_pow2 in Hover by lia; lia.
    + exfalso; unfold write_var in Hexec.
      destruct (_ && _) eqn:Hin in Hexec; cbn [bind] in Hexec;
        [discriminate|unfold NUM_VARIABLES in *; lia].
Qed.

End UndefinedBehaviour.

(** ** Decimal literals and register names *)

Lemma uint_value_pos (d : Decimal.uint) (p : positive) :
  uint_value d (Z.pos p) = Z.pos (Pos.of_uint_acc d p).
Proof.
  revert p; induction d; intros p; simpl; try reflexivity;
    rewrite <- IHd; f_equal; lia.
Qed.

Lemma uint_value_0 (d : Decimal.uint) : uint_value d 0 = Z.of_N (Pos.of_uint d).
Proof.
  induction d; simpl; try reflexivity; try exact IHd; apply uint_value_pos.
Qed.

Lemma uint_value_to_uint (p : positive) : uint_value (Pos.to_uint p) 0 = Z.pos p.
Proof. rewrite uint_value_0, DecimalPos.Unsigned.of_to; reflexivity. Qed.

Lemma append_cons (c : ascii) (s r : string) : String c s +:+ r = String c (s +:+ r).
Proof. reflexivity. Qed.

Lemma read_digits_uint (d : Decimal.uint) (rest : string) (acc : Z) :
  ends_number rest ->
  read_digits 10 (DecimalString.NilEmpty.string_of_uint d +:+ rest) acc
  = (uint_value d acc, String.length (DecimalString.NilEmpty.string_of_uint d)).
Proof.
  intros Hrest; revert acc; induction d; intros acc;
    try (cbn [DecimalString.NilEmpty.string_of_uint String.length uint_value];
         rewrite append_cons; cbn [read_digits];
         change (digit_value _) with (Some 0) || change (digit_value _) with (Some 1)
         || change (digit_value _) with (Some 2) || change (digit_value _) with (Some 3)
         || change (digit_value _) with (Some 4) || change (digit_value _) with (Some 5)
         || change (digit_value _) with (Some 6) || change (digit_value _) with (Some 7)
         || change (digit_value _) with (Some 8) || change (digit_value _) with (Some 9);
         cbv iota beta;
         match goal with |- context [?a <? 10] => change (a <? 10) with true end;
         cbv iota; rewrite IHd; reflexivity).
  simpl; apply read_digits_stop, ends_number_base; [lia|exact Hrest].
Qed.

(** The text of a decimal numeral starts with a digit, and its second
    character, if it has one, is a digit too. *)
Lemma string_of_uint_digits (d : Decimal.uint) (rest : string) :
  d <> Decimal.Nil ->
  is_digit 10 (first_char (DecimalString.NilEmpty.string_of_uint d +:+ rest)) = true /\
  ((2 <= String.length (DecimalString.NilEmpty.string_of_uint d))%nat ->
   is_digit 10
     (first_char (advance_ptr (DecimalString.NilEmpty.string_of_uint d +:+ rest) 1)) = true).
Proof.
  intros Hd.
  assert (forall d', d' <> Decimal.Nil ->
            is_digit 10 (first_char (DecimalString.NilEmpty.string_of_uint d' +:+ rest))
            = true) as Hfirst
    by (intros [] Hn; try reflexivity; contradiction).
  split; [apply Hfirst, Hd|].
  destruct d; try contradiction;
    (destruct d; [simpl; lia|..]; intros _; reflexivity).
Qed.

Lemma strtoll_digits (s : string) (base : Z) :
  base <> 16 ->
  is_digit 10 (first_char s) = true ->
  strtoll s base =
  match read_digits base s 0 with
  | (_, O) => (0, O)
  | (v, S n) => (clamp_int64 v, S n)
  end.
Proof.
  intros Hbase Hfirst.
  destruct s as [|c s]; [discriminate|].
  apply Z.eqb_neq in Hbase.
  destruct c as [[] [] [] [] [] [] [] []]; try discriminate Hfirst; clear Hfirst;
    unfold strtoll; cbn [skip_space]; change (isspace _) with false;
    cbv beta iota zeta;
    try (destruct s as [|x [|h r]]; rewrite ?Hbase; cbn [andb]; cbv beta iota zeta);
    destruct (read_digits base _ 0) as [v [|n]]; reflexivity.
Qed.

Lemma strtoll_minus_digits (s : string) (base : Z) :
  base <> 16 ->
  is_digit 10 (first_char s) = true ->
  strtoll (String "-" s) base =
  match read_digits base s 0 with
  | (_, O) => (0, O)
  | (v, S n) => (clamp_int64 (- v), S (S n))
  end.
Proof.
  intros Hbase Hfirst.
  destruct s as [|c s]; [discriminate|].
  apply Z.eqb_neq in Hbase.
  destruct c as [[] [] [] [] [] [] [] []]; try discriminate Hfirst; clear Hfirst;
    unfold strtoll; cbn [skip_space]; change (isspace _) with false;
    cbv beta iota zeta;
    try (destruct s as [|x [|h r]]; rewrite ?Hbase; cbn [andb]; cbv beta iota zeta);
    destruct (read_digits base _ 0) as [v [|n]]; reflexivity.
Qed.

(** [strtoll] on the text [printf] writes for [%PRId64], followed by
    anything that is not a digit. *)
Lemma strtoll_format_PRId64 (value : Z) (rest : string) :
  ends_number rest ->
  strtoll (format_PRId64 value +:+ rest) 10
  = (clamp_int64 value, String.length (format_PRId64 value)).
Proof.
  intros Hrest; unfold format_PRId64.
  destruct value as [|p|p]; cbn [Z.to_int DecimalString.NilZero.string_of_int].
  - change (DecimalString.NilZero.string_of_uint (Decimal.D0 Decimal.Nil))
      with (DecimalString.NilEmpty.string_of_uint (Decimal.D0 Decimal.Nil)).
    rewrite strtoll_digits by (try lia; reflexivity).
    rewrite read_digits_uint by assumption; reflexivity.
  - pose proof (DecimalPos.Unsigned.to_uint_nonnil p) as Hnn.
    assert (DecimalString.NilZero.string_of_uint (Pos.to_uint p)
            = DecimalString.NilEmpty.string_of_uint (Pos.to_uint p)) as ->
      by (destruct (Pos.to_uint p); [contradiction|reflexivity..]).
    rewrite strtoll_digits
      by (try lia; apply (string_of_uint_digits _ rest Hnn)).
    rewrite read_digits_uint, uint_value_to_uint by assumption.
    destruct (String.length _) eqn:Hlen; [|reflexivity].
    destruct (Pos.to_uint p); try contradiction; discriminate.
  - pose proof (DecimalPos.Unsigned.to_uint_nonnil p) as Hnn.
    assert (DecimalString.NilZero.string_of_uint (Pos.to_uint p)
            = DecimalString.NilEmpty.string_of_uint (Pos.to_uint p)) as ->
      by (destruct (Pos.to_uint p); [contradiction|reflexivity..]).
    change (String "-" ?s +:+ rest) with (String "-" (s +:+ rest)).
    rewrite strtoll_minus_digits
      by (try lia; apply (string_of_uint_digits _ rest Hnn)).
    rewrite read_digits_uint, uint_value_to_uint by assumption.
    cbn [String.length].
    destruct (String.length _) eqn:Hlen; [|reflexivity].
    destruct (Pos.to_uint p); try contradiction; discriminate.
Qed.

Lemma clamp_int64_small (v : Z) : in_int64 v -> clamp_int64 v = v.
Proof. unfold clamp_int64, in_int64; lia. Qed.

Lemma format_PRId64_second (value : Z) (rest : string) :
  (3 <= String.length (format_PRId64 value))%nat ->
  ~ exists digits, format_PRId64 value +:+ rest = "0x" +:+ digits \/
                   format_PRId64 value +:+ rest = "0b" +:+ digits.
Proof.
  unfold format_PRId64; intros Hlen [digits Hd].
  destruct value as [|p|p]; cbn [Z.to_int DecimalString.NilZero.string_of_int] in *.
  - simpl in Hlen; lia.
  - pose proof (DecimalPos.Unsigned.to_uint_nonnil p) as Hnn.
    assert (DecimalString.NilZero.string_of_uint (Pos.to_uint p)
            = DecimalString.NilEmpty.string_of_uint (Pos.to_uint p)) as Heq
      by (destruct (Pos.to_uint p); [contradiction|reflexivity..]).
    rewrite Heq in *.
    destruct (string_of_uint_digits _ rest Hnn) as [_ Hsecond].
    specialize (Hsecond ltac:(lia)).
    destruct Hd as [Hd|Hd]; rewrite Hd in Hsecond; discriminate.
  - destruct Hd as [Hd|Hd]; discriminate.
Qed.

(** X13.  [parse_number] reads the text that PRINT writes for a value in base
    [d] back as that value.  The text of a number outside the range of
    [int64_t] is accepted too, and read as [INT64_MAX] or [INT64_MIN]:
    [parse_number] does not report the overflow. *)
Theorem decimal_text_parses_back (type : TokenType) (value : Z) (rest : string) :
  ends_number rest ->
  parse_number
    (Token.mk type (format_PRId64 value +:+ rest) (String.length (format_PRId64 value)))
  = Some (clamp_int64 value) /\
  (in_int64 value -> clamp_int64 value = value) /\
  (INT64_MAX < value -> clamp_int64 value = INT64_MAX) /\
  (value < INT64_MIN -> clamp_int64 value = INT64_MIN).
Proof.
  intros Hrest; split; [|unfold clamp_int64, in_int64, INT64_MIN, INT64_MAX; lia].
  rewrite parse_number_decimal.
  - cbn [Token.lexeme]; rewrite strtoll_format_PRId64 by assumption.
    unfold whole_token; cbn [Token.length fst snd Nat.add].
    rewrite Nat.eqb_refl; reflexivity.
  - cbn [Token.lexeme Token.length]; intros [Hlen Hd].
    exact (format_PRId64_second value rest Hlen Hd).
Qed.

(** X14.  [parse_variable] gives register numbers from 0 to 31 only: the name
    made of one character and the decimal text of [n] is the register [n]
    when [n] is from 0 to 31 and is refused otherwise. *)
Theorem register_names_x0_to_x31 :
  (forall (token : Token.t) (n : Z),
     parse_variable token = Some n -> in_register_file n) /\
  (forall (type : TokenType) (c : ascii) (n : Z) (rest : string),
     ends_number rest ->
     parse_variable
       (Token.mk type (String c (format_PRId64 n +:+ rest))
          (1 + String.length (format_PRId64 n)))
     = if (0 <=? n) && (n <=? 31) then Some n else None).
Proof.
  split.
  - intros token n; unfold parse_variable, in_register_file.
    destruct (strtol _ 10) as [tempnum consumed].
    destruct (negb _ || (tempnum <? 0) || (tempnum >? 31)) eqn:Hcheck; [discriminate|].
    intros [= <-]; lia.
  - intros type c n rest Hrest; unfold parse_variable, strtol.
    cbn [Token.lexeme Token.length advance_ptr].
    rewrite strtoll_format_PRId64 by assumption.
    rewrite Nat.eqb_refl; cbn [negb orb].
    unfold clamp_int64, INT64_MIN, INT64_MAX.
    destruct (Z.leb_spec 0 n), (Z.leb_spec n 31); cbn [andb];
      destruct (Z.ltb_spec (Z.max (- 2 ^ 63) (Z.min (2 ^ 63 - 1) n)) 0);
      destruct (Z.gtb_spec (Z.max (- 2 ^ 63) (Z.min (2 ^ 63 - 1) n)) 31);
      cbn [orb]; try lia; try reflexivity.
    f_equal; lia.
Qed.

(** ** The store of commands the parser builds *)

Lemma skip_nls_keeps (parser : Parser.t) :
  Parser.heap (skip_nls parser) = Parser.heap parser /\
  Parser.had_error (skip_nls parser) = Parser.had_error parser /\
  Parser.label_map (skip_nls parser) = Parser.label_map parser.
Proof.
  remember (tokens_left parser) as n eqn:Hn; revert parser Hn.
  induction n as [n IH] using lt_wf_ind; intros parser ->.
  rewrite skip_nls_eq; destruct (decide _) as [Hnl|]; [|auto].
  destruct (advance_keeps parser) as (Hh & He & Hm).
  destruct (IH (tokens_left (advance parser))
              ltac:(apply tokens_left_advance, bool_decide_eq_false; congruence)
              (advance parser) eq_refl) as (Hh' & He' & Hm').
  repeat split; congruence.
Qed.

Lemma building_same (type : CommandType) (heap0 : store) (map0 : LabelMap.t)
    (parser parser' : Parser.t) :
  Parser.heap parser' = Parser.heap parser ->
  Parser.label_map parser' = Parser.label_map parser ->
  building type heap0 map0 parser -> building type heap0 map0 parser'.
Proof. intros Hh Hm [Hmap Hc]; split; [congruence|rewrite Hh; exact Hc]. Qed.

Lemma building_advance type heap0 map0 parser :
  building type heap0 map0 parser -> building type heap0 map0 (advance parser).
Proof. destruct (advance_keeps parser) as (? & _ & ?); apply building_same; assumption. Qed.

Lemma building_skip_nls type heap0 map0 parser :
  building type heap0 map0 parser -> building type heap0 map0 (skip_nls parser).
Proof. destruct (skip_nls_keeps parser) as (? & _ & ?); apply building_same; assumption. Qed.

Lemma building_assign type heap0 map0 parser (f : Command.t -> Command.t) :
  keeps_shape f ->
  building type heap0 map0 parser ->
  building type heap0 map0 (assign (length heap0) f parser).
Proof.
  intros Hf [Hmap (c & Hheap & Hty & Hnext & Hdest)]; split; [exact Hmap|].
  exists (f c); unfold assign; simpl; rewrite Hheap.
  destruct (Hf c) as (Hty' & Hnext' & Hdest').
  split; [|split; [congruence|split; [congruence|auto]]].
  rewrite alter_app_r_alt, Nat.sub_diag by lia; reflexivity.
Qed.

Lemma building_abandoned type heap0 map0 parser :
  building type heap0 map0 parser ->
  abandoned heap0 map0 (Parser.set_had_error true parser).
Proof. intros [Hmap (c & Hheap & _)]; split; [exact Hmap|right; exists c; exact Hheap]. Qed.

Lemma built_bail_out type heap0 map0 parser :
  building type heap0 map0 parser ->
  built type heap0 map0 (bail_out (length heap0) parser).
Proof. apply building_abandoned. Qed.

Lemma keeps_shape_val_a (op : Operand.t) : keeps_shape (Command.set_val_a op).
Proof. intros c; auto. Qed.

Lemma keeps_shape_val_b (op : Operand.t) : keeps_shape (Command.set_val_b op).
Proof. intros c; auto. Qed.

Lemma keeps_shape_is_a_immediate (b : bool) : keeps_shape (Command.set_is_a_immediate b).
Proof. intros c; auto. Qed.

Lemma keeps_shape_is_b_immediate (b : bool) : keeps_shape (Command.set_is_b_immediate b).
Proof. intros c; auto. Qed.

Lemma keeps_shape_is_a_string (b : bool) : keeps_shape (Command.set_is_a_string b).
Proof. intros c; auto. Qed.

Lemma keeps_shape_branch_condition (bc : BranchCondition) :
  keeps_shape (Command.set_branch_condition bc).
Proof. intros c; auto. Qed.

Lemma keeps_shape_destination (op : Operand.t) :
  in_register_file (Operand.num_val op) -> keeps_shape (Command.set_destination op).
Proof. intros Hop c; auto. Qed.

Lemma keeps_shape_label (str : string) :
  keeps_shape
    (fun c => Command.set_val_a (Operand.set_str_val (Some str) (Command.val_a c)) c).
Proof. intros c; auto. Qed.

Lemma parse_variable_in_range (token : Token.t) (n : Z) :
  parse_variable token = Some n -> in_register_file n.
Proof.
  unfold parse_variable, in_register_file.
  destruct (strtol _ 10) as [tempnum consumed].
  destruct (negb _ || (tempnum <? 0) || (tempnum >? 31)) eqn:Hcheck; [discriminate|].
  intros [= <-]; lia.
Qed.

Lemma parse_variable_operand_range parser op op' parser' :
  parse_variable_operand parser op = Some (op', parser') ->
  in_register_file (Operand.num_val op') /\ parser' = advance parser.
Proof.
  unfold parse_variable_operand; intros Hp.
  destruct (_ || _); [discriminate|].
  destruct (parse_variable _) as [n|] eqn:Hn; [|discriminate].
  apply parse_variable_in_range in Hn.
  inversion Hp; subst; auto.
Qed.

Lemma built_variable_into type heap0 map0 get set parser k :
  (forall op, in_register_file (Operand.num_val op) -> keeps_shape (set op)) ->
  building type heap0 map0 parser ->
  (forall parser', building type heap0 map0 parser' -> built type heap0 map0 (k parser')) ->
  built type heap0 map0 (variable_into get set (length heap0) parser k).
Proof.
  intros Hset Hb Hk; unfold variable_into.
  destruct (parse_variable_operand _ _) as [[op parser']|] eqn:Hv;
    [|apply built_bail_out; exact Hb].
  apply parse_variable_operand_range in Hv as [Hop ->].
  apply Hk, building_assign; [apply Hset, Hop|apply building_advance, Hb].
Qed.

Lemma built_var_or_imm_into type heap0 map0 get set set_flag parser k :
  (forall op, keeps_shape (set op)) ->
  (forall b, keeps_shape (set_flag b)) ->
  building type heap0 map0 parser ->
  (forall parser', building type heap0 map0 parser' -> built type heap0 map0 (k parser')) ->
  built type heap0 map0 (var_or_imm_into get set set_flag (length heap0) parser k).
Proof.
  intros Hset Hflag Hb Hk; unfold var_or_imm_into.
  destruct (parse_var_or_imm _ _) as [[[op flag] parser']|] eqn:Hv;
    [|apply built_bail_out; exact Hb].
  apply parse_var_or_imm_inv in Hv as [_ ->].
  apply Hk; do 2 (apply building_assign; [auto|]); apply building_advance, Hb.
Qed.

Lemma built_im_into_val_a type heap0 map0 parser k :
  building type heap0 map0 parser ->
  (forall parser', building type heap0 map0 parser' -> built type heap0 map0 (k parser')) ->
  built type heap0 map0 (im_into_val_a (length heap0) parser k).
Proof.
  intros Hb Hk; unfold im_into_val_a.
  destruct (parse_im _ _); [|apply built_bail_out; exact Hb].
  apply Hk, building_advance.
  apply building_assign; [apply keeps_shape_is_a_immediate|].
  apply building_assign; [apply keeps_shape_val_a|exact Hb].
Qed.

Lemma building_create (type : CommandType) (parser : Parser.t) :
  building type (Parser.heap parser) (Parser.label_map parser)
    (snd (create_command type parser)).
Proof.
  split; [reflexivity|]; eexists; split; [reflexivity|].
  repeat split; unfold in_register_file; simpl; lia.
Qed.

Ltac built_steps :=
  repeat first
    [ apply built_variable_into;
      [ first [ intros ? ?; apply keeps_shape_destination; assumption
              | intros ? _; apply keeps_shape_val_a
              | intros ? _; apply keeps_shape_val_b ] | | intros ? ? ]
    | apply built_var_or_imm_into;
      [ first [ apply keeps_shape_val_a | apply keeps_shape_val_b ]
      | first [ apply keeps_shape_is_a_immediate | apply keeps_shape_is_b_immediate ]
      | | intros ? ? ]
    | apply built_im_into_val_a; [ | intros ? ? ]
    | apply building_advance
    | apply building_skip_nls
    | apply building_create
    | assumption ].

Lemma built_mov parser :
  built CMD_MOV (Parser.heap parser) (Parser.label_map parser) (parse_mov parser).
Proof.
  unfold parse_mov.
  change (create_command CMD_MOV parser)
    with (length (Parser.heap parser), snd (create_command CMD_MOV parser)).
  cbv beta iota zeta; built_steps.
  split; [reflexivity|assumption].
Qed.

Lemma built_dest_var_operand type parser :
  built type (Parser.heap parser) (Parser.label_map parser)
    (parse_dest_var_operand type parser).
Proof.
  unfold parse_dest_var_operand.
  change (create_command type parser)
    with (length (Parser.heap parser), snd (create_command type parser)).
  cbv beta iota zeta; built_steps.
  split; [reflexivity|assumption].
Qed.

Lemma built_cmp type parser :
  built type (Parser.heap parser) (Parser.label_map parser) (parse_cmp type parser).
Proof.
  unfold parse_cmp.
  change (create_command type parser)
    with (length (Parser.heap parser), snd (create_command type parser)).
  cbv beta iota zeta; built_steps.
  split; [reflexivity|assumption].
Qed.

Lemma built_print parser :
  built CMD_PRINT (Parser.heap parser) (Parser.label_map parser) (parse_print parser).
Proof.
  unfold parse_print.
  change (create_command CMD_PRINT parser)
    with (length (Parser.heap parser), snd (create_command CMD_PRINT parser)).
  cbv beta iota zeta; built_steps.
  unfold parse_base; destruct (negb _); [apply built_bail_out; assumption|].
  split; [reflexivity|].
  apply building_assign; [apply keeps_shape_val_b|apply building_advance; assumption].
Qed.

Lemma built_bitwise type parser :
  built type (Parser.heap parser) (Parser.label_map parser) (parse_bitwise type parser).
Proof.
  unfold parse_bitwise.
  change (create_command type parser)
    with (length (Parser.heap parser), snd (create_command type parser)).
  cbv beta iota zeta; built_steps.
  split; [reflexivity|].
  apply building_assign; [apply keeps_shape_is_b_immediate|].
  apply building_assign; [apply keeps_shape_is_a_immediate|assumption].
Qed.

Lemma built_load parser :
  built CMD_LOAD (Parser.heap parser) (Parser.label_map parser) (parse_load parser).
Proof.
  unfold parse_load.
  change (create_command CMD_LOAD parser)
    with (length (Parser.heap parser), snd (create_command CMD_LOAD parser)).
  cbv beta iota zeta; built_steps.
  split; [reflexivity|assumption].
Qed.

Lemma built_store parser :
  built CMD_STORE (Parser.heap parser) (Parser.label_map parser) (parse_store parser).
Proof.
  unfold parse_store.
  change (create_command CMD_STORE parser)
    with (length (Parser.heap parser), snd (create_command CMD_STORE parser)).
  cbv beta iota zeta; built_steps.
  split; [reflexivity|assumption].
Qed.

Lemma built_put parser :
  built CMD_PUT (Parser.heap parser) (Parser.label_map parser) (parse_put parser).
Proof.
  unfold parse_put.
  change (create_command CMD_PUT parser)
    with (length (Parser.heap parser), snd (create_command CMD_PUT parser)).
  cbv beta iota zeta.
  destruct (negb _); [apply built_bail_out; built_steps|].
  built_steps.
  - apply building_assign; [apply keeps_shape_is_a_string|].
    apply building_assign; [apply keeps_shape_label|built_steps].
  - split; [reflexivity|assumption].
Qed.

Lemma built_parsed type heap0 map0 e :
  type <> CMD_BRANCH -> type <> CMD_CALL ->
  built type heap0 map0 e -> switch_parsed heap0 map0 e.
Proof.
  intros Hb Hc Hbuilt.
  assert (forall cmd parser,
            cmd = length heap0 /\ building type heap0 map0 parser ->
            parsed heap0 map0 (Some cmd) parser) as Hdone.
  { intros cmd parser [-> [Hmap (c & Hheap & Hty & Hnext & Hdest)]].
    split; [exact Hmap|split; [reflexivity|]].
    exists c; split; [exact Hheap|split; [exact Hnext|]].
    split; [exact Hdest|intros [Ht|Ht]; congruence]. }
  destruct e as [[cmd|] parser|[cmd|] parser]; simpl in *; auto.
Qed.

Lemma parsed_label_operand type heap0 map0 parser :
  building type heap0 map0 parser ->
  switch_parsed heap0 map0 (parse_label_operand (length heap0) parser).
Proof.
  intros Hb; unfold parse_label_operand.
  apply building_advance in Hb.
  destruct (negb _); [apply (built_bail_out type); exact Hb|].
  destruct Hb as [Hmap (c & Hheap & Hty & Hnext & Hdest)].
  destruct (advance_keeps
              (assign (length heap0) (Command.set_is_a_string true)
                 (assign (length heap0)
                    (fun c =>
                       Command.set_val_a
                         (Operand.set_str_val
                            (Some (strndup (Token.lexeme (Parser.current (advance parser)))
                                     (Token.length (Parser.current (advance parser)))))
                            (Command.val_a c)) c)
                    (advance parser)))) as (Hh & _ & Hm).
  simpl; split; [rewrite Hm; exact Hmap|split; [reflexivity|]].
  rewrite Hh; unfold assign; simpl; rewrite Hheap.
  rewrite !alter_app_r_alt, Nat.sub_diag by (rewrite ?length_alter; lia).
  eexists; split; [reflexivity|].
  split; [exact Hnext|split; [exact Hdest|]].
  intros _; eexists; reflexivity.
Qed.

Lemma parsed_branch cond parser :
  switch_parsed (Parser.heap parser) (Parser.label_map parser) (parse_branch cond parser).
Proof.
  unfold parse_branch.
  change (create_command CMD_BRANCH parser)
    with (length (Parser.heap parser), snd (create_command CMD_BRANCH parser)).
  cbv beta iota zeta.
  apply (parsed_label_operand CMD_BRANCH).
  apply building_assign; [apply keeps_shape_branch_condition|apply building_create].
Qed.

Lemma parsed_call parser :
  switch_parsed (Parser.heap parser) (Parser.label_map parser) (parse_call parser).
Proof.
  unfold parse_call.
  change (create_command CMD_CALL parser)
    with (length (Parser.heap parser), snd (create_command CMD_CALL parser)).
  cbv beta iota zeta.
  apply (parsed_label_operand CMD_CALL), building_create.
Qed.

Lemma built_ret parser :
  built CMD_RET (Parser.heap parser) (Parser.label_map parser) (parse_ret parser).
Proof.
  unfold parse_ret.
  change (create_command CMD_RET parser)
    with (length (Parser.heap parser), snd (create_command CMD_RET parser)).
  cbv beta iota zeta.
  split; [reflexivity|apply building_advance, building_create].
Qed.

Lemma parsed_switch (parser : Parser.t) :
  switch_parsed (Parser.heap parser) (Parser.label_map parser) (parse_switch parser).
Proof.
  assert (abandoned (Parser.heap parser) (Parser.label_map parser)
            (Parser.set_had_error true parser)) as Hother
    by (split; [reflexivity|left; reflexivity]).
  unfold parse_switch.
  destruct (Token.type (Parser.current parser));
    [ exact Hother
    | exact Hother
    | exact Hother
    | exact Hother
    | exact Hother
    | exact Hother
    | exact (built_parsed CMD_MOV _ _ _ ltac:(discriminate) ltac:(discriminate)
               (built_mov _))
    | exact (built_parsed CMD_ADD _ _ _ ltac:(discriminate) ltac:(discriminate)
               (built_dest_var_operand _ _))
    | exact (built_parsed CMD_SUB _ _ _ ltac:(discriminate) ltac:(discriminate)
               (built_dest_var_operand _ _))
    | exact (built_parsed CMD_CMP _ _ _ ltac:(discriminate) ltac:(discriminate)
               (built_cmp _ _))
    | exact (built_parsed CMD_CMP_U _ _ _ ltac:(discriminate) ltac:(discriminate)
               (built_cmp _ _))
    | exact (built_parsed CMD_PRINT _ _ _ ltac:(discriminate) ltac:(discriminate)
               (built_print _))
    | exact (built_parsed CMD_AND _ _ _ ltac:(discriminate) ltac:(discriminate)
               (built_bitwise _ _))
    | exact (built_parsed CMD_EOR _ _ _ ltac:(discriminate) ltac:(discriminate)
               (built_bitwise _ _))
    | exact (built_parsed CMD_ORR _ _ _ ltac:(discriminate) ltac:(discriminate)
               (built_bitwise _ _))
    | exact (built_parsed CMD_LSL _ _ _ ltac:(discriminate) ltac:(discriminate)
               (built_dest_var_operand _ _))
    | exact (built_parsed CMD_LSR _ _ _ ltac:(discriminate) ltac:(discriminate)
               (built_dest_var_operand _ _))
    | exact (built_parsed CMD_ASR _ _ _ ltac:(discriminate) ltac:(discriminate)
               (built_dest_var_operand _ _))
    | exact (built_parsed CMD_LOAD _ _ _ ltac:(discriminate) ltac:(discriminate)
               (built_load _))
    | exact (built_parsed CMD_STORE _ _ _ ltac:(discriminate) ltac:(discriminate)
               (built_store _))
    | exact (built_parsed CMD_PUT _ _ _ ltac:(discriminate) ltac:(discriminate)
               (built_put _))
    | exact (parsed_branch _ _)
    | exact (parsed_branch _ _)
    | exact (parsed_branch _ _)
    | exact (parsed_branch _ _)
    | exact (parsed_branch _ _)
    | exact (parsed_branch _ _)
    | exact (parsed_branch _ _)
    | exact (parsed_call _)
    | exact (built_parsed CMD_RET _ _ _ ltac:(discriminate) ltac:(discriminate)
               (built_ret _))
    | exact Hother ].
Qed.

Lemma parsed_same heap0 map0 result parser parser' :
  Parser.heap parser' = Parser.heap parser ->
  Parser.label_map parser' = Parser.label_map parser ->
  parsed heap0 map0 result parser -> parsed heap0 map0 result parser'.
Proof.
  intros Hh Hm; destruct result as [cmd|]; simpl.
  - intros [Hmap [Hcmd Hc]]; split; [congruence|split; [exact Hcmd|rewrite Hh; exact Hc]].
  - intros [Hmap Hc]; split; [congruence|rewrite Hh; exact Hc].
Qed.

Lemma parsed_None heap0 map0 result parser :
  parsed heap0 map0 result parser -> parsed heap0 map0 None parser.
Proof.
  destruct result as [cmd|]; [|auto].
  intros [Hmap [_ (c & Hheap & _)]]; split; [exact Hmap|right; exists c; exact Hheap].
Qed.

Lemma parsed_instruction (parser : Parser.t) :
  parsed (Parser.heap parser) (Parser.label_map parser)
    (fst (parse_instruction parser)) (snd (parse_instruction parser)).
Proof.
  unfold parse_instruction.
  destruct (decide _); [split; [reflexivity|left; reflexivity]|].
  pose proof (parsed_switch parser) as Hsw.
  destruct (parse_switch parser) as [result q|cmd q]; [exact Hsw|].
  destruct (consume_newline q) as [ok q'] eqn:Hnl.
  destruct (consume_newline_keeps _ _ _ Hnl) as (Hh & _ & Hm).
  destruct ok; simpl in *.
  - eapply parsed_same; eassumption.
  - apply (parsed_same _ _ None q); [assumption..|].
    eapply parsed_None; exact Hsw.
Qed.

Lemma executable_set_next (next : option nat) (c : Command.t) :
  executable c -> executable (Command.set_next next c).
Proof. intros Hc; exact Hc. Qed.

(** [parse_cmd] returns; it appends the command it gives and changes
    nothing else in the store; the labels it registers stand for that
    command. *)
Lemma parse_cmd_parsed (parser : Parser.t) :
  table_ok (Parser.label_map parser) ->
  exists result parser',
    parse_cmd parser = Ret (result, parser') /\
    table_ok (Parser.label_map parser') /\
    match result with
    | None => abandoned (Parser.heap parser) (Parser.label_map parser) parser'
    | Some cmd =>
        appended (Parser.heap parser) cmd parser' /\
        forall id e,
          get_label (Parser.label_map parser') id = Ret (Some e) ->
          get_label (Parser.label_map parser) id = Ret (Some e) \/ Entry.command e = cmd
    end.
Proof.
  remember (tokens_left parser) as n eqn:Hn; revert parser Hn.
  induction n as [n IH] using lt_wf_ind; intros parser -> Htable.
  rewrite parse_cmd_eq.
  destruct (skip_nls_keeps parser) as (Hsh & _ & Hsm).
  destruct (at_label (skip_nls parser)) eqn:Hlabel.
  - pose proof (tokens_left_label parser Hlabel) as Hlt.
    set (inner := advance (advance (skip_nls parser))) in *.
    assert (Parser.heap inner = Parser.heap parser /\
            Parser.label_map inner = Parser.label_map parser) as [Hih Him].
    { subst inner.
      destruct (advance_keeps (advance (skip_nls parser))) as (-> & _ & ->).
      destruct (advance_keeps (skip_nls parser)) as (-> & _ & ->); auto. }
    destruct (IH _ Hlt inner eq_refl) as (result & p2 & Hrec & Htable2 & Hres);
      [rewrite Him; exact Htable|].
    rewrite Hrec; cbn [bind]; rewrite Hih, Him in Hres.
    destruct result as [cmd|]; cbn [register_label].
    + destruct Hres as [Happ Hlabels].
      set (label := strndup _ _).
      destruct (put_label_defined (Parser.label_map p2) label cmd Htable2)
        as (ok & map' & Hput).
      rewrite Hput; cbn [bind].
      eexists _, _; split; [reflexivity|].
      assert (Parser.label_map (if ok then Parser.set_label_map map' p2
                                else Parser.set_had_error true (Parser.set_label_map map' p2))
              = map' /\
              Parser.heap (if ok then Parser.set_label_map map' p2
                           else Parser.set_had_error true (Parser.set_label_map map' p2))
              = Parser.heap p2) as [-> Hheap] by (destruct ok; auto).
      split; [eapply put_label_ok; eassumption|].
      split; [destruct Happ as [Hcmd Hc]; split; [exact Hcmd|rewrite Hheap; exact Hc]|].
      intros id e Hget.
      destruct (String.eqb_spec id label) as [->|Hne].
      * destruct ok.
        -- rewrite (get_label_put _ _ _ _ Hput) in Hget.
           injection Hget as <-; right; reflexivity.
        -- apply Hlabels.
           pose proof (put_label_true_absent (Parser.label_map p2) map' label cmd) as _.
           destruct (get_label_defined _ label Htable2) as [[e'|] Hg].
           ++ pose proof (put_label_present _ _ cmd _ Hg); congruence.
           ++ destruct (put_label_absent _ _ cmd Hg); congruence.
      * apply Hlabels.
        rewrite <- (get_label_other _ _ _ _ _ _ Hput) by assumption; exact Hget.
    + eexists _, _; split; [reflexivity|split; [exact Htable2|exact Hres]].
  - pose proof (parsed_instruction (skip_nls parser)) as Hp.
    rewrite Hsh, Hsm in Hp.
    destruct (parse_instruction (skip_nls parser)) as [result p'] eqn:Hpi.
    exists result, p'; split; [reflexivity|].
    cbn [fst snd] in Hp.
    destruct result as [cmd|]; simpl in Hp.
    + destruct Hp as [Hmap Happ].
      split; [rewrite Hmap; exact Htable|split; [exact Happ|]].
      intros id e Hget; left; rewrite <- Hmap; exact Hget.
    + destruct Hp as [Hmap Hheap].
      split; [rewrite Hmap; exact Htable|split; assumption].
Qed.

Lemma linked_app (heap : store) (n : nat) (c : Command.t) :
  linked heap n -> linked (heap ++ [c]) n.
Proof.
  intros Hl i Hi; destruct (Hl i Hi) as (c' & Hc' & Hrest).
  exists c'; split; [apply lookup_app_l_Some; exact Hc'|exact Hrest].
Qed.

Lemma linked_next (heap : store) (n : nat) (c : Command.t) :
  length heap = n ->
  linked heap n ->
  executable c ->
  Command.next c = None ->
  linked (match tail_of n with
          | None => heap ++ [c]
          | Some t => alter (Command.set_next (Some n)) t (heap ++ [c])
          end) (S n).
Proof.
  intros Hlen Hl Hc Hnext i Hi.
  destruct n as [|t]; cbn [tail_of].
  - assert (i = O) as -> by lia.
    destruct heap; [|discriminate].
    exists c; auto.
  - destruct (decide (i = S t)) as [->|Hne1].
    + exists c; rewrite list_lookup_alter_ne by lia.
      rewrite lookup_app_r, Hlen, Nat.sub_diag by lia.
      rewrite Nat.ltb_irrefl; auto.
    + destruct (Hl i ltac:(lia)) as (ci & Hci & Hexec & Hn).
      destruct (decide (i = t)) as [->|Hne2].
      * exists (Command.set_next (Some (S t)) ci).
        rewrite list_lookup_alter_eq, (lookup_app_l_Some _ _ _ _ Hci).
        split; [reflexivity|split; [exact Hexec|]].
        simpl; destruct (Nat.ltb_spec (S t) (S (S t))); [reflexivity|lia].
      * exists ci; rewrite list_lookup_alter_ne by lia.
        split; [apply lookup_app_l_Some; exact Hci|split; [exact Hexec|]].
        rewrite Hn.
        destruct (Nat.ltb_spec (S i) (S t)), (Nat.ltb_spec (S i) (S (S t)));
          try reflexivity; lia.
Qed.

Lemma parse_commands_loop_program (parser : Parser.t) (map0 : LabelMap.t) (n : nat) :
  table_ok (Parser.label_map parser) ->
  length (Parser.heap parser) = n ->
  linked (Parser.heap parser) n ->
  labels_below map0 (Parser.label_map parser) n ->
  exists n' parser',
    parse_commands_loop parser (head_of n) (tail_of n) = Ret (head_of n', parser') /\
    (n <= n')%nat /\
    (length (Parser.heap parser') = n' \/ length (Parser.heap parser') = S n') /\
    linked (Parser.heap parser') n' /\
    table_ok (Parser.label_map parser') /\
    labels_below map0 (Parser.label_map parser') n'.
Proof.
  remember (tokens_left parser) as k eqn:Hk; revert parser n Hk.
  induction k as [k IH] using lt_wf_ind; intros parser n -> Htable Hlen Hl Hlabels.
  rewrite parse_commands_loop_eq.
  destruct (negb _ && negb _).
  2: { exists n, parser; split; [reflexivity|split; [lia|]].
       split; [left; exact Hlen|split; [exact Hl|split; [exact Htable|exact Hlabels]]]. }
  destruct (parse_cmd_parsed parser Htable) as (result & p1 & Hp & Htable1 & Hres).
  rewrite Hp.
  destruct result as [cmd|].
  - destruct Hres as [[-> (c & Hheap & Hnext & Hexec)] Hnew].
    rewrite Hlen in *.
    set (p2 := match tail_of n with
               | Some t => assign t (Command.set_next (Some n)) p1
               | None => p1
               end).
    assert (Parser.heap p2
            = match tail_of n with
              | None => Parser.heap parser ++ [c]
              | Some t => alter (Command.set_next (Some n)) t (Parser.heap parser ++ [c])
              end /\
            Parser.label_map p2 = Parser.label_map p1 /\
            tokens_left p2 = tokens_left p1) as (Hheap2 & Hmap2 & Htok2).
    { subst p2; destruct (tail_of n); simpl; rewrite ?Hheap; auto. }
    destruct (IH (tokens_left p2)
                ltac:(rewrite Htok2; eapply parse_cmd_progress; eassumption)
                p2 (S n) eq_refl) as (n' & p' & Hloop & Hle & Hrest).
    + rewrite Hmap2; exact Htable1.
    + rewrite Hheap2; destruct (tail_of n);
        rewrite ?length_alter, length_app; simpl; lia.
    + rewrite Hheap2; apply linked_next; assumption.
    + rewrite Hmap2; intros id e Hget.
      destruct (Hnew id e Hget) as [Hold| ->]; [|right; lia].
      destruct (Hlabels id e Hold); [left; assumption|right; lia].
    + exists n', p'; split; [|split; [lia|exact Hrest]].
      rewrite <- Hloop; subst p2.
      destruct n; reflexivity.
  - destruct Hres as [Hmap Hheap].
    exists n, p1; split; [reflexivity|split; [lia|]].
    split; [|split; [|split; [exact Htable1|rewrite Hmap; exact Hlabels]]].
    + destruct Hheap as [->|[c ->]]; [left; exact Hlen|right].
      rewrite length_app; simpl; lia.
    + destruct Hheap as [->|[c ->]]; [exact Hl|apply linked_app; exact Hl].
Qed.

(** X15.  With a well-formed label table [parse_cmd] returns.  When it gives a
    command, that command is the one new cell at the end of the store, not
    linked yet, with a register as its destination and its label if it is
    a BRANCH or a CALL, and every label registered by the call stands for
    it; the cells that were in the store are untouched.  When it gives no
    command the label table is unchanged and the store has at most one
    new cell. *)
Theorem parse_cmd_appends_one_command (parser : Parser.t) :
  table_ok (Parser.label_map parser) ->
  exists result parser',
    parse_cmd parser = Ret (result, parser') /\
    table_ok (Parser.label_map parser') /\
    match result with
    | None =>
        Parser.label_map parser' = Parser.label_map parser /\
        (Parser.heap parser' = Parser.heap parser \/
         exists c, Parser.heap parser' = Parser.heap parser ++ [c])
    | Some cmd =>
        cmd = length (Parser.heap parser) /\
        (exists c,
           Parser.heap parser' = Parser.heap parser ++ [c] /\
           Command.next c = None /\ executable c) /\
        forall id e,
          get_label (Parser.label_map parser') id = Ret (Some e) ->
          get_label (Parser.label_map parser) id = Ret (Some e) \/ Entry.command e = cmd
    end.
Proof.
  intros Htable.
  destruct (parse_cmd_parsed parser Htable) as (result & parser' & Hp & Htable' & Hres).
  exists result, parser'; split; [exact Hp|split; [exact Htable'|]].
  destruct result as [cmd|]; [|exact Hres].
  destruct Hres as [[Hcmd Hc] Hlabels]; auto.
Qed.

Lemma list_from_linked (heap : store) (n : nat) (k i : nat) :
  linked heap n ->
  (i + k = n)%nat ->
  list_from k heap (if (i <? n)%nat then Some i else None) = take k (drop i heap).
Proof.
  intros Hl; revert i; induction k as [|k IH]; intros i Hik; [reflexivity|].
  destruct (Nat.ltb_spec i n); [|lia].
  destruct (Hl i ltac:(lia)) as (c & Hc & _ & Hnext).
  cbn [list_from]; rewrite Hc, Hnext, (IH (S i)) by lia.
  rewrite (drop_S _ _ _ Hc); reflexivity.
Qed.

(** X16.  From an empty store and a well-formed label table [parse_commands]
    returns the head of a list of [n] commands which are the first [n]
    cells of the store in the order of the source text, each linked to the
    next and the last to nothing; a command given up after an error is
    the only other cell there can be.  Every label registered stands for
    one of the [n] commands. *)
Theorem parse_commands_builds_program (parser : Parser.t) :
  table_ok (Parser.label_map parser) ->
  Parser.heap parser = [] ->
  exists n parser',
    parse_commands parser = Ret (head_of n, parser') /\
    (length (Parser.heap parser') = n \/ length (Parser.heap parser') = S n) /\
    linked (Parser.heap parser') n /\
    list_from n (Parser.heap parser') (head_of n) = take n (Parser.heap parser') /\
    table_ok (Parser.label_map parser') /\
    labels_below (Parser.label_map parser) (Parser.label_map parser') n.
Proof.
  intros Htable Hheap.
  destruct (parse_commands_loop_program parser (Parser.label_map parser) O Htable)
    as (n & parser' & Hloop & _ & Hlen & Hl & Htable' & Hlabels).
  - rewrite Hheap; reflexivity.
  - intros i Hi; lia.
  - intros id e Hget; left; exact Hget.
  - exists n, parser'; split; [exact Hloop|split; [exact Hlen|split; [exact Hl|]]].
    split; [|split; [exact Htable'|exact Hlabels]].
    pose proof (list_from_linked _ n n O Hl eq_refl) as Hlist.
    destruct n; [reflexivity|exact Hlist].
Qed.

(** ** Running a parsed program *)

Section RunningPrograms.
Context `{MemStore}.

Ltac run_split H :=
  cbn [bind fst snd] in H;
  repeat match type of H with
  | context [fetch_number_value ?i ?o ?b] =>
      let Hf := fresh "Hfetch" in
      destruct (fetch_cases i o b) as [[? Hf]|(_ & _ & Hf)];
      rewrite Hf in H; cbn [bind fst snd] in H
  | context [get_label ?map ?id] =>
      let Hg := fresh "Hget" in
      destruct (get_label map id) as [[?|]|] eqn:Hg; cbn [bind fst snd] in H
  | context [if ?c then _ else _] => destruct c eqn:?; cbn [bind fst snd] in H
  | context [match ?c with _ => _ end] => destruct c eqn:?; cbn [bind fst snd] in H
  end;
  try discriminate.

Lemma exec_runs_in (prog : store) (table : LabelMap.t) (n : nat)
    (m m' : Machine.t) (cmd : Command.t) (j : jump) :
  closed_program prog table n ->
  runs_in table n (Machine.intr m) ->
  points_below n (Command.next cmd) ->
  exec m cmd = Ret (m', j) ->
  runs_in table n (Machine.intr m') /\
  forall target, j = JumpTo target -> points_below n target.
Proof.
  intros (_ & _ & Hlabels) [Hmap Hstack] Hnext Hexec.
  unfold exec, exec_mov, exec_add_sub, exec_cmp, exec_bitwise, exec_shift, exec_load,
    exec_store, exec_put, exec_branch, exec_call, exec_ret, print_base, write_var,
    read_var, write_var_bytes in Hexec.
  destruct (Command.type cmd); run_split Hexec;
    inversion Hexec; subst; clear Hexec; simpl;
    (split; [split; simpl; auto|]);
    try (intros target [= <-]); try discriminate;
    try exact Hnext; try (intros k [= <-]);
    try (eapply Hlabels; eassumption);
    try (intros k Hk; discriminate).
  - match goal with Hs : Interpreter.the_stack _ = [] |- _ => rewrite Hs end.
    constructor.
  - apply Forall_cons in Hstack as [_ Hrest]; exact Hrest.
  - apply Forall_cons in Hstack as [Hframe _]; exact Hframe.
Qed.

Lemma step_runs_in (prog : store) (table : LabelMap.t) (n : nat)
    (m : Machine.t) (current : nat) :
  closed_program prog table n ->
  runs_in table n (Machine.intr m) ->
  (current < n)%nat ->
  match step prog m current with
  | Ret (m', next) => runs_in table n (Machine.intr m') /\ points_below n next
  | Undef why => overflow_or_wide_load why
  end.
Proof.
  intros Hclosed Hrun Hcur.
  destruct Hclosed as (Htable & Hcells & Hlabels).
  destruct (Hcells current Hcur) as (cmd & Hcmd & Hexec & Hnext).
  unfold step; rewrite Hcmd.
  destruct (exec m cmd) as [[m' j]|why] eqn:He; cbn [bind].
  - destruct (exec_runs_in prog table n m m' cmd j) as [Hrun' Hjump]; auto.
    { split; [exact Htable|split; assumption]. }
    destruct j as [|target].
    + destruct (Interpreter.had_error (Machine.intr m'));
        (split; [exact Hrun'|]); [intros k [= <-]; exact Hcur|exact Hnext].
    + split; [exact Hrun'|apply Hjump; reflexivity].
  - destruct Hrun as [Hmap _].
    destruct (exec_undefined m cmd why Hexec) as [[_ ->]|[[_ ->]|[_ ->]]];
      [rewrite Hmap; exact Htable|exact He|unfold overflow_or_wide_load; auto..].
Qed.

Lemma interpret_loop_runs_in (prog : store) (table : LabelMap.t) (n : nat) (fuel : nat)
    (m : Machine.t) (current : option nat) :
  closed_program prog table n ->
  runs_in table n (Machine.intr m) ->
  points_below n current ->
  match interpret_loop fuel prog m current with
  | Finished m' current' => runs_in table n (Machine.intr m') /\ points_below n current'
  | Crashed why => overflow_or_wide_load why
  | OutOfFuel => True
  end.
Proof.
  intros Hclosed; revert m current; induction fuel as [|fuel IH]; intros m current Hrun Hcur.
  - destruct current as [c|]; simpl; [|split; [exact Hrun|intros k; discriminate]].
    destruct (Interpreter.had_error _); [split; assumption|exact I].
  - destruct current as [c|]; simpl; [|split; [exact Hrun|intros k; discriminate]].
    destruct (Interpreter.had_error _); [split; assumption|].
    pose proof (step_runs_in prog table n m c Hclosed Hrun (Hcur c eq_refl)) as Hstep.
    destruct (step prog m c) as [[m' next]|why]; [|exact Hstep].
    destruct Hstep as [Hrun' Hnext]; apply IH; assumption.
Qed.

(** X17.  A run of [interpret] on a program whose commands are executable
    and linked among themselves, with a well-formed label table whose
    labels stand for commands of the program, never reads a command
    outside the program, never reads outside the register file, never
    passes a NULL label and never divides by zero; the run can leave
    defined behaviour only by the overflow in STORE's bounds test, by a
    LOAD beyond the register file or by the overflow of LSL's shift. *)
Theorem closed_program_runs_safely (prog : store) (table : LabelMap.t) (n : nat)
    (fuel : nat) (m : Machine.t) (commands : option nat) :
  closed_program prog table n ->
  runs_in table n (Machine.intr m) ->
  points_below n commands ->
  match interpret fuel prog m commands with
  | Finished m' current' =>
      Interpreter.label_map (Machine.intr m') = table /\ points_below n current'
  | Crashed why => why = IntOverflow \/ why = RegWrite \/ why = ShiftOverflow
  | OutOfFuel => True
  end.
Proof.
  intros Hclosed Hrun Hcur; unfold interpret.
  destruct commands as [c|]; [|split; [apply Hrun|exact Hcur]].
  pose proof (interpret_loop_runs_in prog table n fuel m (Some c) Hclosed Hrun Hcur) as Hloop.
  destruct (interpret_loop fuel prog m (Some c)); [|exact Hloop|exact I].
  destruct Hloop as [[Hmap _] Hnext]; split; [exact Hmap|exact Hnext].
Qed.

Lemma linked_closed (heap : store) (map0 table : LabelMap.t) (n : nat) :
  table_ok table ->
  linked heap n ->
  labels_below map0 table n ->
  (forall id, get_label map0 id = Ret None) ->
  closed_program heap table n.
Proof.
  intros Htable Hl Hlabels Hempty; split; [exact Htable|split].
  - intros i Hi; destruct (Hl i Hi) as (c & Hc & Hexec & Hnext).
    exists c; split; [exact Hc|split; [exact Hexec|]].
    intros k; rewrite Hnext.
    destruct (Nat.ltb_spec (S i) n); [intros [= <-]; assumption|discriminate].
  - intros id e Hget; destruct (Hlabels id e Hget) as [Hold|Hlt]; [|exact Hlt].
    rewrite Hempty in Hold; discriminate.
Qed.

(** X18.  Whatever the tokens, what [parse_commands] returns for them from a
    fresh label table is such a program: [interpret], started on it with
    the parser's label table, can leave defined behaviour only by the
    overflow in STORE's bounds test, by a LOAD beyond the register file
    or by the overflow of LSL's shift. *)
Theorem parsed_program_runs_safely
    (lexer : Lexer) (capacity : Z) (fuel : nat) (mem : mem_t) (out : string) :
  0 < capacity < 2 ^ 31 ->
  exists head parser',
    parse_commands (parser_init lexer (label_map_init capacity)) = Ret (head, parser') /\
    match interpret fuel (Parser.heap parser')
            (Machine.mk _ (interpreter_init (Parser.label_map parser')) mem out) head with
    | Crashed why => why = IntOverflow \/ why = RegWrite \/ why = ShiftOverflow
    | _ => True
    end.
Proof.
  intros Hcap.
  set (parser := parser_init lexer (label_map_init capacity)).
  assert (Parser.label_map parser = label_map_init capacity /\ Parser.heap parser = [])
    as [Hmap Hheap].
  { subst parser; unfold parser_init.
    destruct (lexer_next_token lexer) as [t1 l1], (lexer_next_token l1); auto. }
  destruct (parse_commands_loop_program parser (Parser.label_map parser) O)
    as (n & parser' & Hloop & _ & _ & Hl & Htable' & Hlabels).
  - rewrite Hmap; apply label_map_init_ok, Hcap.
  - rewrite Hheap; reflexivity.
  - intros i Hi; lia.
  - intros id e Hget; left; exact Hget.
  - exists (head_of n), parser'; split; [exact Hloop|].
    assert (closed_program (Parser.heap parser') (Parser.label_map parser') n) as Hclosed.
    { eapply linked_closed; try eassumption.
      intros id; rewrite Hmap; apply get_label_init, Hcap. }
    assert (runs_in (Parser.label_map parser') n
              (Machine.intr
                 (Machine.mk _ (interpreter_init (Parser.label_map parser')) mem out)))
      as Hrun by (split; [reflexivity|constructor]).
    assert (points_below n (head_of n)) as Hhead
      by (intros k; destruct n; [discriminate|intros [= <-]; lia]).
    unfold interpret; destruct (head_of n) as [c|]; [|exact I].
    pose proof (interpret_loop_runs_in _ _ n fuel _ (Some c) Hclosed Hrun Hhead) as Hsafe.
    destruct (interpret_loop fuel _ _ (Some c)); [exact I|exact Hsafe|exact I].
Qed.

End RunningPrograms.

(** ** Decoding a line *)

Lemma reading_current parser0 i c p :
  reading parser0 i c p -> Parser.current p = lookahead parser0 i.
Proof.
  intros (Hla & _); specialize (Hla O); rewrite Nat.add_0_r in Hla; exact Hla.
Qed.

Lemma reading_deref parser0 i c p :
  reading parser0 i c p -> deref p (length (Parser.heap parser0)) = c.
Proof. intros (_ & Hheap & _); unfold deref; rewrite Hheap, nth_middle; reflexivity. Qed.

Lemma reading_assign parser0 i c p (f : Command.t -> Command.t) :
  reading parser0 i c p ->
  reading parser0 i (f c) (assign (length (Parser.heap parser0)) f p).
Proof.
  intros (Hla & Hheap & Herr & Hmap); repeat split; try assumption.
  unfold assign; simpl; rewrite Hheap, alter_app_r_alt, Nat.sub_diag by lia; reflexivity.
Qed.

Lemma reading_advance parser0 i c p :
  reading parser0 i c p ->
  Token.type (lookahead parser0 i) <> TOK_EOF ->
  reading parser0 (S i) c (advance p).
Proof.
  intros Hrd Hne; pose proof (reading_current _ _ _ _ Hrd) as Hcur.
  destruct Hrd as (Hla & Hheap & Herr & Hmap).
  destruct (advance_keeps p) as (Hh & He & Hm).
  split; [|split; [congruence|split; congruence]].
  intros j; rewrite lookahead_advance by (rewrite Hcur; exact Hne).
  rewrite Hla; f_equal; lia.
Qed.

Lemma reading_create (type : CommandType) (parser : Parser.t) :
  Token.type (Parser.current parser) <> TOK_EOF ->
  reading parser 1 (command_of type false false false BRANCH_NONE
                      Operand.zero Operand.zero Operand.zero)
    (advance (snd (create_command type parser))).
Proof.
  intros Hne; apply reading_advance; [|exact Hne].
  repeat split; intros j; reflexivity.
Qed.

Lemma register_token_inv (token : Token.t) (r : Z) :
  register_token token = Some r ->
  Token.type token = TOK_IDENT /\ is_variable token = true /\ parse_variable token = Some r.
Proof.
  unfold register_token.
  destruct (bool_decide _) eqn:Hty; [|discriminate].
  apply bool_decide_eq_true in Hty.
  destruct (is_variable token); [auto|discriminate].
Qed.

Lemma number_token_inv (token : Token.t) (v : Z) :
  number_token token = Some v ->
  Token.type token = TOK_NUM /\ parse_number token = Some v.
Proof.
  unfold number_token.
  destruct (bool_decide _) eqn:Hty; [|discriminate].
  apply bool_decide_eq_true in Hty; auto.
Qed.

Lemma operand_token_not_eof (token : Token.t) (v : Z) (flag : bool) :
  operand_token token = Some (v, flag) -> Token.type token <> TOK_EOF.
Proof.
  unfold operand_token.
  destruct (register_token token) as [r|] eqn:Hr.
  - apply register_token_inv in Hr as (Hty & _); congruence.
  - destruct (number_token token) as [n|] eqn:Hn; [|discriminate].
    apply number_token_inv in Hn as (Hty & _); congruence.
Qed.

Lemma parse_variable_operand_token (p : Parser.t) (op : Operand.t) (r : Z) :
  register_token (Parser.current p) = Some r ->
  parse_variable_operand p op = Some (Operand.set_num_val r op, advance p).
Proof.
  intros Hr; apply register_token_inv in Hr as (Hty & Hvar & Hp).
  unfold parse_variable_operand.
  rewrite Hvar, Hp, bool_decide_eq_true_2 by assumption; reflexivity.
Qed.

Lemma parse_im_token (p : Parser.t) (op : Operand.t) (v : Z) :
  number_token (Parser.current p) = Some v ->
  parse_im p op = Some (Operand.set_num_val v op).
Proof.
  intros Hn; apply number_token_inv in Hn as (Hty & Hp).
  unfold parse_im.
  rewrite Hp, bool_decide_eq_true_2 by assumption; reflexivity.
Qed.

Lemma parse_var_or_imm_token (p : Parser.t) (op : Operand.t) (v : Z) (flag : bool) :
  operand_token (Parser.current p) = Some (v, flag) ->
  parse_var_or_imm p op = Some (Operand.set_num_val v op, flag, advance p).
Proof.
  unfold operand_token; intros Ho.
  destruct (register_token (Parser.current p)) as [r|] eqn:Hr.
  - injection Ho as <- <-.
    unfold parse_var_or_imm.
    rewrite (parse_variable_operand_token _ _ _ Hr).
    apply register_token_inv in Hr as (Hty & Hvar & _).
    rewrite Hvar, bool_decide_eq_true_2 by assumption; reflexivity.
  - destruct (number_token (Parser.current p)) as [n|] eqn:Hn; [|discriminate].
    injection Ho as <- <-.
    unfold parse_var_or_imm.
    rewrite (parse_im_token _ _ _ Hn).
    apply number_token_inv in Hn as (Hty & _).
    rewrite (bool_decide_eq_false_2 (Token.type (Parser.current p) = TOK_IDENT))
      by congruence.
    rewrite bool_decide_eq_true_2 by assumption; reflexivity.
Qed.

Lemma variable_into_reading parser0 i c p (r : Z) get set k :
  reading parser0 i c p ->
  register_token (lookahead parser0 i) = Some r ->
  exists p',
    variable_into get set (length (Parser.heap parser0)) p k = k p' /\
    reading parser0 (S i) (set (Operand.set_num_val r (get c)) c) p'.
Proof.
  intros Hrd Hr; unfold variable_into.
  rewrite (reading_deref _ _ _ _ Hrd).
  rewrite (parse_variable_operand_token p (get c) r)
    by (rewrite (reading_current _ _ _ _ Hrd); exact Hr).
  eexists; split; [reflexivity|].
  apply reading_assign, reading_advance; [exact Hrd|].
  apply register_token_inv in Hr as (Hty & _); congruence.
Qed.

Lemma var_or_imm_into_reading parser0 i c p (v : Z) (flag : bool) get set set_flag k :
  reading parser0 i c p ->
  operand_token (lookahead parser0 i) = Some (v, flag) ->
  exists p',
    var_or_imm_into get set set_flag (length (Parser.heap parser0)) p k = k p' /\
    reading parser0 (S i) (set_flag flag (set (Operand.set_num_val v (get c)) c)) p'.
Proof.
  intros Hrd Ho; unfold var_or_imm_into.
  rewrite (reading_deref _ _ _ _ Hrd).
  rewrite (parse_var_or_imm_token p (get c) v flag)
    by (rewrite (reading_current _ _ _ _ Hrd); exact Ho).
  eexists; split; [reflexivity|].
  do 2 apply reading_assign; apply reading_advance; [exact Hrd|].
  eapply operand_token_not_eof; eassumption.
Qed.

Lemma im_into_val_a_reading parser0 i c p (v : Z) k :
  reading parser0 i c p ->
  number_token (lookahead parser0 i) = Some v ->
  exists p',
    im_into_val_a (length (Parser.heap parser0)) p k = k p' /\
    reading parser0 (S i)
      (Command.set_is_a_immediate true
         (Command.set_val_a (Operand.set_num_val v (Command.val_a c)) c)) p'.
Proof.
  intros Hrd Hn; unfold im_into_val_a.
  rewrite (reading_deref _ _ _ _ Hrd).
  rewrite (parse_im_token p (Command.val_a c) v)
    by (rewrite (reading_current _ _ _ _ Hrd); exact Hn).
  eexists; split; [reflexivity|].
  apply reading_advance; [do 2 apply reading_assign; exact Hrd|].
  apply number_token_inv in Hn as (Hty & _); congruence.
Qed.

(** The end of [parse_cmd] for a line whose operands have been read. *)
Lemma parse_instruction_done parser0 i c p (e : switch_end) :
  Token.type (Parser.current parser0) <> TOK_EOF ->
  parse_switch parser0 = e ->
  e = Break (Some (length (Parser.heap parser0))) p ->
  reading parser0 i c p ->
  ends_line (lookahead parser0 i) ->
  exists parser',
    parse_instruction parser0 = (Some (length (Parser.heap parser0)), parser') /\
    Parser.had_error parser' = Parser.had_error parser0 /\
    Parser.heap parser' = Parser.heap parser0 ++ [c] /\
    Parser.label_map parser' = Parser.label_map parser0.
Proof.
  intros Hne Hsw -> Hrd Hend; unfold parse_instruction.
  rewrite decide_False, Hsw by exact Hne.
  pose proof (consume_newline_at_end p) as Hok.
  rewrite (reading_current _ _ _ _ Hrd) in Hok; specialize (Hok Hend).
  destruct (consume_newline p) as [ok p'] eqn:Hc; simpl in Hok; subst ok.
  destruct (consume_newline_keeps _ _ _ Hc) as (Hh & He & Hm).
  destruct Hrd as (_ & Hheap & Herr & Hmap).
  exists p'; split; [reflexivity|split; [congruence|split; congruence]].
Qed.

Lemma decoded_line parser i c p :
  Token.type (Parser.current parser) <> TOK_EOF ->
  Token.type (Parser.current parser) <> TOK_NL ->
  Token.type (Parser.current parser) <> TOK_IDENT ->
  parse_switch parser = Break (Some (length (Parser.heap parser))) p ->
  reading parser i c p ->
  ends_line (lookahead parser i) ->
  decoded parser c.
Proof.
  intros Heof Hnl Hident Hsw Hrd Hend.
  destruct (parse_instruction_done parser i c p _ Heof Hsw eq_refl Hrd Hend)
    as (parser' & Hp & Hrest).
  exists parser'; split; [|exact Hrest].
  rewrite parse_cmd_at_keyword, Hp by assumption; reflexivity.
Qed.

Ltac read_register Hrd Htok p' Hrd' :=
  let Heq := fresh "Heq" in
  edestruct variable_into_reading as (p' & Heq & Hrd'); [exact Hrd|exact Htok|];
  rewrite Heq; clear Heq; cbv beta.

Ltac read_operand Hrd Htok p' Hrd' :=
  let Heq := fresh "Heq" in
  edestruct var_or_imm_into_reading as (p' & Heq & Hrd'); [exact Hrd|exact Htok|];
  rewrite Heq; clear Heq; cbv beta.

Ltac read_number Hrd Htok p' Hrd' :=
  let Heq := fresh "Heq" in
  edestruct im_into_val_a_reading as (p' & Heq & Hrd'); [exact Hrd|exact Htok|];
  rewrite Heq; clear Heq; cbv beta.

Ltac start_line type parser :=
  change (create_command type parser)
    with (length (Parser.heap parser), snd (create_command type parser));
  cbv beta iota zeta.

Lemma switch_dest_var_operand type parser (d a b : Z) (flag : bool) :
  Token.type (Parser.current parser) <> TOK_EOF ->
  register_token (lookahead parser 1) = Some d ->
  register_token (lookahead parser 2) = Some a ->
  operand_token (lookahead parser 3) = Some (b, flag) ->
  exists p,
    parse_dest_var_operand type parser = Break (Some (length (Parser.heap parser))) p /\
    reading parser 4
      (command_of type false false flag BRANCH_NONE
         (number_operand d) (number_operand a) (number_operand b)) p.
Proof.
  intros Hne Hd Ha Hb; unfold parse_dest_var_operand; start_line type parser.
  pose proof (reading_create type parser Hne) as Hrd1.
  read_register Hrd1 Hd p2 Hrd2.
  read_register Hrd2 Ha p3 Hrd3.
  read_operand Hrd3 Hb p4 Hrd4.
  exists p4; split; [reflexivity|exact Hrd4].
Qed.

Lemma switch_bitwise type parser (d a b : Z) :
  Token.type (Parser.current parser) <> TOK_EOF ->
  register_token (lookahead parser 1) = Some d ->
  register_token (lookahead parser 2) = Some a ->
  register_token (lookahead parser 3) = Some b ->
  exists p,
    parse_bitwise type parser = Break (Some (length (Parser.heap parser))) p /\
    reading parser 4
      (command_of type false false false BRANCH_NONE
         (number_operand d) (number_operand a) (number_operand b)) p.
Proof.
  intros Hne Hd Ha Hb; unfold parse_bitwise; start_line type parser.
  pose proof (reading_create type parser Hne) as Hrd1.
  read_register Hrd1 Hd p2 Hrd2.
  read_register Hrd2 Ha p3 Hrd3.
  read_register Hrd3 Hb p4 Hrd4.
  eexists; split; [reflexivity|].
  exact (reading_assign _ _ _ _ (Command.set_is_b_immediate false)
           (reading_assign _ _ _ _ (Command.set_is_a_immediate false) Hrd4)).
Qed.

Lemma switch_cmp type parser (a b : Z) (flag : bool) :
  Token.type (Parser.current parser) <> TOK_EOF ->
  register_token (lookahead parser 1) = Some a ->
  operand_token (lookahead parser 2) = Some (b, flag) ->
  exists p,
    parse_cmp type parser = Break (Some (length (Parser.heap parser))) p /\
    reading parser 3
      (command_of type false false flag BRANCH_NONE
         Operand.zero (number_operand a) (number_operand b)) p.
Proof.
  intros Hne Ha Hb; unfold parse_cmp; start_line type parser.
  pose proof (reading_create type parser Hne) as Hrd1.
  read_register Hrd1 Ha p2 Hrd2.
  read_operand Hrd2 Hb p3 Hrd3.
  exists p3; split; [reflexivity|exact Hrd3].
Qed.

Lemma switch_print parser (a : Z) (flag : bool) (base : ascii) :
  Token.type (Parser.current parser) <> TOK_EOF ->
  operand_token (lookahead parser 1) = Some (a, flag) ->
  base_token (lookahead parser 2) = Some base ->
  Token.type (lookahead parser 2) <> TOK_EOF ->
  exists p,
    parse_print parser = Break (Some (length (Parser.heap parser))) p /\
    reading parser 3
      (command_of CMD_PRINT flag false false BRANCH_NONE
         Operand.zero (number_operand a) (base_operand base)) p.
Proof.
  intros Hne Ha Hbase Hbne; unfold parse_print; start_line CMD_PRINT parser.
  pose proof (reading_create CMD_PRINT parser Hne) as Hrd1.
  read_operand Hrd1 Ha p2 Hrd2.
  unfold parse_base, base_token in *.
  rewrite (reading_current _ _ _ _ Hrd2), (reading_deref _ _ _ _ Hrd2).
  destruct (is_base (lookahead parser 2)); [|discriminate].
  injection Hbase as <-; cbn [negb].
  eexists; split; [reflexivity|].
  exact (reading_assign _ _ _ _ _ (reading_advance _ _ _ _ Hrd2 Hbne)).
Qed.

Lemma switch_load parser (d bytes addr : Z) (flag : bool) :
  Token.type (Parser.current parser) <> TOK_EOF ->
  register_token (lookahead parser 1) = Some d ->
  number_token (lookahead parser 2) = Some bytes ->
  operand_token (lookahead parser 3) = Some (addr, flag) ->
  exists p,
    parse_load parser = Break (Some (length (Parser.heap parser))) p /\
    reading parser 4
      (command_of CMD_LOAD true false flag BRANCH_NONE
         (number_operand d) (number_operand bytes) (number_operand addr)) p.
Proof.
  intros Hne Hd Hbytes Haddr; unfold parse_load; start_line CMD_LOAD parser.
  pose proof (reading_create CMD_LOAD parser Hne) as Hrd1.
  read_register Hrd1 Hd p2 Hrd2.
  read_number Hrd2 Hbytes p3 Hrd3.
  read_operand Hrd3 Haddr p4 Hrd4.
  exists p4; split; [reflexivity|exact Hrd4].
Qed.

Lemma switch_store parser (s bytes addr : Z) (flag : bool) :
  Token.type (Parser.current parser) <> TOK_EOF ->
  register_token (lookahead parser 1) = Some s ->
  operand_token (lookahead parser 2) = Some (addr, flag) ->
  number_token (lookahead parser 3) = Some bytes ->
  exists p,
    parse_store parser = Break (Some (length (Parser.heap parser))) p /\
    reading parser 4
      (command_of CMD_STORE true false flag BRANCH_NONE
         (number_operand s) (number_operand bytes) (number_operand addr)) p.
Proof.
  intros Hne Hs Haddr Hbytes; unfold parse_store; start_line CMD_STORE parser.
  pose proof (reading_create CMD_STORE parser Hne) as Hrd1.
  read_register Hrd1 Hs p2 Hrd2.
  read_operand Hrd2 Haddr p3 Hrd3.
  read_number Hrd3 Hbytes p4 Hrd4.
  exists p4; split; [reflexivity|exact Hrd4].
Qed.

Lemma switch_put parser (addr : Z) (flag : bool) :
  Token.type (Parser.current parser) <> TOK_EOF ->
  Token.type (lookahead parser 1) = TOK_STR ->
  operand_token (lookahead parser 2) = Some (addr, flag) ->
  exists p,
    parse_put parser = Break (Some (length (Parser.heap parser))) p /\
    reading parser 3
      (command_of CMD_PUT false true flag BRANCH_NONE
         Operand.zero (label_operand (token_text (lookahead parser 1)))
         (number_operand addr)) p.
Proof.
  intros Hne Hstr Haddr; unfold parse_put; start_line CMD_PUT parser.
  pose proof (reading_create CMD_PUT parser Hne) as Hrd1.
  rewrite (reading_current _ _ _ _ Hrd1), Hstr.
  rewrite bool_decide_eq_true_2 by reflexivity; cbn [negb].
  pose proof (reading_advance _ _ _ _
                (reading_assign _ _ _ _ (Command.set_is_a_string true)
                   (reading_assign _ _ _ _
                      (fun c =>
                         Command.set_val_a
                           (Operand.set_str_val
                              (Some (String.substring 0
                                       (Token.length (lookahead parser 1))
                                       (Token.lexeme (lookahead parser 1))))
                              (Command.val_a c)) c) Hrd1))
                ltac:(congruence)) as Hrd2.
  read_operand Hrd2 Haddr p3 Hrd3.
  exists p3; split; [reflexivity|exact Hrd3].
Qed.

Lemma switch_label_operand type cond parser c p :
  reading parser 0 c p ->
  Token.type (Parser.current parser) <> TOK_EOF ->
  Token.type (lookahead parser 1) = TOK_IDENT ->
  c = command_of type false false false cond Operand.zero Operand.zero Operand.zero ->
  exists p',
    parse_label_operand (length (Parser.heap parser)) p
    = Break (Some (length (Parser.heap parser))) p' /\
    reading parser 2
      (command_of type false true false cond
         Operand.zero (label_operand (token_text (lookahead parser 1))) Operand.zero) p'.
Proof.
  intros Hrd0 Hne Hident ->; unfold parse_label_operand.
  pose proof (reading_advance _ _ _ _ Hrd0 Hne) as Hrd1.
  rewrite (reading_current _ _ _ _ Hrd1), Hident.
  rewrite bool_decide_eq_true_2 by reflexivity; cbn [negb].
  eexists; split; [reflexivity|].
  apply reading_advance; [|congruence].
  exact (reading_assign _ _ _ _ (Command.set_is_a_string true)
           (reading_assign _ _ _ _
              (fun c =>
                 Command.set_val_a
                   (Operand.set_str_val
                      (Some (strndup (Token.lexeme (lookahead parser 1))
                               (Token.length (lookahead parser 1))))
                      (Command.val_a c)) c) Hrd1)).
Qed.

Lemma reading_start (type : CommandType) (parser : Parser.t) :
  reading parser 0
    (command_of type false false false BRANCH_NONE Operand.zero Operand.zero Operand.zero)
    (snd (create_command type parser)).
Proof. repeat split; intros j; reflexivity. Qed.

Lemma switch_branch cond parser :
  Token.type (Parser.current parser) <> TOK_EOF ->
  Token.type (lookahead parser 1) = TOK_IDENT ->
  exists p,
    parse_branch cond parser = Break (Some (length (Parser.heap parser))) p /\
    reading parser 2
      (command_of CMD_BRANCH false true false cond
         Operand.zero (label_operand (token_text (lookahead parser 1))) Operand.zero) p.
Proof.
  intros Hne Hident; unfold parse_branch; start_line CMD_BRANCH parser.
  apply (switch_label_operand CMD_BRANCH cond parser
           (Command.set_branch_condition cond
              (command_of CMD_BRANCH false false false BRANCH_NONE
                 Operand.zero Operand.zero Operand.zero)));
    try assumption; try reflexivity.
  apply reading_assign, reading_start.
Qed.

Lemma switch_call parser :
  Token.type (Parser.current parser) <> TOK_EOF ->
  Token.type (lookahead parser 1) = TOK_IDENT ->
  exists p,
    parse_call parser = Break (Some (length (Parser.heap parser))) p /\
    reading parser 2
      (command_of CMD_CALL false true false BRANCH_NONE
         Operand.zero (label_operand (token_text (lookahead parser 1))) Operand.zero) p.
Proof.
  intros Hne Hident; unfold parse_call; start_line CMD_CALL parser.
  apply (switch_label_operand CMD_CALL BRANCH_NONE parser
           (command_of CMD_CALL false false false BRANCH_NONE
              Operand.zero Operand.zero Operand.zero));
    try assumption; try reflexivity.
  apply reading_start.
Qed.

Lemma switch_ret parser :
  Token.type (Parser.current parser) <> TOK_EOF ->
  exists p,
    parse_ret parser = Break (Some (length (Parser.heap parser))) p /\
    reading parser 1
      (command_of CMD_RET false false false BRANCH_NONE
         Operand.zero Operand.zero Operand.zero) p.
Proof.
  intros Hne; unfold parse_ret; start_line CMD_RET parser.
  eexists; split; [reflexivity|apply reading_create, Hne].
Qed.

Ltac keyword_cases Hin :=
  simpl in Hin;
  repeat (destruct Hin as [Hin|Hin]; [injection Hin as <- <-|]);
  try contradiction.

Ltac finish_line Hkw Hsw Hrd Hend :=
  eapply decoded_line;
    [ congruence | congruence | congruence
    | unfold parse_switch; rewrite Hkw; exact Hsw | exact Hrd | exact Hend ].

(** X19.  A well-formed line of an arithmetic, shift, bitwise, comparison or
    PRINT instruction is decoded into the command of its keyword with the
    operands in the order read: destination register, first register,
    then a register or a number with its immediate flag (a register for
    the bitwise instructions); CMP has no destination; PRINT has a
    register or a number and a base letter. *)
Theorem register_lines_decode (parser : Parser.t) :
  (forall kw type d a b flag,
     In (kw, type) [(TOK_ADD, CMD_ADD); (TOK_SUB, CMD_SUB); (TOK_LSL, CMD_LSL);
                    (TOK_LSR, CMD_LSR); (TOK_ASR, CMD_ASR)] ->
     Token.type (Parser.current parser) = kw ->
     register_token (lookahead parser 1) = Some d ->
     register_token (lookahead parser 2) = Some a ->
     operand_token (lookahead parser 3) = Some (b, flag) ->
     ends_line (lookahead parser 4) ->
     decoded parser
       (command_of type false false flag BRANCH_NONE
          (number_operand d) (number_operand a) (number_operand b))) /\
  (forall kw type d a b,
     In (kw, type) [(TOK_AND, CMD_AND); (TOK_EOR, CMD_EOR); (TOK_ORR, CMD_ORR)] ->
     Token.type (Parser.current parser) = kw ->
     register_token (lookahead parser 1) = Some d ->
     register_token (lookahead parser 2) = Some a ->
     register_token (lookahead parser 3) = Some b ->
     ends_line (lookahead parser 4) ->
     decoded parser
       (command_of type false false false BRANCH_NONE
          (number_operand d) (number_operand a) (number_operand b))) /\
  (forall kw type a b flag,
     In (kw, type) [(TOK_CMP, CMD_CMP); (TOK_CMP_U, CMD_CMP_U)] ->
     Token.type (Parser.current parser) = kw ->
     register_token (lookahead parser 1) = Some a ->
     operand_token (lookahead parser 2) = Some (b, flag) ->
     ends_line (lookahead parser 3) ->
     decoded parser
       (command_of type false false flag BRANCH_NONE
          Operand.zero (number_operand a) (number_operand b))) /\
  (forall a flag base,
     Token.type (Parser.current parser) = TOK_PRINT ->
     operand_token (lookahead parser 1) = Some (a, flag) ->
     base_token (lookahead parser 2) = Some base ->
     Token.type (lookahead parser 2) <> TOK_EOF ->
     ends_line (lookahead parser 3) ->
     decoded parser
       (command_of CMD_PRINT flag false false BRANCH_NONE
          Operand.zero (number_operand a) (base_operand base))).
Proof.
  split; [|split; [|split]].
  - intros kw type d a b flag Hin Hkw Hd Ha Hb Hend.
    keyword_cases Hin;
      match goal with
      | |- decoded _ (command_of ?ty _ _ _ _ _ _ _) =>
          destruct (switch_dest_var_operand ty parser d a b flag)
            as (p & Hsw & Hrd); [congruence|assumption..|]
      end;
      finish_line Hkw Hsw Hrd Hend.
  - intros kw type d a b Hin Hkw Hd Ha Hb Hend.
    keyword_cases Hin;
      match goal with
      | |- decoded _ (command_of ?ty _ _ _ _ _ _ _) =>
          destruct (switch_bitwise ty parser d a b)
            as (p & Hsw & Hrd); [congruence|assumption..|]
      end;
      finish_line Hkw Hsw Hrd Hend.
  - intros kw type a b flag Hin Hkw Ha Hb Hend.
    keyword_cases Hin;
      match goal with
      | |- decoded _ (command_of ?ty _ _ _ _ _ _ _) =>
          destruct (switch_cmp ty parser a b flag)
            as (p & Hsw & Hrd); [congruence|assumption..|]
      end;
      finish_line Hkw Hsw Hrd Hend.
  - intros a flag base Hkw Ha Hbase Hbne Hend.
    destruct (switch_print parser a flag base) as (p & Hsw & Hrd);
      [congruence|assumption..|].
    finish_line Hkw Hsw Hrd Hend.
Qed.

(** X20.  LOAD reads its destination register, the byte count and then the
    address; STORE reads its source register, the address and then the
    byte count: both keep the byte count in [val_a], as an immediate, and
    the address in [val_b].  PUT reads a string and an address; a branch
    keyword gives a BRANCH with the condition of the keyword and the text
    of the label; CALL has the text of its label; RET has no operand. *)
Theorem memory_and_control_lines_decode (parser : Parser.t) :
  (forall d bytes addr flag,
     Token.type (Parser.current parser) = TOK_LOAD ->
     register_token (lookahead parser 1) = Some d ->
     number_token (lookahead parser 2) = Some bytes ->
     operand_token (lookahead parser 3) = Some (addr, flag) ->
     ends_line (lookahead parser 4) ->
     decoded parser
       (command_of CMD_LOAD true false flag BRANCH_NONE
          (number_operand d) (number_operand bytes) (number_operand addr))) /\
  (forall s bytes addr flag,
     Token.type (Parser.current parser) = TOK_STORE ->
     register_token (lookahead parser 1) = Some s ->
     operand_token (lookahead parser 2) = Some (addr, flag) ->
     number_token (lookahead parser 3) = Some bytes ->
     ends_line (lookahead parser 4) ->
     decoded parser
       (command_of CMD_STORE true false flag BRANCH_NONE
          (number_operand s) (number_operand bytes) (number_operand addr))) /\
  (forall addr flag,
     Token.type (Parser.current parser) = TOK_PUT ->
     Token.type (lookahead parser 1) = TOK_STR ->
     operand_token (lookahead parser 2) = Some (addr, flag) ->
     ends_line (lookahead parser 3) ->
     decoded parser
       (command_of CMD_PUT false true flag BRANCH_NONE
          Operand.zero (label_operand (token_text (lookahead parser 1)))
          (number_operand addr))) /\
  (forall kw cond,
     In (kw, cond) [(TOK_BRANCH, BRANCH_ALWAYS); (TOK_BRANCH_EQ, BRANCH_EQUAL);
                    (TOK_BRANCH_GE, BRANCH_GREATER_EQUAL); (TOK_BRANCH_GT, BRANCH_GREATER);
                    (TOK_BRANCH_LE, BRANCH_LESS_EQUAL); (TOK_BRANCH_LT, BRANCH_LESS);
                    (TOK_BRANCH_NEQ, BRANCH_NOT_EQUAL)] ->
     Token.type (Parser.current parser) = kw ->
     Token.type (lookahead parser 1) = TOK_IDENT ->
     ends_line (lookahead parser 2) ->
     decoded parser
       (command_of CMD_BRANCH false true false cond
          Operand.zero (label_operand (token_text (lookahead parser 1))) Operand.zero)) /\
  (Token.type (Parser.current parser) = TOK_CALL ->
   Token.type (lookahead parser 1) = TOK_IDENT ->
   ends_line (lookahead parser 2) ->
   decoded parser
     (command_of CMD_CALL false true false BRANCH_NONE
        Operand.zero (label_operand (token_text (lookahead parser 1))) Operand.zero)) /\
  (Token.type (Parser.current parser) = TOK_RET ->
   ends_line (lookahead parser 1) ->
   decoded parser
     (command_of CMD_RET false false false BRANCH_NONE
        Operand.zero Operand.zero Operand.zero)).
Proof.
  split; [|split; [|split; [|split; [|split]]]].
  - intros d bytes addr flag Hkw Hd Hbytes Haddr Hend.
    destruct (switch_load parser d bytes addr flag) as (p & Hsw & Hrd);
      [congruence|assumption..|].
    finish_line Hkw Hsw Hrd Hend.
  - intros s bytes addr flag Hkw Hs Haddr Hbytes Hend.
    destruct (switch_store parser s bytes addr flag) as (p & Hsw & Hrd);
      [congruence|assumption..|].
    finish_line Hkw Hsw Hrd Hend.
  - intros addr flag Hkw Hstr Haddr Hend.
    destruct (switch_put parser addr flag) as (p & Hsw & Hrd);
      [congruence|assumption..|].
    finish_line Hkw Hsw Hrd Hend.
  - intros kw cond Hin Hkw Hident Hend.
    keyword_cases Hin;
      match goal with
      | |- decoded _ (command_of _ _ _ _ ?c _ _ _) =>
          destruct (switch_branch c parser) as (p & Hsw & Hrd); [congruence|assumption|]
      end;
      finish_line Hkw Hsw Hrd Hend.
  - intros Hkw Hident Hend.
    destruct (switch_call parser) as (p & Hsw & Hrd); [congruence|assumption|].
    finish_line Hkw Hsw Hrd Hend.
  - intros Hkw Hend.
    destruct (switch_ret parser) as (p & Hsw & Hrd); [congruence|].
    finish_line Hkw Hsw Hrd Hend.
Qed.

(** ** Blank input and labels *)

Lemma lookahead_parser_init (lexer : Lexer) (map : LabelMap.t) (i : nat) :
  lookahead (parser_init lexer map) i = nth i lexer eof_token.
Proof.
  unfold parser_init, lookahead.
  destruct lexer as [|t1 [|t2 rest]]; simpl; try reflexivity.
  - destruct i as [|[|[|i]]]; reflexivity.
  - destruct i as [|[|i]]; try reflexivity; destruct i; reflexivity.
Qed.

Lemma parser_init_keeps (lexer : Lexer) (map : LabelMap.t) :
  Parser.heap (parser_init lexer map) = [] /\
  Parser.had_error (parser_init lexer map) = false /\
  Parser.label_map (parser_init lexer map) = map.
Proof.
  unfold parser_init.
  destruct (lexer_next_token lexer) as [t1 l1], (lexer_next_token l1); auto.
Qed.

(** [parse_cmd] with nothing but newlines before the end of the input. *)
Lemma parse_cmd_blank (parser : Parser.t) (k : nat) :
  (forall j, (j < k)%nat -> Token.type (lookahead parser j) = TOK_NL) ->
  Token.type (lookahead parser k) = TOK_EOF ->
  exists parser',
    parse_cmd parser = Ret (None, parser') /\
    Parser.heap parser' = Parser.heap parser /\
    Parser.had_error parser' = Parser.had_error parser /\
    Parser.label_map parser' = Parser.label_map parser.
Proof.
  intros Hnls Heof.
  destruct (skip_nls_newlines k parser Hnls ltac:(congruence)) as (Hla & Hrest).
  assert (Token.type (Parser.current (skip_nls parser)) = TOK_EOF) as Hcur.
  { change (Parser.current (skip_nls parser)) with (lookahead (skip_nls parser) 0).
    rewrite Hla, Nat.add_0_r; exact Heof. }
  exists (skip_nls parser); split; [|exact Hrest].
  rewrite parse_cmd_eq; unfold at_label.
  rewrite (bool_decide_eq_false_2 (Token.type (Parser.current (skip_nls parser)) = TOK_IDENT))
    by congruence.
  cbn [andb]; unfold parse_instruction.
  rewrite decide_True by exact Hcur; reflexivity.
Qed.

Lemma blank_lookahead (rest : list Token.t) :
  Forall (fun t => Token.type t = TOK_NL) rest ->
  (forall j, (j < length rest)%nat -> Token.type (nth j rest eof_token) = TOK_NL) /\
  Token.type (nth (length rest) rest eof_token) = TOK_EOF.
Proof.
  intros Hall; split.
  - intros j Hj; rewrite Forall_forall in Hall.
    apply Hall, list_elem_of_In, nth_In, Hj.
  - rewrite nth_overflow by lia; reflexivity.
Qed.

(** X21.  For an input of newlines only, or no token at all, [parse_commands]
    returns NULL without an error; no command is allocated and the label
    table is unchanged. *)
Theorem blank_input_is_an_empty_program (lexer : Lexer) (map : LabelMap.t) :
  Forall (fun t => Token.type t = TOK_NL) lexer ->
  exists parser',
    parse_commands (parser_init lexer map) = Ret (None, parser') /\
    Parser.had_error parser' = false /\
    Parser.heap parser' = [] /\
    Parser.label_map parser' = map.
Proof.
  intros Hblank.
  destruct (parser_init_keeps lexer map) as (Hheap & Herr & Hmap).
  destruct (blank_lookahead lexer Hblank) as [Hnls Heof].
  unfold parse_commands; rewrite parse_commands_loop_eq, Herr.
  destruct (is_at_end (parser_init lexer map)); cbn [negb andb].
  - exists (parser_init lexer map); auto.
  - destruct (parse_cmd_blank (parser_init lexer map) (length lexer))
      as (parser' & Hp & Hh & He & Hm).
    + intros j Hj; rewrite lookahead_parser_init; apply Hnls, Hj.
    + rewrite lookahead_parser_init; exact Heof.
    + exists parser'; rewrite Hp.
      split; [reflexivity|split; [congruence|split; congruence]].
Qed.

(** X22.  A label prefix followed by nothing but newlines up to the end of the
    input is dropped: [parse_commands] returns NULL without an error, and
    the label is not registered. *)
Theorem trailing_label_is_dropped
    (label colon : Token.t) (rest : list Token.t) (map : LabelMap.t) :
  Token.type label = TOK_IDENT ->
  Token.type colon = TOK_COLON ->
  Forall (fun t => Token.type t = TOK_NL) rest ->
  exists parser',
    parse_commands (parser_init (label :: colon :: rest) map) = Ret (None, parser') /\
    Parser.had_error parser' = false /\
    Parser.heap parser' = [] /\
    Parser.label_map parser' = map.
Proof.
  intros Hlabel Hcolon Hblank.
  set (parser := parser_init (label :: colon :: rest) map).
  destruct (parser_init_keeps (label :: colon :: rest) map) as (Hheap & Herr & Hmap).
  destruct (blank_lookahead rest Hblank) as [Hnls Heof].
  assert (Parser.current parser = label /\ Parser.next parser = colon) as [Hcur Hnext]
    by (subst parser; unfold parser_init; simpl; destruct rest; auto).
  assert (skip_nls parser = parser) as Hskip
    by (apply skip_nls_at_keyword; rewrite Hcur; congruence).
  set (inner := advance (advance parser)).
  assert (forall j, lookahead inner j = nth j rest eof_token) as Hla.
  { intros j; subst inner.
    rewrite lookahead_advance.
    - rewrite lookahead_advance by (rewrite Hcur; congruence).
      subst parser; rewrite lookahead_parser_init; reflexivity.
    - change (Parser.current (advance parser)) with (lookahead (advance parser) 0).
      rewrite lookahead_advance by (rewrite Hcur; congruence).
      subst parser; rewrite lookahead_parser_init; simpl; congruence. }
  destruct (parse_cmd_blank inner (length rest)) as (parser' & Hp & Hh & He & Hm).
  { intros j Hj; rewrite Hla; apply Hnls, Hj. }
  { rewrite Hla; exact Heof. }
  assert (Parser.heap inner = Parser.heap parser /\
          Parser.had_error inner = Parser.had_error parser /\
          Parser.label_map inner = Parser.label_map parser) as (Hih & Hie & Him).
  { subst inner.
    destruct (advance_keeps (advance parser)) as (-> & -> & ->).
    apply advance_keeps. }
  exists parser'.
  unfold parse_commands; fold parser; rewrite parse_commands_loop_eq.
  fold parser in Herr, Hheap, Hmap; rewrite Herr.
  unfold is_at_end; rewrite Hcur, bool_decide_eq_false_2 by congruence.
  cbn [negb andb].
  rewrite parse_cmd_eq, Hskip; unfold at_label.
  rewrite Hcur, Hnext, !bool_decide_eq_true_2 by assumption; cbn [andb].
  fold inner; rewrite Hp; cbn [bind register_label].
  split; [reflexivity|split; [congruence|split; congruence]].
Qed.


(** ** The further properties at the example inputs *)

Lemma registers_x1_in_int64 (v : Z) : in_int64 v -> Forall in_int64 (x1_is v).
Proof.
  intros Hv; unfold x1_is; simpl.
  repeat (constructor; [first [exact Hv | unfold in_int64, INT64_MIN, INT64_MAX; lia]|]).
  constructor.
Qed.

Lemma registers_zero_in_int64 (n : nat) : Forall in_int64 (repeat 0 n).
Proof.
  induction n; simpl; constructor; [unfold in_int64, INT64_MIN, INT64_MAX; lia|assumption].
Qed.

(** [abc] and [acb] have the same hash and the same bucket. *)
Lemma hash_function_order_blind_witness :
  hash_function "abc" = hash_function "acb" /\
  bucket_of (label_map_init 16) "abc" = bucket_of (label_map_init 16) "acb".
Proof.
  destruct (hash_function_order_blind "abc" "acb") as (_ & Hhash & _ & Hbucket).
  - simpl; apply perm_skip, perm_swap.
  - split; [exact Hhash|apply Hbucket].
Defined.

(** [f], [g] and [f] again registered in a table of 16 buckets: [f] is found
    with its first command, [h] is not found. *)
Lemma first_registration_wins_witness :
  exists map,
    put_labels (label_map_init 16) example_pairs = Ret map /\
    get_label map "f" = Ret (Some (Entry.mk "f" 2)) /\
    get_label map "h" = Ret None.
Proof.
  destruct (first_registration_wins 16 example_pairs) as (map & Hputs & Hget); [lia|].
  exists map; split; [exact Hputs|split; rewrite Hget; reflexivity].
Defined.

(** After [f] is registered in a fresh table, [f] is found and every other
    name is looked up as before. *)
Lemma put_label_registers_one_name_witness :
  get_label table_f "f" = Ret (Some (Entry.mk "f" 2)) /\
  forall id, id <> "f" -> get_label table_f id = get_label (label_map_init 16) id.
Proof.
  destruct (put_label_registers_one_name (label_map_init 16) table_f "f" 2 true)
    as (_ & Hnew & _ & Hother & _); [reflexivity|].
  split; [apply Hnew; reflexivity|exact Hother].
Defined.

(** A fresh table of 16 buckets is well formed. *)
Lemma label_table_stays_well_formed_witness : table_ok (label_map_init 16).
Proof.
  destruct label_table_stays_well_formed as [Hinit _].
  apply Hinit; lia.
Defined.

(** After [cmp x1 5] with 7 in [x1], greater holds and less-or-equal does
    not. *)
Lemma branch_conditions_after_cmp_witness :
  let m := example_machine (label_map_init 16) (x1_is 7) in
  exists m',
    step [cmp_example] m 0 = Ret (m', None) /\
    cond_holds (Machine.intr m') BRANCH_GREATER = true /\
    cond_holds (Machine.intr m') BRANCH_LESS_EQUAL = false.
Proof.
  intros m.
  pose proof (@branch_conditions_after_cmp example_mem [cmp_example] m 0%nat
                cmp_example 7 5) as Hcmp.
  cbv zeta in Hcmp.
  destruct Hcmp as (m' & Hstep & _ & _ & _ & _ & Hgt & _ & _ & Hle & _).
  - reflexivity.
  - left; reflexivity.
  - reflexivity.
  - reflexivity.
  - reflexivity.
  - unfold in_int64, INT64_MIN, INT64_MAX; lia.
  - unfold in_int64, INT64_MIN, INT64_MAX; lia.
  - exists m'; split; [exact Hstep|split].
    + rewrite Hgt; reflexivity.
    + rewrite Hle; reflexivity.
Defined.

(** [and x1 x40 x2] ends the run with the instruction pointer on it. *)
Lemma error_stops_at_failing_instruction_witness :
  interpret_loop 3 [and_bad_register] fresh_machine (Some 0%nat)
  = Finished (after_step [and_bad_register] fresh_machine 0) (Some 0%nat).
Proof.
  destruct (@error_stops_at_failing_instruction example_mem [and_bad_register]
              fresh_machine (after_step [and_bad_register] fresh_machine 0)
              0%nat (Some 0%nat)) as (_ & _ & Hloop).
  - reflexivity.
  - vm_compute; reflexivity.
  - vm_compute; reflexivity.
  - apply Hloop.
Defined.

(** [lsl x2 x1 63] with 1 in [x1] leaves defined behaviour, and does so
    because [1 * 2^63] is not a signed 64-bit value. *)
Lemma exec_undefined_only_witness :
  let m := example_machine (label_map_init 16) (x1_is 1) in
  exists a b : Z,
    fetch_number_value (Machine.intr m) (Command.val_a lsl_example) false
      = Ret (Machine.intr m, a) /\
    fetch_number_value (Machine.intr m) (Command.val_b lsl_example)
      (Command.is_b_immediate lsl_example) = Ret (Machine.intr m, b) /\
    0 <= b <= 63 /\
    (a < 0 \/ INT64_MAX < a * 2 ^ b).
Proof.
  intros m.
  destruct (@exec_undefined_only example_mem m lsl_example ShiftOverflow)
    as [(Ht & _)|[(Ht & _)|(_ & _ & Hshift)]].
  - split; [unfold in_register_file; simpl; lia|].
    intros [Ht|Ht]; discriminate Ht.
  - change (table_ok (label_map_init 16)); apply label_map_init_ok; lia.
  - vm_compute; reflexivity.
  - discriminate Ht.
  - discriminate Ht.
  - exact Hshift.
Defined.

(** [and x3 x1 x2] with 12 and 10 in [x1] and [x2] leaves 8 in [x3]: bit 3
    set, the bits below it clear, [x1] as it was. *)
Lemma bitwise_instructions_on_registers_witness :
  let m := example_machine (label_map_init 16) (x1_x2_are 12 10) in
  let m' := after_step [and_example] m 0 in
  let x3 := nth 3 (Interpreter.variables (Machine.intr m')) 0 in
  Z.testbit x3 3 = true /\ Z.testbit x3 2 = false /\ Z.testbit x3 1 = false /\
  nth 1 (Interpreter.variables (Machine.intr m')) 0 = 12.
Proof.
  intros m m' x3.
  destruct (@bitwise_instructions_on_registers example_mem [and_example] m 0%nat
              and_example 12 10) as (m1 & Hstep & [_ Hothers] & _ & _ & Hbits).
  - reflexivity.
  - left; reflexivity.
  - reflexivity.
  - reflexivity.
  - unfold in_register_file; simpl; lia.
  - reflexivity.
  - reflexivity.
  - unfold in_int64, INT64_MIN, INT64_MAX; lia.
  - unfold in_int64, INT64_MIN, INT64_MAX; lia.
  - assert (m' = m1) as Hm by (subst m'; unfold after_step; rewrite Hstep; reflexivity).
    subst x3; rewrite Hm.
    split; [|split; [|split]].
    + etransitivity; [apply (Hbits 3); lia|reflexivity].
    + etransitivity; [apply (Hbits 2); lia|reflexivity].
    + etransitivity; [apply (Hbits 1); lia|reflexivity].
    + rewrite (Hothers 1%nat) by discriminate; reflexivity.
Defined.

(** [store x0 0 3] is refused: 3 is not a byte count STORE accepts. *)
Lemma store_checks_and_encodes_witness :
  step [store_three_bytes] fresh_machine 0
  = Ret (Machine.set_intr
           (Interpreter.set_had_error true (Machine.intr fresh_machine)) fresh_machine,
         Some 0%nat).
Proof.
  pose proof (@store_checks_and_encodes example_mem [store_three_bytes] fresh_machine
                0%nat store_three_bytes 3 0) as Hstore.
  cbv zeta in Hstore.
  destruct Hstore as (Hwidth & _).
  - reflexivity.
  - reflexivity.
  - reflexivity.
  - reflexivity.
  - reflexivity.
  - apply Hwidth; unfold store_width; lia.
Defined.

(** [load x2 1 0] of the byte 255 leaves 255, not -1, in [x2]. *)
Lemma load_zero_extends_witness :
  let m := machine_with (255 :: repeat 0 63) (x1_is 7) in
  let m' := after_step [load_byte] m 0 in
  nth 2 (Interpreter.variables (Machine.intr m')) 0 = 255 /\
  nth 1 (Interpreter.variables (Machine.intr m')) 0 = 7 /\
  Interpreter.had_error (Machine.intr m') = false.
Proof.
  intros m m'.
  pose proof (@load_zero_extends example_mem [load_byte] m 0%nat load_byte 1 0) as Hload.
  cbv zeta in Hload.
  destruct Hload as (_ & Hloaded).
  - reflexivity.
  - reflexivity.
  - reflexivity.
  - reflexivity.
  - reflexivity.
  - unfold in_register_file; simpl; lia.
  - apply registers_x1_in_int64; unfold in_int64, INT64_MIN, INT64_MAX; lia.
  - reflexivity.
  - destruct (Hloaded [255]) as (m1 & Hstep & Hnth & [_ Hothers] & (Herr & _) & _);
      [reflexivity|simpl; lia|].
    assert (m' = m1) as -> by (subst m'; unfold after_step; rewrite Hstep; reflexivity).
    split; [|split].
    + etransitivity; [exact Hnth|reflexivity].
    + rewrite (Hothers 1%nat) by discriminate; reflexivity.
    + rewrite Herr; reflexivity.
Defined.

(** [store x1 0 8] and then [load x2 8 0] with 7 in [x1] leave 7 in [x2]. *)
Lemma store_then_load_witness :
  let prog := [store_x1; load_x2] in
  let m := example_machine (label_map_init 16) (x1_is 7) in
  let m1 := after_step prog m 0 in
  let m2 := after_step prog m1 1 in
  nth 2 (Interpreter.variables (Machine.intr m2)) 0 = 7 /\
  nth 1 (Interpreter.variables (Machine.intr m2)) 0 = 7 /\
  Interpreter.had_error (Machine.intr m2) = false.
Proof.
  intros prog m m1 m2.
  pose proof (@store_then_load example_mem prog m 0%nat 1%nat store_x1 load_x2 8 0)
    as Hround.
  destruct (Hround eq_refl eq_refl eq_refl eq_refl eq_refl) with (m1 := m1)
    as (m' & Hstep & Hnth & [_ Hothers] & Herr & _).
  - apply registers_x1_in_int64; unfold in_int64, INT64_MIN, INT64_MAX; lia.
  - reflexivity.
  - unfold in_register_file; simpl; lia.
  - unfold in_register_file; simpl; lia.
  - reflexivity.
  - reflexivity.
  - reflexivity.
  - reflexivity.
  - unfold store_width; lia.
  - unfold INT64_MAX; lia.
  - vm_compute; discriminate.
  - intros src mem' Hlen Hstore; unfold reads_back.
    do 8 (destruct src as [|? src]; [discriminate Hlen|]).
    destruct src; [|discriminate Hlen].
    vm_compute in Hstore; injection Hstore as <-.
    vm_compute; reflexivity.
  - vm_compute; reflexivity.
  - reflexivity.
  - assert (m2 = m') as -> by (subst m2; unfold after_step; rewrite Hstep; reflexivity).
    split; [|split].
    + etransitivity; [exact Hnth|reflexivity].
    + rewrite (Hothers 1%nat) by discriminate; reflexivity.
    + exact Herr.
Defined.

(** The text of 5 fits the 67-byte buffer. *)
Lemma to_binary_string_fits_witness :
  (String.length (to_binary_string 5 67) < 67)%nat.
Proof.
  destruct (to_binary_string_fits 5 67) as (_ & Hfits & _); [lia|lia|exact Hfits].
Defined.

(** The text of -42 followed by a line feed is read back as -42. *)
Lemma decimal_text_parses_back_witness :
  parse_number
    (Token.mk TOK_NUM (format_PRId64 (-42) +:+ line_feed)
       (String.length (format_PRId64 (-42))))
  = Some (-42).
Proof.
  destruct (decimal_text_parses_back TOK_NUM (-42) line_feed) as (Hparse & _);
    [reflexivity|exact Hparse].
Defined.

(** [x31] is register 31. *)
Lemma register_names_x0_to_x31_witness :
  parse_variable
    (Token.mk TOK_IDENT (String "x" (format_PRId64 31 +:+ line_feed))
       (1 + String.length (format_PRId64 31)))
  = Some 31.
Proof.
  destruct register_names_x0_to_x31 as [_ Hname].
  apply (Hname TOK_IDENT "x"%char 31 line_feed); reflexivity.
Defined.

(** [parse_cmd] on [mov x0 <newline> 5] returns, with a well-formed table. *)
Lemma parse_cmd_appends_one_command_witness :
  exists result parser',
    parse_cmd (parser_init mov_tokens (label_map_init 16)) = Ret (result, parser') /\
    table_ok (Parser.label_map parser').
Proof.
  destruct (parse_cmd_appends_one_command (parser_init mov_tokens (label_map_init 16)))
    as (result & parser' & Hparse & Htable & _).
  - change (table_ok (label_map_init 16)); apply label_map_init_ok; lia.
  - exists result, parser'; split; assumption.
Defined.

(** [parse_commands] on [L: ret <newline> L: ret] gives a linked list. *)
Lemma parse_commands_builds_program_witness :
  exists n parser',
    parse_commands (parser_init twice_tokens (label_map_init 16))
    = Ret (head_of n, parser') /\
    linked (Parser.heap parser') n.
Proof.
  destruct (parse_commands_builds_program (parser_init twice_tokens (label_map_init 16)))
    as (n & parser' & Hparse & _ & Hlinked & _).
  - change (table_ok (label_map_init 16)); apply label_map_init_ok; lia.
  - reflexivity.
  - exists n, parser'; split; assumption.
Defined.

(** [mov x1 1; lsl x2 x1 63] leaves defined behaviour at the LSL, in one
    of the three ways. *)
Lemma closed_program_runs_safely_witness :
  interpret 5 shift_program fresh_machine (Some 0%nat) = Crashed ShiftOverflow /\
  match interpret 5 shift_program fresh_machine (Some 0%nat) with
  | Finished m' current' =>
      Interpreter.label_map (Machine.intr m') = label_map_init 16 /\
      points_below 2 current'
  | Crashed why => why = IntOverflow \/ why = RegWrite \/ why = ShiftOverflow
  | OutOfFuel => True
  end.
Proof.
  split; [vm_compute; reflexivity|].
  apply (@closed_program_runs_safely example_mem shift_program
           (label_map_init 16) 2 5 fresh_machine (Some 0%nat)).
  - split; [apply label_map_init_ok; lia|split].
    + intros i Hi.
      assert (i = 0 \/ i = 1)%nat as [-> | ->] by lia;
        (eexists; split; [reflexivity|split; [split|]]);
        try (unfold in_register_file; simpl; lia);
        try (intros [Ht|Ht]; discriminate Ht).
      * intros k [= <-]; lia.
      * intros k Hk; discriminate Hk.
    + intros id e Hget; rewrite get_label_init in Hget by lia; discriminate Hget.
  - split; [reflexivity|constructor].
  - intros k [= <-]; lia.
Defined.

(** What is parsed from [mov x1 1 <newline> lsl x2 x1 63] leaves defined
    behaviour when it is run, in one of the three ways. *)
Lemma parsed_program_runs_safely_witness :
  exists head parser',
    parse_commands (parser_init shift_tokens (label_map_init 16)) = Ret (head, parser') /\
    exists why,
      interpret 5 (Parser.heap parser')
        (@Machine.mk example_mem (interpreter_init (Parser.label_map parser'))
           (repeat 0 64) EmptyString) head
      = Crashed why /\
      (why = IntOverflow \/ why = RegWrite \/ why = ShiftOverflow).
Proof.
  destruct (@parsed_program_runs_safely example_mem shift_tokens 16 5
              (repeat 0 64) EmptyString) as (head & parser' & Hparse & Hrun); [lia|].
  exists head, parser'; split; [exact Hparse|].
  assert (interpret 5 (Parser.heap parser')
            (@Machine.mk example_mem (interpreter_init (Parser.label_map parser'))
               (repeat 0 64) EmptyString) head
          = Crashed ShiftOverflow) as Hcrash.
  { vm_compute in Hparse; injection Hparse as <- <-; vm_compute; reflexivity. }
  exists ShiftOverflow; split; [exact Hcrash|].
  rewrite Hcrash in Hrun; exact Hrun.
Defined.

(** [add x1 x2 5] is decoded as an ADD of [x2] and the immediate 5 into
    [x1]. *)
Lemma register_lines_decode_witness :
  decoded (parser_init add_line_tokens (label_map_init 16))
    (command_of CMD_ADD false false true BRANCH_NONE
       (number_operand 1) (number_operand 2) (number_operand 5)).
Proof.
  destruct (register_lines_decode (parser_init add_line_tokens (label_map_init 16)))
    as (Harith & _).
  apply (Harith TOK_ADD CMD_ADD 1 2 5 true).
  - left; reflexivity.
  - reflexivity.
  - vm_compute; reflexivity.
  - vm_compute; reflexivity.
  - vm_compute; reflexivity.
  - left; reflexivity.
Defined.

(** [store x0 0 8] is decoded with the byte count 8 in [val_a] and the
    address 0 in [val_b]. *)
Lemma memory_and_control_lines_decode_witness :
  decoded (parser_init store_line_tokens (label_map_init 16))
    (command_of CMD_STORE true false true BRANCH_NONE
       (number_operand 0) (number_operand 8) (number_operand 0)).
Proof.
  destruct (memory_and_control_lines_decode
              (parser_init store_line_tokens (label_map_init 16)))
    as (_ & Hstore & _).
  apply (Hstore 0 8 0 true).
  - reflexivity.
  - vm_compute; reflexivity.
  - vm_compute; reflexivity.
  - vm_compute; reflexivity.
  - left; reflexivity.
Defined.

(** Two empty lines give the empty program. *)
Lemma blank_input_is_an_empty_program_witness :
  exists parser',
    parse_commands (parser_init blank_tokens (label_map_init 16)) = Ret (None, parser') /\
    Parser.had_error parser' = false /\
    Parser.heap parser' = [] /\
    Parser.label_map parser' = label_map_init 16.
Proof.
  apply blank_input_is_an_empty_program.
  repeat constructor.
Defined.

(** [L: <newline>] gives the empty program, without an error. *)
Lemma trailing_label_is_dropped_witness :
  exists parser',
    parse_commands
      (parser_init (label_only_label :: label_only_colon :: label_only_rest)
         (label_map_init 16))
    = Ret (None, parser') /\
    Parser.had_error parser' = false /\
    Parser.heap parser' = [] /\
    Parser.label_map parser' = label_map_init 16.
Proof.
  apply trailing_label_is_dropped; [reflexivity|reflexivity|].
  repeat constructor.
Defined.

